(** * Asset-job compilation ([dagster.core.asset_defs.assets_job]) and the
      remote pipeline lookup ([dagster.utils.external])

    A shallow embedding of the two Python modules.  Python dictionaries are
    association lists in insertion order, Python sets are duplicate-free
    lists in iteration order, and a raised exception is the [Raise] branch
    of [result]. *)

From Stdlib Require Import Strings.String Strings.Ascii ZArith Lia.
From Stdlib Require Import DecimalString Structures.OrderedTypeEx.
From stdpp Require Import base tactics option list sets strings relations sorting.

Local Open Scope string_scope.
Local Open Scope list_scope.
#[local] Set Warnings "-clear-no-such-hyp".

(** ** Exceptions *)

Inductive exception : Type :=
  | DagsterInvalidDefinitionError (msg : string)
  | CircularDependencyError
  | CheckError (msg : string)
  | KeyError
  | IndexError
  | StopIteration.

Inductive result (A : Type) : Type :=
  | Ok (a : A)
  | Raise (e : exception).
Arguments Ok {A} a.
Arguments Raise {A} e.

#[global] Instance result_ret : MRet result := λ A a, Ok a.
#[global] Instance result_bind : MBind result := λ A B f m,
  match m with
  | Ok a => f a
  | Raise e => Raise e
  end.

(** A [for] loop that threads the loop state and stops at the first raise. *)
Fixpoint foldM {A S : Type} (f : S → A → result S) (s : S) (l : list A)
  : result S :=
  match l with
  | [] => Ok s
  | x :: l' => s' ← f s x; foldM f s' l'
  end.

(** A [for] loop run for its exceptions only. *)
Definition for_ {A : Type} (l : list A) (f : A → result unit) : result unit :=
  foldM (λ _ x, f x) tt l.

(** ** Python dictionaries: association lists in insertion order *)

Abbreviation dict K V := (list (K * V)%type) (only parsing).

Section dict.
Context {K V : Type} `{EqDecision K}.

(** [d.get(k)] *)
Fixpoint dict_get (d : dict K V) (k : K) : option V :=
  match d with
  | [] => None
  | (k', v) :: d' => if decide (k = k') then Some v else dict_get d' k
  end.

(** [d[k]], raising [KeyError] *)
Definition dict_getitem (d : dict K V) (k : K) : result V :=
  match dict_get d k with
  | Some v => Ok v
  | None => Raise KeyError
  end.

(** [k in d] *)
Definition dict_mem (d : dict K V) (k : K) : bool :=
  bool_decide (is_Some (dict_get d k)).

(** [d[k] = v]: a present key keeps its position, a new one goes last. *)
Fixpoint dict_set (d : dict K V) (k : K) (v : V) : dict K V :=
  match d with
  | [] => [(k, v)]
  | (k', v') :: d' =>
      if decide (k = k') then (k', v) :: d' else (k', v') :: dict_set d' k v
  end.

(** [d.update(d2)] *)
Definition dict_update (d d2 : dict K V) : dict K V :=
  foldl (λ acc kv, dict_set acc kv.1 kv.2) d d2.

Definition dict_keys (d : dict K V) : list K := d.*1.
Definition dict_values (d : dict K V) : list V := d.*2.
End dict.

(** Modelled from the spec: [merge_dicts] of [dagster.utils], which is not
    among the source files.  The dictionaries are merged in the order
    given: a fresh dictionary is updated with [left] and then with
    [right], so a binding of [right] replaces one of [left]. *)
Definition merge_dicts {K V : Type} `{EqDecision K} (left right : dict K V)
  : dict K V :=
  dict_update (dict_update [] left) right.

(** Python sets: [s.add(x)] *)
Definition set_add {A : Type} `{EqDecision A} (s : list A) (x : A) : list A :=
  if bool_decide (x ∈ s) then s else s ++ [x].

(** [next(iter(xs))] *)
Definition next_iter {A : Type} (xs : list A) : result A :=
  match xs with
  | x :: _ => Ok x
  | [] => Raise StopIteration
  end.

(** ** Asset keys *)

(** [AssetKey]: a named tuple with the single field [path]. *)
Definition AssetKey : Type := list string.

(** [key.path[-1]] *)
Definition path_last (key : AssetKey) : result string :=
  match last key with
  | Some s => Ok s
  | None => Raise IndexError
  end.

(** Modelled from the spec: [AssetKey.to_user_string], which is not among
    the source files.  The cycle resolver names an Artifact Key by a
    string: the segments of its path joined with the delimiter "/". *)
Definition to_user_string (key : AssetKey) : string :=
  String.concat "/" key.

(** [str.split] on a one-character delimiter. *)
Fixpoint split_on (c : ascii) (s : string) : list string :=
  match s with
  | EmptyString => [EmptyString]
  | String a s' =>
      if decide (a = c) then EmptyString :: split_on c s'
      else match split_on c s' with
           | w :: ws => String a w :: ws
           | [] => [String a EmptyString]
           end
  end.

(** Modelled from the spec: [AssetKey.from_user_string], which is not
    among the source files: the key whose path is the string split at the
    delimiter. *)
Definition from_user_string (s : string) : AssetKey := split_on "/"%char s.

(** ** Ordering and [sorted] *)

(** Python compares lists (and tuples) lexicographically. *)
Fixpoint list_compare {A : Type} (cmp : A → A → comparison) (l1 l2 : list A)
  : comparison :=
  match l1, l2 with
  | [], [] => Eq
  | [], _ :: _ => Lt
  | _ :: _, [] => Gt
  | x :: l1', y :: l2' =>
      match cmp x y with
      | Eq => list_compare cmp l1' l2'
      | c => c
      end
  end.

(** Asset keys compare as their paths, strings by code point. *)
Definition AssetKey_compare : AssetKey → AssetKey → comparison :=
  list_compare String.compare.

(** [sorted(xs, key=key)] is a stable sort: an element is moved behind
    another one only when its key is strictly greater. *)
Fixpoint sorted_insert {A B : Type} (cmp : B → B → comparison) (key : A → B)
  (x : A) (l : list A) : list A :=
  match l with
  | [] => [x]
  | y :: l' =>
      match cmp (key y) (key x) with
      | Lt => y :: sorted_insert cmp key x l'
      | _ => x :: y :: l'
      end
  end.

Definition sorted {A B : Type} (cmp : B → B → comparison) (key : A → B)
  (l : list A) : list A :=
  foldr (sorted_insert cmp key) [] l.

(** [str(n)] for a non-negative integer. *)
Definition str_of_nat (n : nat) : string :=
  NilEmpty.string_of_uint (Nat.to_uint n).

(** ** Graph vocabulary of [dagster.core.definitions.dependency] *)

(** A key of the dependency dictionary: a plain node name, or a
    [NodeInvocation] when the node runs under an alias. *)
Inductive node_key : Type :=
  | NodeName (name : string)
  | NodeInvocation (name alias : string).

#[global] Instance node_key_eq_dec : EqDecision node_key.
Proof. solve_decision. Defined.

Inductive IDependencyDefinition : Type :=
  | DependencyDefinition (node output : string)
  | MultiDependencyDefinition (dependencies : list (string * string)).

#[global] Instance IDependencyDefinition_eq_dec : EqDecision IDependencyDefinition.
Proof. solve_decision. Defined.

(** [NodeHandle(name, parent=None)] and [NodeInputHandle(node_handle, input_name)] *)
Definition NodeHandle : Type := string.
Definition NodeInputHandle : Type := (NodeHandle * string)%type.

(** ** The [toposort] package

    [toposort.toposort] is third-party code; this is its algorithm
    (release 1.7): self-dependencies are discarded, every item that only
    occurs as a dependency gets an empty dependency set, and the items
    without dependencies are peeled off layer by layer.  [list(...)] of the
    generator is the list of layers. *)

Section toposort.
Context {A : Type} `{EqDecision A}.

(** [set(item for item, dep in data.items() if len(dep) == 0)] *)
Definition toposort_ordered (data : dict A (list A)) : list A :=
  (filter (λ kv : A * list A, kv.2 = []) (data : list (A * list A))).*1.

(** [{item: (dep - ordered) for item, dep in data.items() if item not in ordered}] *)
Definition toposort_remove (ordered : list A) (data : dict A (list A))
  : dict A (list A) :=
  (λ kv : A * list A, (kv.1, list_difference kv.2 ordered))
    <$> filter (λ kv : A * list A, kv.1 ∉ ordered) (data : list (A * list A)).

(** The [while True] loop and the final check; [None] when [fuel] rounds
    did not reach the [break]. *)
Fixpoint toposort_loop (fuel : nat) (data : dict A (list A))
  : option (result (list (list A))) :=
  match toposort_ordered data with
  | [] =>
      Some (if decide (length data ≠ 0) then Raise CircularDependencyError
            else Ok [])
  | ordered =>
      match fuel with
      | O => None
      | S fuel' =>
          r ← toposort_loop fuel' (toposort_remove ordered data);
          Some (layers ← r; Ok (ordered :: layers))
      end
  end.

(** The dictionary the loop starts from. *)
Definition toposort_prepare (data : dict A (list A)) : dict A (list A) :=
  let data : dict A (list A) :=
    (λ kv : A * list A, (kv.1, filter (λ e, e ≠ kv.1) kv.2))
      <$> (data : list (A * list A)) in
  let extra_items_in_deps : list A :=
    list_difference (remove_dups (concat (dict_values data))) (dict_keys data) in
  dict_update data ((λ item, (item, [])) <$> extra_items_in_deps).

(** Every round removes an item, so [length data] rounds are enough
    ([toposort_loop_fuel]); the last branch is never taken. *)
Definition toposort (data : dict A (list A)) : result (list (list A)) :=
  if decide (length data = 0) then Ok []
  else
    let data := toposort_prepare data in
    match toposort_loop (length data) data with
    | Some r => r
    | None => Raise CircularDependencyError
    end.

End toposort.

(** ** [_has_cycles] *)

Definition unexpected_dependency_msg : string :=
  "Failure condition: Unexpected dependency type "
  +:+ "<class 'dagster.core.definitions.dependency.MultiDependencyDefinition'>.".

(** The body of the inner loop: [node_deps[upstream_node].add(dep.node)].
    An upstream node is the string [dep.node]; a key of [deps] is a string
    or a [NodeInvocation], and the two never compare equal in Python. *)
Definition record_upstream (upstream_node : node_key)
  (node_deps : dict node_key (list node_key)) (dep : IDependencyDefinition)
  : result (dict node_key (list node_key)) :=
  match dep with
  | DependencyDefinition node _ =>
      s ← dict_getitem node_deps upstream_node;
      Ok (dict_set node_deps upstream_node (set_add s (NodeName node)))
  | _ => Raise (CheckError unexpected_dependency_msg)
  end.

(** The body of the outer loop. *)
Definition record_node (node_deps : dict node_key (list node_key))
  (item : node_key * dict string IDependencyDefinition)
  : result (dict node_key (list node_key)) :=
  let '(upstream_node, downstream_deps) := item in
  foldM (record_upstream upstream_node)
        (dict_set node_deps upstream_node [])
        (dict_values downstream_deps).

(** The dictionary [node_deps] built inside the [try]. *)
Definition build_node_deps_sets (deps : dict node_key (dict string IDependencyDefinition))
  : result (dict node_key (list node_key)) :=
  foldM record_node [] deps.

Definition _has_cycles (deps : dict node_key (dict string IDependencyDefinition))
  : result bool :=
  match (node_deps ← build_node_deps_sets deps;
         _ ← toposort node_deps;
         Ok false) with
  | Raise CircularDependencyError => Ok true
  | r => r
  end.

(** ** Definitions handed to the compiler *)

Section Model.
(** A partitions definition is compared by value, a resource definition
    by object identity; both are kept abstract with a decidable
    equality.  [to_string] is [AssetKey.to_string].  The field [keys] is a
    Python set: its elements do not fix the order in which a run iterates
    it, so the same definition in another run is the record with [keys]
    in another order. *)
Context {PartitionsDefinition ResourceDefinition : Type}.
Context `{EqDecision PartitionsDefinition, EqDecision ResourceDefinition}.
Variable to_string : AssetKey → string.

Record AssetsDefinition : Type := {
  node_def_name : string;                      (* [node_def.name] *)
  keys : list AssetKey;        (* the set [keys], in the order a run iterates it *)
  keys_by_input_name : dict string AssetKey;
  keys_by_output_name : dict string AssetKey;
  group_names_by_key : dict AssetKey string;
  asset_deps : dict AssetKey (list AssetKey);
  partitions_def : option PartitionsDefinition;
  can_subset : bool;
  resource_defs : dict string ResourceDefinition;
  resource_requirements : list string
}.

Record SourceAsset : Type := {
  source_key : AssetKey;                       (* [key] *)
  source_group_name : string;                  (* [group_name] *)
  source_resource_defs : dict string ResourceDefinition;
  source_resource_requirements : list string
}.

#[global] Instance AssetsDefinition_eq_dec : EqDecision AssetsDefinition.
Proof. solve_decision. Defined.

(** *** [build_job_partitions_from_assets] *)

Definition partitions_conflict_msg (first_asset_key second_asset_key : string)
  : string :=
  "When an assets job contains multiple partitions assets, they must have the "
  +:+ "same partitions definitions, but asset '" +:+ first_asset_key
  +:+ "' and asset '" +:+ second_asset_key
  +:+ "' have different partitions definitions. ".

Definition build_job_partitions_from_assets (assets : list AssetsDefinition)
  : result (option PartitionsDefinition) :=
  let assets_with_partitions_defs :=
    filter (λ assets_def, is_Some (partitions_def assets_def)) assets in
  match assets_with_partitions_defs with
  | [] => Ok None
  | first_assets_with_partitions_def :: _ =>
      _ ← for_ assets_with_partitions_defs (λ assets_def,
            if decide (partitions_def assets_def
                       ≠ partitions_def first_assets_with_partitions_def)
            then
              k1 ← next_iter (keys assets_def);
              k2 ← next_iter (keys first_assets_with_partitions_def);
              Raise (DagsterInvalidDefinitionError
                       (partitions_conflict_msg (to_string k1) (to_string k2)))
            else Ok tt);
      Ok (partitions_def first_assets_with_partitions_def)
  end.


(** *** [resolve_assets_def_deps] *)

Definition unresolved_input_msg (input_key owner_key : string) : string :=
  "Input asset '" +:+ input_key +:+ "' for asset '" +:+ owner_key
  +:+ "' is not "
  +:+ "produced by any of the provided asset ops and is not one of the provided "
  +:+ "sources".

(** The two loops filling [asset_keys_by_group_and_name]. *)
Definition build_asset_keys_by_group_and_name
  (assets_defs : list AssetsDefinition) (source_assets : list SourceAsset)
  : result (dict (string * string) AssetKey) :=
  tbl ← foldM (λ tbl assets_def,
           foldM (λ tbl key,
                    group ← dict_getitem (group_names_by_key assets_def) key;
                    name ← path_last key;
                    Ok (dict_set tbl (group, name) key))
                 tbl (keys assets_def))
        [] assets_defs;
  foldM (λ tbl source_asset,
           name ← path_last (source_key source_asset);
           Ok (dict_set tbl (source_group_name source_asset, name)
                 (source_key source_asset)))
        tbl source_assets.

(** [next(iter(group_names_by_key.values())) if len(group_names_by_key) == 1
    else None] *)
Definition group_of (assets_def : AssetsDefinition) : option string :=
  match group_names_by_key assets_def with
  | [(_, group)] => Some group
  | _ => None
  end.

Definition raise_unresolved {A : Type} (assets_def : AssetsDefinition)
  (upstream_asset_key : AssetKey) : result A :=
  owner ← next_iter (keys assets_def);
  Raise (DagsterInvalidDefinitionError
           (unresolved_input_msg (to_string upstream_asset_key) (to_string owner))).

(** The body of the loop over [keys_by_input_name.items()]: the key one
    input resolves to. *)
Definition resolve_input (asset_keys_by_group_and_name : dict (string * string) AssetKey)
  (asset_keys : list AssetKey) (assets_def : AssetsDefinition)
  (group : option string) (upstream_asset_key : AssetKey) : result AssetKey :=
  name ← path_last upstream_asset_key;
  if bool_decide (upstream_asset_key ∈ asset_keys) then Ok upstream_asset_key
  else match group with
       | Some g =>
           match dict_get asset_keys_by_group_and_name (g, name) with
           | Some k => Ok k
           | None => raise_unresolved assets_def upstream_asset_key
           end
       | None => raise_unresolved assets_def upstream_asset_key
       end.

(** The body of the loop over [assets_defs]. *)
Definition resolve_assets_def (asset_keys_by_group_and_name : dict (string * string) AssetKey)
  (asset_keys : list AssetKey) (assets_def : AssetsDefinition)
  : result (AssetsDefinition * dict string AssetKey) :=
  let group := group_of assets_def in
  dep_keys_by_input_name ←
    foldM (λ dep_keys_by_input_name '(input_name, upstream_asset_key),
             k ← resolve_input asset_keys_by_group_and_name asset_keys
                   assets_def group upstream_asset_key;
             Ok (dict_set dep_keys_by_input_name input_name k))
          [] (keys_by_input_name assets_def);
  Ok (assets_def, dep_keys_by_input_name).

Definition resolve_assets_def_deps (assets_defs : list AssetsDefinition)
  (source_assets : list SourceAsset)
  : result (list (AssetsDefinition * dict string AssetKey)) :=
  asset_keys_by_group_and_name ←
    build_asset_keys_by_group_and_name assets_defs source_assets;
  let asset_keys := remove_dups (dict_values asset_keys_by_group_and_name) in
  mapM (resolve_assets_def asset_keys_by_group_and_name asset_keys) assets_defs.

(** *** [build_node_deps] *)

(** The key [sorted] orders the definitions by: [sorted(ak for ak in ad.keys)]. *)
Definition sort_key (ad : AssetsDefinition) : list AssetKey :=
  sorted AssetKey_compare id (keys ad).

(** The alias a node name receives, with the updated [collisions]. *)
Definition assign_node_alias (collisions : dict string nat) (node_name : string)
  : dict string nat * string :=
  match dict_get collisions node_name with
  | Some (S n) =>
      let c := S (S n) in
      (dict_set collisions node_name c, node_name +:+ "_" +:+ str_of_nat c)
  | _ => (dict_set collisions node_name 1, node_name)
  end.

(** The state of the naming loop: [collisions],
    [assets_defs_by_node_handle] and [node_alias_and_output_by_asset_key]. *)
Definition naming_state : Type :=
  (dict string nat * dict NodeHandle AssetsDefinition
   * dict AssetKey (string * string))%type.

Definition naming_step (st : naming_state) (assets_def : AssetsDefinition)
  : naming_state :=
  let '(collisions, assets_defs_by_node_handle, node_alias_and_output_by_asset_key) := st in
  let '(collisions, node_alias) :=
    assign_node_alias collisions (node_def_name assets_def) in
  (collisions,
   dict_set assets_defs_by_node_handle node_alias assets_def,
   foldl (λ acc '(output_name, key), dict_set acc key (node_alias, output_name))
         node_alias_and_output_by_asset_key (keys_by_output_name assets_def)).

Definition deps_dict : Type := dict node_key (dict string IDependencyDefinition).

(** [deps[node_key][input_name] = dep] *)
Definition deps_set (deps : deps_dict) (nk : node_key) (input_name : string)
  (dep : IDependencyDefinition) : result deps_dict :=
  inner ← dict_getitem deps nk;
  Ok (dict_set deps nk (dict_set inner input_name dep)).

(** The key that references the node of a handle in [deps]. *)
Definition node_key_of (node_handle : NodeHandle) (assets_def : AssetsDefinition)
  : node_key :=
  let node_def_name := node_def_name assets_def in
  if decide (node_handle ≠ node_def_name)
  then NodeInvocation node_def_name node_handle
  else NodeName node_def_name.

(** The body of the loop over the resolved inputs of one node. *)
Definition connect_input
  (node_alias_and_output_by_asset_key : dict AssetKey (string * string))
  (node_handle : NodeHandle) (nk : node_key)
  (st : deps_dict * dict NodeInputHandle AssetKey)
  (item : string * AssetKey)
  : result (deps_dict * dict NodeInputHandle AssetKey) :=
  let '(deps, asset_keys_by_input_handle) := st in
  let '(input_name, upstream_asset_key) := item in
  deps ← match dict_get node_alias_and_output_by_asset_key upstream_asset_key with
         | Some (upstream_node_alias, upstream_output_name) =>
             deps_set deps nk input_name
               (DependencyDefinition upstream_node_alias upstream_output_name)
         | None => Ok deps
         end;
  Ok (deps,
      dict_set asset_keys_by_input_handle (node_handle, input_name)
        upstream_asset_key).

(** The body of the loop over [assets_defs_by_node_handle.items()]. *)
Definition connect_node
  (node_alias_and_output_by_asset_key : dict AssetKey (string * string))
  (dep_keys_by_input_name_by_assets_def_id
     : dict AssetsDefinition (dict string AssetKey))
  (st : deps_dict * dict NodeInputHandle AssetKey)
  (item : NodeHandle * AssetsDefinition)
  : result (deps_dict * dict NodeInputHandle AssetKey) :=
  let '(deps, asset_keys_by_input_handle) := st in
  let '(node_handle, assets_def) := item in
  let nk := node_key_of node_handle assets_def in
  let deps := dict_set deps nk [] in
  dep_keys ← dict_getitem dep_keys_by_input_name_by_assets_def_id assets_def;
  foldM (connect_input node_alias_and_output_by_asset_key node_handle nk)
        (deps, asset_keys_by_input_handle) dep_keys.

(** The dictionary comprehension keyed by [id(assets_def)].  An object is
    identified with its contents: two definitions with equal contents
    resolve to equal dictionaries, so reading the entry of either one
    returns the same value. *)
Definition index_by_assets_def_id
  (resolved : list (AssetsDefinition * dict string AssetKey))
  : dict AssetsDefinition (dict string AssetKey) :=
  foldl (λ acc '(assets_def, dep_keys), dict_set acc assets_def dep_keys)
        [] resolved.

(** The naming loop. *)
Definition name_nodes (assets_defs : list AssetsDefinition) : naming_state :=
  foldl naming_step ([], [], []) assets_defs.

(** The loop that fills [deps] and [asset_keys_by_input_handle]. *)
Definition connect_nodes
  (node_alias_and_output_by_asset_key : dict AssetKey (string * string))
  (dep_keys_by_input_name_by_assets_def_id
     : dict AssetsDefinition (dict string AssetKey))
  (assets_defs_by_node_handle : dict NodeHandle AssetsDefinition)
  : result (deps_dict * dict NodeInputHandle AssetKey) :=
  foldM (connect_node node_alias_and_output_by_asset_key
           dep_keys_by_input_name_by_assets_def_id)
        ([], []) assets_defs_by_node_handle.

Definition build_node_deps (assets_defs : list AssetsDefinition)
  (source_assets : list SourceAsset)
  : result (deps_dict * dict NodeHandle AssetsDefinition
            * dict NodeInputHandle AssetKey) :=
  let assets_defs := sorted (list_compare AssetKey_compare) sort_key assets_defs in
  let '(_, assets_defs_by_node_handle, node_alias_and_output_by_asset_key) :=
    name_nodes assets_defs in
  resolved ← resolve_assets_def_deps assets_defs source_assets;
  let dep_keys_by_input_name_by_assets_def_id := index_by_assets_def_id resolved in
  '(deps, asset_keys_by_input_handle) ←
    connect_nodes node_alias_and_output_by_asset_key
      dep_keys_by_input_name_by_assets_def_id assets_defs_by_node_handle;
  Ok (deps, assets_defs_by_node_handle, asset_keys_by_input_handle).

(** *** [_attempt_resolve_cycles] *)

(** Modelled from the spec: [generate_asset_dep_graph] of
    [dagster.core.selector.subset_selector], which is not among the source
    files.  It computes the artifact-level upstream and downstream
    adjacency over user strings: every output key has an upstream set (the
    keys its definition's [asset_deps] lists for it) and a downstream set,
    and every upstream key has a downstream set. *)
Definition generate_asset_dep_graph (assets_defs : list AssetsDefinition)
  : result (dict string (list string) * dict string (list string)) :=
  foldM (λ graph assets_def,
           foldM (λ '(upstream, downstream) asset_key,
                    let asset_name := to_user_string asset_key in
                    upstream_asset_keys ← dict_getitem (asset_deps assets_def) asset_key;
                    let upstream_names := to_user_string <$> upstream_asset_keys in
                    let upstream :=
                      dict_set upstream asset_name (foldl set_add [] upstream_names) in
                    let downstream :=
                      dict_set downstream asset_name
                        (default [] (dict_get downstream asset_name)) in
                    let downstream :=
                      foldl (λ downstream upstream_name,
                               dict_set downstream upstream_name
                                 (set_add (default [] (dict_get downstream upstream_name))
                                    asset_name))
                            downstream upstream_names in
                    Ok (upstream, downstream))
                 graph (keys assets_def))
        ([], []) assets_defs.

(** Modelled from the spec: [AssetsDefinition.subset_for], the
    [restrict(outputKeySubset)] operation of a subsettable definition, which
    is not among the source files.  The copy keeps the selected output keys
    and, of the inputs, those that a selected output depends on. *)
Definition subset_for (assets_def : AssetsDefinition)
  (selected_asset_keys : list AssetKey) : AssetsDefinition :=
  let selected := filter (λ k, k ∈ keys assets_def) selected_asset_keys in
  let upstream_keys :=
    concat ((λ k, default [] (dict_get (asset_deps assets_def) k)) <$> selected) in
  {| node_def_name := node_def_name assets_def;
     keys := selected;
     keys_by_input_name :=
       filter (λ kv : string * AssetKey, kv.2 ∈ upstream_keys)
         (keys_by_input_name assets_def);
     keys_by_output_name :=
       filter (λ kv : string * AssetKey, kv.2 ∈ selected)
         (keys_by_output_name assets_def);
     group_names_by_key :=
       filter (λ kv : AssetKey * string, kv.1 ∈ selected)
         (group_names_by_key assets_def);
     asset_deps :=
       filter (λ kv : AssetKey * list AssetKey, kv.1 ∈ selected)
         (asset_deps assets_def);
     partitions_def := partitions_def assets_def;
     can_subset := can_subset assets_def;
     resource_defs := resource_defs assets_def;
     resource_requirements := resource_requirements assets_def |}.

(** The index of definitions by asset name. *)
Definition index_by_asset_name (assets_defs : list AssetsDefinition)
  : dict string AssetsDefinition :=
  foldl (λ acc assets_def,
           foldl (λ acc asset_key, dict_set acc (to_user_string asset_key) assets_def)
                 acc (keys assets_def))
        [] assets_defs.

(** [AssetKey.from_user_string(downstream_name) in cur_node_asset_keys].
    For a name no definition produces, [cur_node_asset_keys] is a set of
    strings, and an [AssetKey] is never equal to a string. *)
Definition in_current_node (assets_defs_by_asset_name : dict string AssetsDefinition)
  (name downstream_name : string) : bool :=
  match dict_get assets_defs_by_asset_name name with
  | Some assets_def =>
      bool_decide (from_user_string downstream_name ∈ keys assets_def)
  | None => false
  end.

(** The body of the loop over the downstream names; [rec] is the recursive
    call of [_dfs]. *)
Definition dfs_step
  (rec : string → Z → dict string Z → option (result (dict string Z)))
  (assets_defs_by_asset_name : dict string AssetsDefinition)
  (name : string) (cur_color : Z)
  (acc : option (result (dict string Z))) (downstream_name : string)
  : option (result (dict string Z)) :=
  match acc with
  | Some (Ok colors) =>
      let new_color :=
        if in_current_node assets_defs_by_asset_name name downstream_name
        then cur_color else (cur_color + 1)%Z in
      if decide (default (-1) (dict_get colors downstream_name) < new_color)%Z
      then rec downstream_name new_color colors
      else Some (Ok colors)
  | stopped => stopped
  end.

(** The recursive colouring; [None] when the recursion is deeper than
    [fuel]. *)
Fixpoint _dfs (fuel : nat) (downstream : dict string (list string))
  (assets_defs_by_asset_name : dict string AssetsDefinition)
  (name : string) (cur_color : Z) (colors : dict string Z)
  : option (result (dict string Z)) :=
  match fuel with
  | O => None
  | S fuel' =>
      let colors := dict_set colors name cur_color in
      match dict_getitem downstream name with
      | Raise e => Some (Raise e)
      | Ok downstream_names =>
          foldl (dfs_step (_dfs fuel' downstream assets_defs_by_asset_name)
                   assets_defs_by_asset_name name cur_color)
                (Some (Ok colors)) downstream_names
      end
  end.

(** The loop over [toposorted[0]]. *)
Definition color_from_roots (fuel : nat) (downstream : dict string (list string))
  (assets_defs_by_asset_name : dict string AssetsDefinition)
  (roots : list string) : option (result (dict string Z)) :=
  foldl (λ acc root_name,
           match acc with
           | Some (Ok colors) =>
               _dfs fuel downstream assets_defs_by_asset_name root_name 0%Z colors
           | stopped => stopped
           end)
        (Some (Ok [])) roots.

(** [color_mapping_by_assets_defs]: per definition, the keys of each colour
    (two nested [defaultdict]s).  A definition object is identified with
    its contents. *)
Definition build_color_mapping (assets_defs_by_asset_name : dict string AssetsDefinition)
  (colors : dict string Z) : dict AssetsDefinition (dict Z (list AssetKey)) :=
  foldl (λ acc '(name, color),
           match dict_get assets_defs_by_asset_name name with
           | None => acc
           | Some assets_def =>
               let color_mapping := default [] (dict_get acc assets_def) in
               let asset_keys := default [] (dict_get color_mapping color) in
               dict_set acc assets_def
                 (dict_set color_mapping color
                    (set_add asset_keys (from_user_string name)))
           end)
        [] colors.

Definition split_by_color (color_mapping_by_assets_defs
                             : dict AssetsDefinition (dict Z (list AssetKey)))
  : list AssetsDefinition :=
  concat ((λ '(assets_def, color_mapping),
             if decide (length color_mapping = 1 ∨ can_subset assets_def = false)
             then [assets_def]
             else subset_for assets_def <$> dict_values color_mapping)
            <$> color_mapping_by_assets_defs).

Definition _attempt_resolve_cycles (fuel : nat) (assets_defs : list AssetsDefinition)
  : option (result (list AssetsDefinition)) :=
  match generate_asset_dep_graph assets_defs with
  | Raise e => Some (Raise e)
  | Ok (upstream, downstream) =>
      let assets_defs_by_asset_name := index_by_asset_name assets_defs in
      match toposort upstream with
      | Raise e => Some (Raise e)
      | Ok [] => Some (Raise IndexError)
      | Ok (roots :: _) =>
          r ← color_from_roots fuel downstream assets_defs_by_asset_name roots;
          Some (colors ← r;
                Ok (split_by_color
                      (build_color_mapping assets_defs_by_asset_name colors)))
      end
  end.

(** *** Resources *)

Definition asset_conflict_msg (resource_key : string) : string :=
  "Conflicting versions of resource with key '" +:+ resource_key +:+ "' "
  +:+ "were provided to different assets. When constructing a "
  +:+ "job, all resource definitions provided to assets must "
  +:+ "match by reference equality for a given key.".

Definition job_conflict_msg (resource_key : string) : string :=
  "resource with key '" +:+ resource_key +:+ "' provided to job "
  +:+ "conflicts with resource provided to assets. When constructing a "
  +:+ "job, all resource definitions provided must "
  +:+ "match by reference equality for a given key.".

(** [asset.resource_defs] for [asset] in [[*assets, *source_assets]]. *)
Definition all_assets_resource_defs (assets : list AssetsDefinition)
  (source_assets : list SourceAsset) : list (dict string ResourceDefinition) :=
  (resource_defs <$> assets) ++ (source_resource_defs <$> source_assets).

(** The body of the first loop, for one item of [asset.resource_defs]. *)
Definition record_resource_def
  (resource_defs_from_assets : dict string ResourceDefinition)
  (item : string * ResourceDefinition) : result (dict string ResourceDefinition) :=
  let '(resource_key, resource_def) := item in
  let resource_defs_from_assets :=
    if dict_mem resource_defs_from_assets resource_key
    then resource_defs_from_assets
    else dict_set resource_defs_from_assets resource_key resource_def in
  cur ← dict_getitem resource_defs_from_assets resource_key;
  if decide (cur ≠ resource_def)
  then Raise (DagsterInvalidDefinitionError (asset_conflict_msg resource_key))
  else Ok resource_defs_from_assets.

(** The first loop: the table [resource_defs_from_assets]. *)
Definition collect_resource_defs_from_assets
  (all_assets : list (dict string ResourceDefinition))
  : result (dict string ResourceDefinition) :=
  foldM (λ resource_defs_from_assets asset_resource_defs,
           foldM record_resource_def resource_defs_from_assets asset_resource_defs)
        [] all_assets.

(** The body of the second loop, for one item of the job's [resource_defs]. *)
Definition check_job_resource_def
  (resource_defs_from_assets : dict string ResourceDefinition)
  (item : string * ResourceDefinition) : result unit :=
  let '(resource_key, resource_def) := item in
  if decide (resource_key ≠ "io_manager"
             ∧ is_Some (dict_get resource_defs_from_assets resource_key)
             ∧ dict_get resource_defs_from_assets resource_key ≠ Some resource_def)
  then Raise (DagsterInvalidDefinitionError (job_conflict_msg resource_key))
  else Ok tt.

Definition _ensure_resources_dont_conflict (assets : list AssetsDefinition)
  (source_assets : list SourceAsset)
  (job_resource_defs : dict string ResourceDefinition) : result unit :=
  resource_defs_from_assets ←
    collect_resource_defs_from_assets
      (all_assets_resource_defs assets source_assets);
  for_ job_resource_defs (check_job_resource_def resource_defs_from_assets).

(** Modelled from the spec: [ensure_requirements_satisfied] of
    [dagster.core.definitions.resource_requirement], which is not among the
    source files: a requirement that the given bindings do not satisfy fails
    with a definition error naming the missing key. *)
Definition ensure_requirements_satisfied
  (bindings : dict string ResourceDefinition) (requirements : list string)
  : result unit :=
  for_ requirements (λ resource_key,
    if dict_mem bindings resource_key then Ok tt
    else Raise (DagsterInvalidDefinitionError
                  ("resource with key '" +:+ resource_key
                   +:+ "' required was not provided."))).

Definition check_resources_satisfy_requirements (assets : list AssetsDefinition)
  (source_assets : list SourceAsset)
  (job_resource_defs : dict string ResourceDefinition) : result unit :=
  _ ← _ensure_resources_dont_conflict assets source_assets job_resource_defs;
  for_ (((λ a, (resource_defs a, resource_requirements a)) <$> assets)
        ++ ((λ s, (source_resource_defs s, source_resource_requirements s))
              <$> source_assets))
       (λ '(asset_resource_defs, requirements),
          ensure_requirements_satisfied
            (merge_dicts job_resource_defs asset_resource_defs) requirements).

Definition get_all_resource_defs (assets : list AssetsDefinition)
  (source_assets : list SourceAsset)
  (job_resource_defs : dict string ResourceDefinition)
  : result (dict string ResourceDefinition) :=
  _ ← check_resources_satisfy_requirements assets source_assets job_resource_defs;
  Ok (foldl merge_dicts (dict_update [] job_resource_defs)
        (all_assets_resource_defs assets source_assets)).

(** *** [build_assets_job] *)

Variable default_job_io_manager : ResourceDefinition.

(** What the job is built from: the arguments of [GraphDefinition] and of
    [to_job] that this module computes. *)
Record JobArguments : Type := {
  job_node_defs : list string;
  job_dependencies : dict node_key (dict string IDependencyDefinition);
  job_assets_defs_by_node_handle : dict NodeHandle AssetsDefinition;
  job_asset_keys_by_input_handle : dict NodeInputHandle AssetKey;
  job_resource_defs_arg : dict string ResourceDefinition;
  job_partitions_def : option PartitionsDefinition
}.

(** [merge_dicts({"io_manager": default_job_io_manager}, resource_defs)] *)
Definition with_default_io_manager (job_resource_defs : dict string ResourceDefinition)
  : dict string ResourceDefinition :=
  merge_dicts [("io_manager", default_job_io_manager)] job_resource_defs.

(** The source assets are taken as already conformed to [SourceAsset]s. *)
Definition build_assets_job (fuel : nat) (assets : list AssetsDefinition)
  (source_assets : list SourceAsset)
  (job_resource_defs : dict string ResourceDefinition)
  (partitions_def_arg : option PartitionsDefinition)
  : option (result JobArguments) :=
  match (match partitions_def_arg with
         | Some p => Ok (Some p)
         | None => build_job_partitions_from_assets assets
         end) with
  | Raise e => Some (Raise e)
  | Ok partitions =>
      let job_resource_defs := with_default_io_manager job_resource_defs in
      let finish (assets : list AssetsDefinition)
            (built : result (deps_dict * dict NodeHandle AssetsDefinition
                             * dict NodeInputHandle AssetKey)) : result JobArguments :=
        '(deps, assets_defs_by_node_handle, asset_keys_by_input_handle) ← built;
        all_resource_defs ← get_all_resource_defs assets source_assets job_resource_defs;
        Ok {| job_node_defs := node_def_name <$> assets;
              job_dependencies := deps;
              job_assets_defs_by_node_handle := assets_defs_by_node_handle;
              job_asset_keys_by_input_handle := asset_keys_by_input_handle;
              job_resource_defs_arg := all_resource_defs;
              job_partitions_def := partitions |} in
      match build_node_deps assets source_assets with
      | Raise e => Some (Raise e)
      | Ok (deps, by_handle, by_input) =>
          match _has_cycles deps with
          | Raise e => Some (Raise e)
          | Ok false => Some (finish assets (Ok (deps, by_handle, by_input)))
          | Ok true =>
              r ← _attempt_resolve_cycles fuel assets;
              Some (assets ← r;
                    finish assets (build_node_deps assets source_assets))
          end
      end
  end.

End Model.

(** ** [dagster.utils.external] *)

Module External.

(** The run record: the two fields the lookup reads. *)
Record PipelineRun : Type := {
  pipeline_name : string;
  solid_selection : option (list string)
}.

Record PipelineSelector : Type := {
  location_name : string;
  repository_name : string;
  selector_pipeline_name : string;               (* [pipeline_name] *)
  selector_solid_selection : option (list string) (* [solid_selection] *)
}.

Section lookup.
(** The collaborators are kept abstract: the data of an external pipeline,
    the handle of an external repository, and the location's remote call
    [get_subset_external_pipeline_result], which may raise. *)
Context {ExternalPipelineData RepositoryHandle : Type}.

Record ExternalRepository : Type := {
  repository_name_of : string;                   (* [name] *)
  handle : RepositoryHandle
}.

(** [ExternalPipeline(external_pipeline_data, repository_handle)] *)
Record ExternalPipeline : Type := {
  external_pipeline_data : ExternalPipelineData;
  repository_handle : RepositoryHandle
}.

(** Modelled from the spec: [check.invariant] of [dagster.check], which is
    not among the source files: a condition that does not hold is an
    invariant violation, raised with the description. *)
Definition check_invariant (condition : bool) (desc : string) : result unit :=
  if condition then Ok tt
  else Raise (CheckError ("Invariant failed. Description: " +:+ desc)).

(** The result of the remote call; only its pipeline data is read. *)
Record ExternalPipelineSubsetResult : Type := {
  subset_external_pipeline_data : ExternalPipelineData
}.

Record RepositoryLocation : Type := {
  name : string;
  get_repositories : dict string ExternalRepository;
  get_subset_external_pipeline_result
    : PipelineSelector → result ExternalPipelineSubsetResult
}.

(** [RepositoryLocation.from_handle] *)
Context {RepositoryLocationHandle : Type}.
Variable from_handle : RepositoryLocationHandle → result RepositoryLocation.

Definition external_pipeline_from_run_with_repository_location_handle
  (pipeline_run : PipelineRun) (repository_location_handle : RepositoryLocationHandle)
  : result ExternalPipeline :=
  repo_location ← from_handle repository_location_handle;
  let repo_dict := get_repositories repo_location in
  _ ← check_invariant (bool_decide (length repo_dict = 1))
        "Reconstructed repository location should have exactly one repository";
  external_repo ← next_iter (dict_values repo_dict);
  let pipeline_selector :=
    {| location_name := name repo_location;
       repository_name := repository_name_of external_repo;
       selector_pipeline_name := pipeline_name pipeline_run;
       selector_solid_selection := solid_selection pipeline_run |} in
  subset_pipeline_result ←
    get_subset_external_pipeline_result repo_location pipeline_selector;
  Ok {| external_pipeline_data := subset_external_pipeline_data subset_pipeline_result;
        repository_handle := handle external_repo |}.

End lookup.

End External.

(** * Vocabulary of the statements *)

(** *** Orderings *)

(** [v] stands somewhere before [u] in [order]. *)
Definition precedes {A : Type} (order : list A) (v u : A) : Prop :=
  ∃ l1 l2 l3, order = l1 ++ v :: l2 ++ u :: l3.

(** The position of the first [x] in [l] ([length l] when there is none). *)
Fixpoint index_of {A : Type} `{EqDecision A} (x : A) (l : list A) : nat :=
  match l with
  | [] => 0
  | y :: l' => if decide (x = y) then 0 else S (index_of x l')
  end.

(** Every dependency listed in [data] is itself an item of [data]. *)
Definition closed {A : Type} (data : dict A (list A)) : Prop :=
  ∀ u dep v, (u, dep) ∈ data → v ∈ dep → v ∈ data.*1.

(** A three-way comparison that is a total order. *)
Class CompareOrder {B : Type} (cmp : B → B → comparison) : Prop := {
  compare_antisym a b : cmp a b = CompOpp (cmp b a);
  compare_eq a b : cmp a b = Eq → a = b;
  compare_lt_trans a b c : cmp a b = Lt → cmp b c = Lt → cmp a c = Lt
}.

(** [x] may stand before [y] in a list sorted by [key]. *)
Definition key_le {A B : Type} (cmp : B → B → comparison) (key : A → B)
  (x y : A) : Prop :=
  cmp (key x) (key y) ≠ Gt.

(** *** The unit-level graph of a dependency dictionary *)

(** The unit a key of the dependency dictionary stands for. *)
Definition unit_name (nk : node_key) : string :=
  match nk with
  | NodeName name => name
  | NodeInvocation _ alias => alias
  end.

(** Unit [u] consumes an output of unit [v]. *)
Definition unit_depends_on (deps : dict node_key (dict string IDependencyDefinition))
  (u v : string) : Prop :=
  ∃ nk inner input_name output_name,
    (nk, inner) ∈ deps ∧ unit_name nk = u
    ∧ (input_name, DependencyDefinition v output_name) ∈ inner.

Definition is_unit (deps : dict node_key (dict string IDependencyDefinition))
  (u : string) : Prop :=
  (∃ nk inner, (nk, inner) ∈ deps ∧ unit_name nk = u)
  ∨ ∃ w, unit_depends_on deps w u.

(** A valid topological ordering: every unit once, each after all the
    units it depends on. *)
Definition topological_ordering (deps : dict node_key (dict string IDependencyDefinition))
  (order : list string) : Prop :=
  NoDup order
  ∧ (∀ u, is_unit deps u → u ∈ order)
  ∧ ∀ u v, unit_depends_on deps u v → precedes order v u.

(** The same, with the dependencies of a unit on itself disregarded. *)
Definition topological_ordering_up_to_self
  (deps : dict node_key (dict string IDependencyDefinition))
  (order : list string) : Prop :=
  NoDup order
  ∧ (∀ u, is_unit deps u → u ∈ order)
  ∧ ∀ u v, unit_depends_on deps u v → u ≠ v → precedes order v u.

(** A directed cycle through at least two units. *)
Definition has_proper_cycle (deps : dict node_key (dict string IDependencyDefinition))
  : Prop :=
  ∃ u, tc (λ u v, unit_depends_on deps u v ∧ u ≠ v) u u.

(** Every node is registered under its plain name. *)
Definition plain_names (deps : dict node_key (dict string IDependencyDefinition))
  : Prop :=
  ∀ nk inner, (nk, inner) ∈ deps → ∃ name, nk = NodeName name.

(** Every dependency is a [DependencyDefinition]. *)
Definition only_dependency_definitions
  (deps : dict node_key (dict string IDependencyDefinition)) : Prop :=
  ∀ nk inner input_name dep,
    (nk, inner) ∈ deps → (input_name, dep) ∈ inner →
    ∃ node output_name, dep = DependencyDefinition node output_name.

Section Vocabulary.
Context {PartitionsDefinition ResourceDefinition : Type}.
Context `{EqDecision PartitionsDefinition, EqDecision ResourceDefinition}.
Local Abbreviation AssetsDef := (@AssetsDefinition PartitionsDefinition ResourceDefinition).
Local Abbreviation Source := (@SourceAsset ResourceDefinition).

(** Every dictionary of the list has each key once, as a Python [dict] does. *)
Definition dicts_wf {K V : Type} (ds : list (dict K V)) : Prop :=
  Forall (λ d : dict K V, NoDup d.*1) ds.

(** Two different entries of [all_assets] bind [resource_key] to different
    resource objects. *)
Definition assets_conflict_on (all_assets : list (dict string ResourceDefinition))
  (resource_key : string) : Prop :=
  ∃ i j d1 d2 r1 r2,
    i ≠ j ∧ all_assets !! i = Some d1 ∧ all_assets !! j = Some d2 ∧
    (resource_key, r1) ∈ d1 ∧ (resource_key, r2) ∈ d2 ∧ r1 ≠ r2.

(** The job binds [resource_key] to another object than some entry of
    [all_assets] does. *)
Definition job_conflict_on (all_assets : list (dict string ResourceDefinition))
  (job_resource_defs : dict string ResourceDefinition) (resource_key : string)
  : Prop :=
  ∃ d r r',
    (resource_key, r) ∈ job_resource_defs ∧ d ∈ all_assets ∧
    (resource_key, r') ∈ d ∧ r ≠ r'.

(** *** Key resolution *)

(** The keys that the definitions produce or the source assets carry. *)
Definition produced_or_source_keys (assets_defs : list AssetsDef)
  (source_assets : list Source) : list AssetKey :=
  concat (keys <$> assets_defs) ++ (source_key <$> source_assets).

(** The distinct groups of a definition's outputs. *)
Definition output_groups (assets_def : AssetsDef) : list string :=
  remove_dups (dict_values (group_names_by_key assets_def)).

(** The inputs of a definition are a dictionary, it has an output key, and
    no input key has an empty path. *)
Definition assets_def_wf (assets_def : AssetsDef) : Prop :=
  NoDup (keys_by_input_name assets_def).*1
  ∧ keys assets_def ≠ []
  ∧ ∀ input_name key,
      (input_name, key) ∈ keys_by_input_name assets_def → key ≠ [].

(** [upstream_asset_key] resolves to [k]: by exact match, or else through
    the lookup table under the group of a definition whose group table has
    a single entry. *)
Definition resolves_to (all_keys : list AssetKey)
  (asset_keys_by_group_and_name : dict (string * string) AssetKey)
  (assets_def : AssetsDef) (upstream_asset_key k : AssetKey) : Prop :=
  (upstream_asset_key ∈ all_keys ∧ k = upstream_asset_key)
  ∨ ((upstream_asset_key ∉ all_keys)
     ∧ ∃ key0 group name,
         group_names_by_key assets_def = [(key0, group)]
         ∧ last upstream_asset_key = Some name
         ∧ dict_get asset_keys_by_group_and_name (group, name) = Some k).

(** Neither way of resolving [upstream_asset_key] applies. *)
Definition unresolvable (all_keys : list AssetKey)
  (asset_keys_by_group_and_name : dict (string * string) AssetKey)
  (assets_def : AssetsDef) (upstream_asset_key : AssetKey) : Prop :=
  (upstream_asset_key ∉ all_keys)
  ∧ ∀ key0 group name,
      group_names_by_key assets_def = [(key0, group)] →
      last upstream_asset_key = Some name →
      dict_get asset_keys_by_group_and_name (group, name) = None.

(** The resolved inputs [dep_keys] of a definition: the input names in
    their order, each with a key its declared key resolves to. *)
Definition resolved_inputs (all_keys : list AssetKey)
  (asset_keys_by_group_and_name : dict (string * string) AssetKey)
  (assets_def : AssetsDef) (dep_keys : dict string AssetKey) : Prop :=
  Forall2 (λ (declared resolved : string * AssetKey),
             declared.1 = resolved.1
             ∧ resolves_to all_keys asset_keys_by_group_and_name assets_def
                 declared.2 resolved.2)
          (keys_by_input_name assets_def) dep_keys.

(** *** The assembled graph *)

(** Every definition has an output key, and no key has two producers. *)
Definition unique_producers (assets_defs : list AssetsDef) : Prop :=
  (∀ ad, ad ∈ assets_defs → keys ad ≠ [])
  ∧ NoDup (concat (keys <$> assets_defs)).


(** The edge an input receives: the producing node and output of the key
    it resolved to, when a node of the graph produces that key. *)
Definition expected_edge
  (node_alias_and_output_by_asset_key : dict AssetKey (string * string))
  (dep_keys : dict string AssetKey) (input_name : string)
  : option IDependencyDefinition :=
  match dict_get dep_keys input_name with
  | None => None
  | Some upstream_asset_key =>
      match dict_get node_alias_and_output_by_asset_key upstream_asset_key with
      | Some (upstream_node_alias, upstream_output_name) =>
          Some (DependencyDefinition upstream_node_alias upstream_output_name)
      | None => None
      end
  end.

End Vocabulary.
(** * Vocabulary of the naming loop and of the iteration order *)

Section GraphVocabulary.
Context {PartitionsDefinition ResourceDefinition : Type}.
Local Abbreviation AssetsDef := (@AssetsDefinition PartitionsDefinition ResourceDefinition).

(** The identifiers the suffix scheme gives the definitions of a list, one
    after the other, starting from the counters [collisions]. *)
Fixpoint aliases_from (collisions : dict string nat) (assets_defs : list AssetsDef)
  : list string :=
  match assets_defs with
  | [] => []
  | assets_def :: rest =>
      let '(collisions, node_alias) :=
        assign_node_alias collisions (node_def_name assets_def) in
      node_alias :: aliases_from collisions rest
  end.

Definition node_aliases (assets_defs : list AssetsDef) : list string :=
  aliases_from [] assets_defs.

(** *** The order in which a key set is iterated *)

(** [assets_def] with its key set iterated in the order [key_order]. *)
Definition with_key_order (key_order : list AssetKey) (assets_def : AssetsDef)
  : AssetsDef :=
  {| node_def_name := node_def_name assets_def;
     keys := key_order;
     keys_by_input_name := keys_by_input_name assets_def;
     keys_by_output_name := keys_by_output_name assets_def;
     group_names_by_key := group_names_by_key assets_def;
     asset_deps := asset_deps assets_def;
     partitions_def := partitions_def assets_def;
     can_subset := can_subset assets_def;
     resource_defs := resource_defs assets_def;
     resource_requirements := resource_requirements assets_def |}.

(** The same definition, its key set iterated in any order. *)
Definition same_up_to_key_order (assets_def assets_def' : AssetsDef) : Prop :=
  ∃ key_order,
    keys assets_def ≡ₚ key_order
    ∧ assets_def' = with_key_order key_order assets_def.

(** The same set of definitions: supplied in any order, the key set of
    each iterated in any order. *)
Definition same_definitions (assets_defs assets_defs' : list AssetsDef) : Prop :=
  ∃ supplied,
    assets_defs ≡ₚ supplied
    ∧ Forall2 same_up_to_key_order supplied assets_defs'.

(** The same units: the same identifiers in the same order, each for the
    same definition. *)
Definition same_units (handles handles' : dict NodeHandle AssetsDef) : Prop :=
  Forall2 (λ unit unit' : NodeHandle * AssetsDef,
             unit.1 = unit'.1 ∧ same_up_to_key_order unit.2 unit'.2)
          handles handles'.

(** The place of an output key in the lookup table: its group and the
    final segment of its path. *)
Definition lookup_place (assets_def : AssetsDef) (key : AssetKey)
  : option string * option string :=
  (dict_get (group_names_by_key assets_def) key, last key).

(** No two output keys of the definition have the same place in the
    lookup table. *)
Definition distinct_lookup_places (assets_def : AssetsDef) : Prop :=
  NoDup (lookup_place assets_def <$> keys assets_def).

End GraphVocabulary.

(** Dictionaries that answer every lookup alike. *)
Definition dict_equiv {K V : Type} `{EqDecision K} (d d' : dict K V) : Prop :=
  ∀ k, dict_get d k = dict_get d' k.

(** * Example inputs *)

Module Examples.

Section Cross.
Context {PartitionsDefinition ResourceDefinition : Type}.

(** A definition in the group "default" without partitions or resources,
    each output named by the user string of its key. *)
Definition multi_asset (node_name : string) (outputs : list AssetKey)
  (inputs : dict string AssetKey) (deps : dict AssetKey (list AssetKey))
  : @AssetsDefinition PartitionsDefinition ResourceDefinition :=
  {| node_def_name := node_name;
     keys := outputs;
     keys_by_input_name := inputs;
     keys_by_output_name := (λ k, (to_user_string k, k)) <$> outputs;
     group_names_by_key := (λ k, (k, "default")) <$> outputs;
     asset_deps := deps;
     partitions_def := None;
     can_subset := true;
     resource_defs := [];
     resource_requirements := [] |}.

Definition a1 : AssetKey := ["a1"].
Definition a2 : AssetKey := ["a2"].
Definition b1 : AssetKey := ["b1"].
Definition b2 : AssetKey := ["b2"].

(** The cross cycle: [A] produces [a1] and [a2], [B] produces [b1] and
    [b2], [b1] is computed from [a1] and [a2] from [b2]. *)
Definition cross_A : @AssetsDefinition PartitionsDefinition ResourceDefinition :=
  multi_asset "A" [a1; a2] [("b2", b2)] [(a1, []); (a2, [b2])].
Definition cross_B : @AssetsDefinition PartitionsDefinition ResourceDefinition :=
  multi_asset "B" [b1; b2] [("a1", a1)] [(b1, [a1]); (b2, [])].

End Cross.

(** In the examples a partitions definition is its name and a resource
    definition is the number of the object. *)
Definition Asset : Type := @AssetsDefinition string nat.
Definition Source : Type := @SourceAsset nat.

(** In the examples the user string of a key stands for what
    [AssetKey.to_string] prints. *)
Definition to_string : AssetKey → string := to_user_string.

(** A definition with a single output. *)
Definition asset (node_name : string) (key : AssetKey)
  (inputs : dict string AssetKey) : Asset :=
  multi_asset node_name [key] inputs [(key, inputs.*2)].

Definition with_partitions (p : string) (ad : Asset) : Asset :=
  {| node_def_name := node_def_name ad;
     keys := keys ad;
     keys_by_input_name := keys_by_input_name ad;
     keys_by_output_name := keys_by_output_name ad;
     group_names_by_key := group_names_by_key ad;
     asset_deps := asset_deps ad;
     partitions_def := Some p;
     can_subset := can_subset ad;
     resource_defs := resource_defs ad;
     resource_requirements := resource_requirements ad |}.

Definition with_resources (rs : dict string nat) (ad : Asset) : Asset :=
  {| node_def_name := node_def_name ad;
     keys := keys ad;
     keys_by_input_name := keys_by_input_name ad;
     keys_by_output_name := keys_by_output_name ad;
     group_names_by_key := group_names_by_key ad;
     asset_deps := asset_deps ad;
     partitions_def := partitions_def ad;
     can_subset := can_subset ad;
     resource_defs := rs;
     resource_requirements := resource_requirements ad |}.

(** A warehouse table, a report computed from it under its short name,
    and a pair of outputs computed from it under its short name. *)
Definition orders : Asset := asset "orders" ["warehouse"; "orders"] [].
Definition report : Asset := asset "report" ["report"] [("orders", ["orders"])].
Definition pair : Asset :=
  multi_asset "pair" [["left"]; ["right"]] [("orders", ["orders"])]
    [(["left"], [["orders"]]); (["right"], [["orders"]])].
Definition orphan : Asset := asset "orphan" ["orphan"] [("nowhere", ["nowhere"])].

(** A source asset and a consumer of it and of [orders]. *)
Definition raw : Source :=
  {| source_key := ["raw"]; source_group_name := "default";
     source_resource_defs := []; source_resource_requirements := [] |}.
Definition summary : Asset :=
  asset "summary" ["summary"]
    [("raw", ["raw"]); ("orders", ["warehouse"; "orders"])].

(** Three definitions, two of them on the same op [a], the third on an op
    named [a_2]. *)
Definition first_a : Asset := asset "a" ["x"] [].
Definition second_a : Asset := asset "a" ["y"] [].
Definition named_a_2 : Asset := asset "a_2" ["z"] [].

(** A consumer of the key [y], which [second_a] produces. *)
Definition consumer_y : Asset := asset "c" ["c"] [("y", ["y"])].

(** A node that depends on itself, and a chain of two nodes. *)
Definition self_loop : dict node_key (dict string IDependencyDefinition) :=
  [(NodeName "a", [("x", DependencyDefinition "a" "result")])].
Definition chain : dict node_key (dict string IDependencyDefinition) :=
  [(NodeName "x", []); (NodeName "y", [("p", DependencyDefinition "x" "result")])].
Definition two_cycle : dict node_key (dict string IDependencyDefinition) :=
  [(NodeName "x", [("q", DependencyDefinition "y" "result")]);
   (NodeName "y", [("p", DependencyDefinition "x" "result")])].

(** Two nodes on the same op [a], the second under the alias [a_2], each
    consuming the output of the other. *)
Definition aliased_cycle : dict node_key (dict string IDependencyDefinition) :=
  [(NodeName "a", [("q", DependencyDefinition "a_2" "result")]);
   (NodeInvocation "a" "a_2", [("p", DependencyDefinition "a" "result")])].

(** Two keys with the same final segment in the same group, and a consumer
    of the first one. *)
Definition left_x : Asset := asset "left_x" ["a"; "x"] [].
Definition right_x : Asset := asset "right_x" ["b"; "x"] [].
Definition consumer : Asset := asset "consumer" ["c"] [("x", ["a"; "x"])].

(** A definition with two outputs that share group and final segment, and
    a consumer that names them by that segment. *)
Definition both_x : Asset :=
  multi_asset "both_x" [["a"; "x"]; ["b"; "x"]] []
    [(["a"; "x"], []); (["b"; "x"], [])].
Definition consumer_x : Asset := asset "consumer_x" ["c"] [("x", ["x"])].

(** A remote location with one repository, and one with none. *)
Definition one_repository : @External.RepositoryLocation string nat :=
  {| External.name := "location";
     External.get_repositories :=
       [("repo", {| External.repository_name_of := "repo"; External.handle := 7 |})];
     External.get_subset_external_pipeline_result := λ selector,
       Ok {| External.subset_external_pipeline_data :=
               External.selector_pipeline_name selector |} |}.
Definition no_repository : @External.RepositoryLocation string nat :=
  {| External.name := "location";
     External.get_repositories := [];
     External.get_subset_external_pipeline_result := λ selector,
       Ok {| External.subset_external_pipeline_data :=
               External.selector_pipeline_name selector |} |}.
Definition a_run : External.PipelineRun :=
  {| External.pipeline_name := "nightly";
     External.solid_selection := Some ["load"; "clean"] |}.

End Examples.
(** *** The colouring of the cycle resolver *)

(** [colors.get(name, -1)] *)
Definition color_of (colors : dict string Z) (name : string) : Z :=
  default (-1)%Z (dict_get colors name).

Section ColouringVocabulary.
Context {PartitionsDefinition ResourceDefinition : Type}.
Local Abbreviation AssetsDef := (@AssetsDefinition PartitionsDefinition ResourceDefinition).

(** What the colour grows by along an edge: nothing when the downstream
    name is a key of the definition of [name], one otherwise. *)
Definition color_step (assets_defs_by_asset_name : dict string AssetsDef)
  (name downstream_name : string) : Z :=
  if in_current_node assets_defs_by_asset_name name downstream_name
  then 0%Z else 1%Z.

(** The edge from [name] to [downstream_name] is consistent: when [name]
    has a colour, [downstream_name] has at least that colour, and a
    greater one when the edge leaves the definition. *)
Definition edge_colored (assets_defs_by_asset_name : dict string AssetsDef)
  (colors : dict string Z) (name downstream_name : string) : Prop :=
  ∀ c, dict_get colors name = Some c →
       (c + color_step assets_defs_by_asset_name name downstream_name
        ≤ color_of colors downstream_name)%Z.

(** Every edge out of [name] is consistent. *)
Definition edges_colored (downstream : dict string (list string))
  (assets_defs_by_asset_name : dict string AssetsDef)
  (colors : dict string Z) (name : string) : Prop :=
  ∀ names downstream_name,
    dict_get downstream name = Some names → downstream_name ∈ names →
    edge_colored assets_defs_by_asset_name colors name downstream_name.

(** What a call [_dfs(name, cur_color)] that turns [colors] into
    [colors'] guarantees. *)
Definition recoloured (downstream : dict string (list string))
  (assets_defs_by_asset_name : dict string AssetsDef)
  (name : string) (cur_color : Z) (colors colors' : dict string Z) : Prop :=
  (∀ n, (color_of colors n ≤ color_of colors' n)%Z)
  ∧ (cur_color ≤ color_of colors' name)%Z
  ∧ (∀ n, edges_colored downstream assets_defs_by_asset_name colors n
          ∨ dict_get colors' n ≠ dict_get colors n ∨ n = name →
          edges_colored downstream assets_defs_by_asset_name colors' n).

End ColouringVocabulary.

(** [v] is an upstream name of another name [u] in the artifact-level
    graph. *)
Definition upstream_of (upstream : dict string (list string)) (u v : string)
  : Prop :=
  ∃ dep, (u, dep) ∈ upstream ∧ v ∈ dep ∧ v ≠ u.
(** * Further example inputs *)

Module Cases.
Import Examples.

(** A definition whose key ends in the segment of the source asset [raw],
    in the same group. *)
Definition staged_raw : Asset := asset "staged_raw" ["staging"; "raw"] [].

(** A second source asset with the group and final segment of [raw]. *)
Definition landing_raw : Source :=
  {| source_key := ["landing"; "raw"]; source_group_name := "default";
     source_resource_defs := []; source_resource_requirements := [] |}.

(** Two definitions whose assets depend on each other. *)
Definition ping : Asset := asset "ping" ["ping"] [("pong", ["pong"])].
Definition pong : Asset := asset "pong" ["pong"] [("ping", ["ping"])].

(** The graph assembled from [orders] and [summary] with the source asset
    [raw]. *)
Definition summary_deps : dict node_key (dict string IDependencyDefinition) :=
  [(NodeName "summary",
    [("orders", DependencyDefinition "orders" "warehouse/orders")]);
   (NodeName "orders", [])].
Definition summary_handles : dict NodeHandle Asset :=
  [("summary", summary); ("orders", orders)].
Definition summary_inputs : dict NodeInputHandle AssetKey :=
  [(("summary", "raw"), ["raw"]);
   (("summary", "orders"), ["warehouse"; "orders"])].

(** The downstream table and the index of the cross cycle, and a rank
    that its downstream edges decrease. *)
Definition cross_downstream : dict string (list string) :=
  [("a1", ["b1"]); ("a2", []); ("b2", ["a2"]); ("b1", [])].
Definition cross_by_name : dict string Asset :=
  index_by_asset_name [cross_A; cross_B].
Definition cross_rank (name : string) : nat :=
  if decide (name = "a1") then 1
  else if decide (name = "b2") then 1 else 0.

(** A dictionary with a dependency that is no [DependencyDefinition]. *)
Definition fan_in : dict node_key (dict string IDependencyDefinition) :=
  [(NodeName "x", []);
   (NodeName "y", [("p", MultiDependencyDefinition [("x", "result")])])].

End Cases.

(** * Properties *)

(** ** Loops *)

Lemma bind_Ok {A B : Type} (m : result A) (f : A → result B) (b : B) :
  m ≫= f = Ok b ↔ ∃ a, m = Ok a ∧ f a = Ok b.
Proof.
  destruct m as [a|e]; simpl; split.
  - eauto.
  - by intros (a' & [= ->] & ?).
  - done.
  - by intros (? & ? & ?).
Qed.

Lemma bind_Raise {A B : Type} (m : result A) (f : A → result B) (e : exception) :
  m ≫= f = Raise e ↔ m = Raise e ∨ ∃ a, m = Ok a ∧ f a = Raise e.
Proof.
  destruct m as [a|e']; simpl; split.
  - eauto.
  - by intros [?|(a' & [= ->] & ?)].
  - intros [= ->]. by left.
  - by intros [[= ->]|(? & ? & ?)].
Qed.

Lemma for__cons {A : Type} (f : A → result unit) (x : A) (l : list A) :
  for_ (x :: l) f = (f x ≫= λ _, for_ l f).
Proof. unfold for_; simpl. by destruct (f x) as [[]|]. Qed.

Lemma for__Ok {A : Type} (f : A → result unit) (l : list A) :
  for_ l f = Ok tt ↔ ∀ x, x ∈ l → f x = Ok tt.
Proof.
  induction l as [|x l IH].
  - split; [by intros _ ? ?%elem_of_nil|done].
  - rewrite for__cons, bind_Ok. split.
    + intros ([] & Hx & Hl) y [->|Hy]%elem_of_cons; [done|].
      by apply IH.
    + intros Hall. exists tt. split.
      * apply Hall. by left.
      * apply IH. intros y Hy. apply Hall. by right.
Qed.

(** A loop raises what its first failing round raises. *)
Lemma for__Raise {A : Type} (f : A → result unit) (l : list A) (e : exception) :
  for_ l f = Raise e ↔
  ∃ l1 x l2, l = l1 ++ x :: l2 ∧ (∀ y, y ∈ l1 → f y = Ok tt) ∧ f x = Raise e.
Proof.
  induction l as [|x l IH].
  - split; [done|]. by intros ([|??] & ? & ? & ? & _).
  - rewrite for__cons, bind_Raise. split.
    + intros [Hx|([] & Hx & Hl)].
      * exists [], x, l. split_and!; [done| |done].
        by intros ? ?%elem_of_nil.
      * apply IH in Hl as (l1 & y & l2 & -> & Hl1 & Hy).
        exists (x :: l1), y, l2. split_and!; [done| |done].
        by intros z [->|?]%elem_of_cons; [|apply Hl1].
    + intros ([|z l1] & y & l2 & Heq & Hl1 & Hy); simplify_eq/=.
      * by left.
      * right. exists tt. split.
        -- apply Hl1. by left.
        -- apply IH. exists l1, y, l2. split_and!; [done| |done].
           intros w Hw. apply Hl1. by right.
Qed.

Lemma for__total {A : Type} (f : A → result unit) (l : list A) :
  for_ l f = Ok tt ∨ ∃ e, for_ l f = Raise e.
Proof. destruct (for_ l f) as [[]|e]; eauto. Qed.

Lemma elem_of_concat {A : Type} (x : A) (ls : list (list A)) :
  x ∈ concat ls ↔ ∃ l, x ∈ l ∧ l ∈ ls.
Proof.
  induction ls as [|l ls IH]; simpl.
  - rewrite elem_of_nil. split; [done|]. by intros (? & _ & ?%elem_of_nil).
  - rewrite elem_of_app, IH. split.
    + intros [?|(l' & ? & ?)]; [exists l|exists l']; split; try done.
      * by left.
      * by right.
    + intros (l' & Hx & [->|?]%elem_of_cons); eauto.
Qed.

Section Partitions.
Context {PartitionsDefinition ResourceDefinition : Type}.
Context `{EqDecision PartitionsDefinition, EqDecision ResourceDefinition}.
Variable to_string : AssetKey → string.
Implicit Types (assets : list (@AssetsDefinition PartitionsDefinition ResourceDefinition)).

(** C5. The partition policy unifier returns no partitioning when no
    definition declares a policy, the common policy when every declared
    policy is the same one (definitions without a policy are skipped), and
    when two declared policies differ it raises the definition error whose
    message names the first output key of a definition that disagrees with
    the first partitioned one, and the first output key of that one. *)
Theorem build_job_partitions_from_assets_unifies assets :
  (∀ ad, ad ∈ assets → keys ad ≠ []) →
  ((∀ ad, ad ∈ assets → partitions_def ad = None) →
   build_job_partitions_from_assets to_string assets = Ok None)
  ∧ (∀ p, (∃ ad, ad ∈ assets ∧ partitions_def ad = Some p) →
          (∀ ad, ad ∈ assets →
                 partitions_def ad = None ∨ partitions_def ad = Some p) →
          build_job_partitions_from_assets to_string assets = Ok (Some p))
  ∧ ((∃ ad1 ad2 p1 p2, ad1 ∈ assets ∧ ad2 ∈ assets ∧
        partitions_def ad1 = Some p1 ∧ partitions_def ad2 = Some p2 ∧ p1 ≠ p2) →
     ∃ ad1 ad2 p1 p2 k1 k2,
       ad1 ∈ assets ∧ ad2 ∈ assets ∧
       partitions_def ad1 = Some p1 ∧ partitions_def ad2 = Some p2 ∧ p1 ≠ p2 ∧
       head (keys ad1) = Some k1 ∧ head (keys ad2) = Some k2 ∧
       build_job_partitions_from_assets to_string assets
       = Raise (DagsterInvalidDefinitionError
                  (partitions_conflict_msg (to_string k1) (to_string k2)))).
Proof.
  intros Hkeys. unfold build_job_partitions_from_assets.
  generalize (list_elem_of_filter (λ ad, is_Some (partitions_def ad)) assets).
  destruct (filter _ assets) as [|first rest]; intros Hpart.
  { split_and!.
    - done.
    - intros p (ad0 & Hin0 & Hp0) _.
      assert (ad0 ∈ []) as Hin by (apply Hpart; eauto).
      by apply elem_of_nil in Hin.
    - intros (ad1 & ad2 & p1 & p2 & Hin1 & _ & Hp1 & _).
      assert (ad1 ∈ []) as Hin by (apply Hpart; eauto).
      by apply elem_of_nil in Hin. }
  assert (Hfirst : first ∈ first :: rest) by (by left).
  apply Hpart in Hfirst as [[p0 Hp0] Hfin].
  set (body := λ assets_def,
            if decide (partitions_def assets_def ≠ partitions_def first)
            then k1 ← next_iter (keys assets_def);
                 k2 ← next_iter (keys first);
                 Raise (DagsterInvalidDefinitionError
                          (partitions_conflict_msg (to_string k1) (to_string k2)))
            else Ok tt).
  split_and!.
  - intros Hnone. rewrite Hnone in Hp0; done.
  - intros p _ Hall.
    assert (Hsame : ∀ ad, ad ∈ first :: rest → partitions_def ad = Some p).
    { intros ad Hin. apply Hpart in Hin as [[q Hq] Hin].
      destruct (Hall ad Hin) as [Hn|Hs]; [congruence|done]. }
    assert (Hloop : for_ (first :: rest) body = Ok tt).
    { apply for__Ok. intros ad Hin. unfold body. rewrite (Hsame ad Hin).
      rewrite (Hsame first) by (by left). rewrite decide_False; [done|]. by intros Hc; apply Hc. }
    rewrite Hloop. simpl. f_equal. apply Hsame. by left.
  - intros (ad1 & ad2 & p1 & p2 & Hin1 & Hin2 & Hp1 & Hp2 & Hne).
    destruct (for__total body (first :: rest)) as [Hok|[e He]].
    { exfalso. rewrite for__Ok in Hok.
      assert (ad1 ∈ first :: rest) as H1 by (apply Hpart; eauto).
      assert (ad2 ∈ first :: rest) as H2 by (apply Hpart; eauto).
      apply Hok in H1, H2. unfold body in H1, H2.
      destruct (decide (partitions_def ad1 ≠ partitions_def first)) as [|E1].
      { destruct (next_iter (keys ad1)), (next_iter (keys first)); done. }
      destruct (decide (partitions_def ad2 ≠ partitions_def first)) as [|E2].
      { destruct (next_iter (keys ad2)), (next_iter (keys first)); done. }
      apply dec_stable in E1, E2. congruence. }
    rewrite He. simpl.
    apply for__Raise in He as (l1 & x & l2 & Hsplit & _ & Hx).
    assert (Hxin : x ∈ first :: rest) by (rewrite Hsplit; apply elem_of_app; right; by left).
    apply Hpart in Hxin as [[px Hpx] Hxin].
    unfold body in Hx.
    destruct (decide (partitions_def x ≠ partitions_def first)) as [Hd|]; [|done].
    destruct (keys x) as [|k1 r1] eqn:Hk1; [by destruct (Hkeys x Hxin)|].
    destruct (keys first) as [|k2 r2] eqn:Hk2; [by destruct (Hkeys first Hfin)|].
    simpl in Hx. injection Hx as <-.
    exists x, first, px, p0, k1, k2.
    split_and!; try done.
    + intros ->. apply Hd. congruence.
    + by rewrite Hk1.
    + by rewrite Hk2.
Qed.

End Partitions.

(** ** Dictionaries *)

Section dict_facts.
Context {K V : Type} `{EqDecision K}.
Implicit Types (d : dict K V) (k : K) (v : V).

Lemma dict_get_set d k v k' :
  dict_get (dict_set d k v) k' = if decide (k' = k) then Some v else dict_get d k'.
Proof.
  induction d as [|[k0 v0] d IH]; simpl.
  - by destruct (decide (k' = k)).
  - destruct (decide (k = k0)) as [->|Hne]; simpl.
    + by destruct (decide (k' = k0)).
    + destruct (decide (k' = k0)) as [->|]; [|done].
      by rewrite decide_False by congruence.
Qed.

Lemma dict_get_set_eq d k v : dict_get (dict_set d k v) k = Some v.
Proof. by rewrite dict_get_set, decide_True. Qed.

Lemma dict_get_set_ne d k v k' :
  k' ≠ k → dict_get (dict_set d k v) k' = dict_get d k'.
Proof. intros. by rewrite dict_get_set, decide_False. Qed.

Lemma dict_get_None d k : dict_get d k = None ↔ k ∉ d.*1.
Proof.
  induction d as [|[k0 v0] d IH]; simpl.
  - split; [intros _; apply not_elem_of_nil|done].
  - rewrite not_elem_of_cons. destruct (decide (k = k0)); naive_solver.
Qed.

Lemma dict_get_is_Some d k : is_Some (dict_get d k) ↔ k ∈ d.*1.
Proof.
  rewrite <- not_eq_None_Some, dict_get_None.
  split; [apply dec_stable|by intros ? ?].
Qed.

Lemma dict_get_Some_elem d k v : dict_get d k = Some v → (k, v) ∈ d.
Proof.
  induction d as [|[k0 v0] d IH]; simpl; [done|].
  destruct (decide (k = k0)) as [->|].
  - intros [= ->]. by left.
  - intros. right. by apply IH.
Qed.

Lemma dict_elem_get d k v : NoDup d.*1 → (k, v) ∈ d → dict_get d k = Some v.
Proof.
  induction d as [|[k0 v0] d IH]; simpl.
  - by intros _ ?%elem_of_nil.
  - intros [Hk0 Hnd]%NoDup_cons [[= -> ->]|Hin]%elem_of_cons.
    + by rewrite decide_True.
    + rewrite decide_False; [by apply IH|].
      intros ->. apply Hk0. apply list_elem_of_fmap. by exists (k0, v).
Qed.

(** Writing a new key appends it; writing a present key keeps the keys. *)
Lemma dict_set_fresh d k v : k ∉ d.*1 → dict_set d k v = d ++ [(k, v)].
Proof.
  induction d as [|[k0 v0] d IH]; simpl; [done|].
  intros [Hne Hk]%not_elem_of_cons.
  rewrite decide_False by done. by rewrite IH.
Qed.

Lemma dict_set_keys d k v :
  (dict_set d k v).*1 = if decide (k ∈ d.*1) then d.*1 else d.*1 ++ [k].
Proof.
  induction d as [|[k0 v0] d IH].
  - destruct (decide (k ∈ ([] : dict K V).*1)) as [[]%elem_of_nil|]; done.
  - cbn [dict_set]. destruct (decide (k = k0)) as [->|Hne].
    + rewrite decide_True; [done|by left].
    + rewrite fmap_cons, IH. cbn [fst]. destruct (decide (k ∈ d.*1)).
      * rewrite decide_True; [done|by right].
      * rewrite decide_False; [done|]. rewrite fmap_cons, not_elem_of_cons. done.
Qed.

Lemma dict_set_NoDup d k v : NoDup d.*1 → NoDup (dict_set d k v).*1.
Proof.
  intros Hnd. rewrite dict_set_keys. destruct (decide (k ∈ d.*1)); [done|].
  apply NoDup_app. split_and!; [done| |apply NoDup_singleton].
  intros x Hx ->%list_elem_of_singleton. done.
Qed.

Lemma dict_set_elem_keys d k v k' :
  k' ∈ (dict_set d k v).*1 ↔ k' = k ∨ k' ∈ d.*1.
Proof.
  rewrite dict_set_keys. destruct (decide (k ∈ d.*1)).
  - naive_solver.
  - rewrite elem_of_app, list_elem_of_singleton. naive_solver.
Qed.

Lemma dict_update_cons d k v d2 :
  dict_update d ((k, v) :: d2) = dict_update (dict_set d k v) d2.
Proof. done. Qed.

Lemma dict_update_NoDup d d2 : NoDup d.*1 → NoDup (dict_update d d2).*1.
Proof.
  revert d. induction d2 as [|[k v] d2 IH]; intros d Hnd; [done|].
  rewrite dict_update_cons. by apply IH, dict_set_NoDup.
Qed.

(** After [d.update(d2)] a key of [d2] reads as in [d2], any other key as
    in [d]. *)
Lemma dict_get_update d d2 k :
  NoDup d2.*1 →
  dict_get (dict_update d d2) k
  = match dict_get d2 k with Some v => Some v | None => dict_get d k end.
Proof.
  revert d. induction d2 as [|[k0 v0] d2 IH]; intros d Hnd; [done|].
  apply NoDup_cons in Hnd as [Hk0 Hnd].
  rewrite dict_update_cons, IH by done. simpl.
  destruct (decide (k = k0)) as [->|Hne].
  - assert (dict_get d2 k0 = None) as -> by (by apply dict_get_None).
    apply dict_get_set_eq.
  - destruct (dict_get d2 k); [done|]. by apply dict_get_set_ne.
Qed.

Lemma dict_update_fresh d d2 :
  NoDup d2.*1 → (∀ k, k ∈ d2.*1 → k ∉ d.*1) → dict_update d d2 = d ++ d2.
Proof.
  revert d. induction d2 as [|[k v] d2 IH]; intros d Hnd Hfresh.
  - by rewrite app_nil_r.
  - apply NoDup_cons in Hnd as [Hk Hnd].
    rewrite dict_update_cons, dict_set_fresh by (apply Hfresh; by left).
    rewrite IH; [by rewrite <- app_assoc|done|].
    intros k' Hk'. rewrite fmap_app, elem_of_app. simpl.
    rewrite list_elem_of_singleton. intros [? | ->]; [|done]. eapply Hfresh; [by right|done].
Qed.

Lemma merge_dicts_NoDup (d1 d2 : dict K V) : NoDup (merge_dicts d1 d2).*1.
Proof. apply dict_update_NoDup, dict_update_NoDup. constructor. Qed.

Lemma dict_get_merge_dicts (d1 d2 : dict K V) k :
  NoDup d1.*1 → NoDup d2.*1 →
  dict_get (merge_dicts d1 d2) k
  = match dict_get d2 k with Some v => Some v | None => dict_get d1 k end.
Proof.
  intros H1 H2. unfold merge_dicts. rewrite !dict_get_update by done.
  by destruct (dict_get d2 k), (dict_get d1 k).
Qed.

End dict_facts.

Lemma foldM_app {A S : Type} (f : S → A → result S) (s : S) (l1 l2 : list A) :
  foldM f s (l1 ++ l2) = (foldM f s l1 ≫= λ s', foldM f s' l2).
Proof.
  revert s. induction l1 as [|x l1 IH]; intros s; simpl; [done|].
  destruct (f s x); simpl; [apply IH|done].
Qed.

(** Two nested loops are one loop over the flattened items. *)
Lemma foldM_concat {A S : Type} (f : S → A → result S) (s : S) (ls : list (list A)) :
  foldM (λ s l, foldM f s l) s ls = foldM f s (concat ls).
Proof.
  revert s. induction ls as [|l ls IH]; intros s; simpl; [done|].
  rewrite foldM_app. destruct (foldM f s l); simpl; [apply IH|done].
Qed.

(** ** Resources *)

Section Resources.
Context {PartitionsDefinition ResourceDefinition : Type}.
Context `{EqDecision PartitionsDefinition, EqDecision ResourceDefinition}.
Implicit Types (tbl : dict string ResourceDefinition).
Implicit Types (all_assets : list (dict string ResourceDefinition)).

(** The first loop keeps the first binding of every key and raises at the
    first binding that differs from the one kept. *)
Lemma record_resource_defs_spec (bs : list (string * ResourceDefinition)) tbl :
  NoDup tbl.*1 →
  match foldM record_resource_def tbl bs with
  | Ok tbl' =>
      NoDup tbl'.*1 ∧ ∀ k r, (k, r) ∈ tbl' ↔ (k, r) ∈ tbl ∨ (k, r) ∈ bs
  | Raise e =>
      ∃ k r1 r2, e = DagsterInvalidDefinitionError (asset_conflict_msg k) ∧
                 (k, r1) ∈ tbl ++ bs ∧ (k, r2) ∈ tbl ++ bs ∧ r1 ≠ r2
  end.
Proof.
  revert tbl. induction bs as [|[k r] bs IH]; intros tbl Hnd; simpl.
  { split; [done|]. intros k r. rewrite elem_of_nil. naive_solver. }
  unfold dict_mem, dict_getitem.
  destruct (dict_get tbl k) as [c|] eqn:Hget.
  - rewrite bool_decide_eq_true_2 by eauto. rewrite Hget. simpl.
    destruct (decide (c ≠ r)) as [Hne|Heq]; simpl.
    + exists k, c, r. split_and!; [done| | |done].
      * apply elem_of_app. left. by apply dict_get_Some_elem.
      * apply elem_of_app. right. by left.
    + apply dec_stable in Heq as ->. specialize (IH tbl Hnd).
      destruct (foldM record_resource_def tbl bs) as [tbl'|e].
      * destruct IH as [Hnd' Hin]. split; [done|]. intros k' r'.
        rewrite Hin, elem_of_cons. split; [naive_solver|].
        intros [?|[[= -> ->]|?]]; eauto. left. by apply dict_get_Some_elem.
      * destruct IH as (k' & r1 & r2 & -> & H1 & H2 & Hne).
        exists k', r1, r2. rewrite !elem_of_app, !elem_of_cons in *. naive_solver.
  - rewrite bool_decide_eq_false_2 by (by intros [? ?]).
    rewrite dict_get_set_eq. simpl.
    rewrite decide_False by (by intros Hc; apply Hc). simpl.
    assert (Hfresh : k ∉ tbl.*1) by (by apply dict_get_None).
    specialize (IH (dict_set tbl k r) (dict_set_NoDup _ _ _ Hnd)).
    rewrite dict_set_fresh in IH |- * by done.
    destruct (foldM record_resource_def (tbl ++ [(k, r)]) bs) as [tbl'|e].
    + destruct IH as [Hnd' Hin]. split; [done|]. intros k' r'.
      rewrite Hin, elem_of_app, list_elem_of_singleton, elem_of_cons. naive_solver.
    + destruct IH as (k' & r1 & r2 & -> & H1 & H2 & Hne).
      exists k', r1, r2.
      rewrite !elem_of_app, !elem_of_cons, ?elem_of_nil in *.
      naive_solver.
Qed.

Lemma collect_resource_defs_flat all_assets :
  collect_resource_defs_from_assets all_assets
  = foldM record_resource_def [] (concat all_assets).
Proof. apply foldM_concat. Qed.

(** Under well-formed dictionaries, two different bindings of a key come
    from two different entries. *)
Lemma assets_conflict_flat all_assets k :
  dicts_wf all_assets →
  assets_conflict_on all_assets k ↔
  ∃ r1 r2, (k, r1) ∈ concat all_assets ∧ (k, r2) ∈ concat all_assets ∧ r1 ≠ r2.
Proof.
  intros Hwf. split.
  - intros (i & j & d1 & d2 & r1 & r2 & _ & Hi & Hj & H1 & H2 & Hne).
    exists r1, r2. split_and!; [| |done].
    + apply elem_of_concat. exists d1. split; [done|].
      by eapply list_elem_of_lookup_2.
    + apply elem_of_concat. exists d2. split; [done|].
      by eapply list_elem_of_lookup_2.
  - intros (r1 & r2 & H1 & H2 & Hne).
    apply elem_of_concat in H1 as (d1 & H1 & [i Hi]%list_elem_of_lookup_1).
    apply elem_of_concat in H2 as (d2 & H2 & [j Hj]%list_elem_of_lookup_1).
    exists i, j, d1, d2, r1, r2. split_and!; try done.
    intros ->. assert (d1 = d2) as -> by congruence.
    assert (NoDup d2.*1) as Hnd.
    { eapply Forall_forall in Hwf; [exact Hwf|]. by eapply list_elem_of_lookup_2. }
    apply Hne. apply (dict_elem_get _ _ _ Hnd) in H1, H2. congruence.
Qed.

(** A passing check means that the assets agree on every key. *)
Lemma ensure_resources_Ok_agree
  (assets : list (@AssetsDefinition PartitionsDefinition ResourceDefinition))
  (source_assets : list (@SourceAsset ResourceDefinition))
  (job_resource_defs : dict string ResourceDefinition) k r1 r2 :
  _ensure_resources_dont_conflict assets source_assets job_resource_defs = Ok tt →
  (k, r1) ∈ concat (all_assets_resource_defs assets source_assets) →
  (k, r2) ∈ concat (all_assets_resource_defs assets source_assets) →
  r1 = r2.
Proof.
  unfold _ensure_resources_dont_conflict. rewrite collect_resource_defs_flat.
  intros (tbl & Htbl & _)%bind_Ok H1 H2.
  pose proof (record_resource_defs_spec
                (concat (all_assets_resource_defs assets source_assets)) []
                (NoDup_nil_2)) as Hspec.
  rewrite Htbl in Hspec. destruct Hspec as [Hnd Hin].
  assert ((k, r1) ∈ tbl) as H1' by (apply Hin; by right).
  assert ((k, r2) ∈ tbl) as H2' by (apply Hin; by right).
  apply (dict_elem_get _ _ _ Hnd) in H1', H2'. congruence.
Qed.

(** C6. With well-formed dictionaries: when two different definitions or
    source assets bind a key to different resource objects, the check
    raises the definition error of such a key; when they agree and the job
    binds a key other than [io_manager] to another object than an asset
    does, it raises the job-level definition error of such a key; and when
    the assets agree and the job disagrees with them on no key other than
    [io_manager], the check succeeds. *)
Theorem ensure_resources_dont_conflict_spec
  (assets : list (@AssetsDefinition PartitionsDefinition ResourceDefinition))
  (source_assets : list (@SourceAsset ResourceDefinition))
  (job_resource_defs : dict string ResourceDefinition) :
  let all_assets := all_assets_resource_defs assets source_assets in
  dicts_wf all_assets → NoDup job_resource_defs.*1 →
  ((∃ k, assets_conflict_on all_assets k) →
   ∃ k, assets_conflict_on all_assets k ∧
        _ensure_resources_dont_conflict assets source_assets job_resource_defs
        = Raise (DagsterInvalidDefinitionError (asset_conflict_msg k)))
  ∧ ((¬ ∃ k, assets_conflict_on all_assets k) →
     (∃ k, k ≠ "io_manager" ∧ job_conflict_on all_assets job_resource_defs k) →
     ∃ k, k ≠ "io_manager" ∧ job_conflict_on all_assets job_resource_defs k ∧
          _ensure_resources_dont_conflict assets source_assets job_resource_defs
          = Raise (DagsterInvalidDefinitionError (job_conflict_msg k)))
  ∧ ((¬ ∃ k, assets_conflict_on all_assets k) →
     (∀ k, job_conflict_on all_assets job_resource_defs k → k = "io_manager") →
     _ensure_resources_dont_conflict assets source_assets job_resource_defs
     = Ok tt).
Proof.
  intros all_assets Hwf Hjob. unfold _ensure_resources_dont_conflict.
  fold all_assets. rewrite collect_resource_defs_flat.
  pose proof (record_resource_defs_spec (concat all_assets) [] (NoDup_nil_2))
    as Hspec.
  destruct (foldM record_resource_def [] (concat all_assets)) as [tbl|e]; simpl.
  - destruct Hspec as [Hnd Hin].
    assert (Hin' : ∀ k r, (k, r) ∈ tbl ↔ (k, r) ∈ concat all_assets).
    { intros k r. rewrite Hin, elem_of_nil. naive_solver. }
    assert (Hcons : ¬ ∃ k, assets_conflict_on all_assets k).
    { intros [k (r1 & r2 & H1 & H2 & Hne)%assets_conflict_flat]; [|done].
      apply Hin', (dict_elem_get _ _ _ Hnd) in H1, H2. congruence. }
    assert (Hjc : ∀ k r,
      check_job_resource_def tbl (k, r) = Ok tt ↔
      ¬ (k ≠ "io_manager" ∧ ∃ r', (k, r') ∈ concat all_assets ∧ r ≠ r')).
    { intros k r. unfold check_job_resource_def. case_decide as Hd.
      - split; [done|]. intros []. destruct Hd as (Hk & [r' Hr'] & Hne).
        split; [done|]. exists r'. split; [|congruence].
        by apply Hin', dict_get_Some_elem.
      - split; [|done]. intros _ (Hk & r' & Hr' & Hne). apply Hd.
        apply Hin', (dict_elem_get _ _ _ Hnd) in Hr'. rewrite Hr'.
        split_and!; [done|eauto|congruence]. }
    split_and!; [done| |].
    + intros _ (k0 & Hk0 & d0 & r0 & r0' & Hj0 & Hd0 & Hr0 & Hne0).
      destruct (for__total (check_job_resource_def tbl) job_resource_defs)
        as [Hok|[e He]].
      { exfalso. rewrite for__Ok in Hok. specialize (Hok _ Hj0).
        apply Hjc in Hok. apply Hok.
        split; [done|]. exists r0'. split; [|done].
        apply elem_of_concat. eauto. }
      rewrite He. apply for__Raise in He as (l1 & [k r] & l2 & -> & _ & Hx).
      unfold check_job_resource_def in Hx.
      case_decide as Hd; [|done]. injection Hx as <-.
      destruct Hd as (Hk & [r' Hr'] & Hne).
      exists k. split_and!; [done| |done].
      pose proof Hr' as Hget.
      apply dict_get_Some_elem, Hin', elem_of_concat in Hr' as (d & Hr' & Hd).
      exists d, r, r'. split_and!; [|done|done|congruence].
      apply elem_of_app. right. by left.
    + intros _ Hnone. apply for__Ok. intros [k r] Hkr. apply Hjc.
      intros (Hk & r' & Hr' & Hne). apply Hk, Hnone.
      apply elem_of_concat in Hr' as (d & Hr' & Hd).
      exists d, r, r'. done.
  - destruct Hspec as (k & r1 & r2 & -> & H1 & H2 & Hne).
    assert (Hc : assets_conflict_on all_assets k).
    { apply assets_conflict_flat; [done|]. exists r1, r2. done. }
    split_and!.
    + intros _. by exists k.
    + intros Hno. destruct Hno. by exists k.
    + intros Hno. destruct Hno. by exists k.
Qed.

(** What a key reads as after the assets' dictionaries were merged in. *)
Lemma dict_get_foldl_merge_dicts all_assets tbl k :
  dicts_wf all_assets → NoDup tbl.*1 →
  dict_get (foldl merge_dicts tbl all_assets) k
  = foldl (λ acc d, match dict_get d k with Some v => Some v | None => acc end)
          (dict_get tbl k) all_assets.
Proof.
  revert tbl. induction all_assets as [|d ds IH]; intros tbl Hwf Hnd; [done|].
  apply Forall_cons in Hwf as [Hd Hwf]. simpl.
  rewrite IH by (done || apply merge_dicts_NoDup).
  by rewrite dict_get_merge_dicts.
Qed.

Lemma foldl_last_binding_none all_assets (acc : option ResourceDefinition) k :
  (∀ d, d ∈ all_assets → k ∉ d.*1) →
  foldl (λ acc d, match dict_get d k with Some v => Some v | None => acc end)
        acc all_assets = acc.
Proof.
  revert acc. induction all_assets as [|d ds IH]; intros acc Hno; [done|].
  simpl. assert (dict_get d k = None) as ->.
  { apply dict_get_None, Hno. by left. }
  apply IH. intros d' Hd'. apply Hno. by right.
Qed.

Lemma foldl_last_binding_agree all_assets (acc : option ResourceDefinition) k r :
  (∀ d r', d ∈ all_assets → (k, r') ∈ d → r' = r) →
  acc = Some r ∨ (∃ d, d ∈ all_assets ∧ (k, r) ∈ d) →
  foldl (λ acc d, match dict_get d k with Some v => Some v | None => acc end)
        acc all_assets = Some r.
Proof.
  revert acc. induction all_assets as [|d ds IH]; intros acc Hagree Hsome.
  { destruct Hsome as [->|(d & []%elem_of_nil & _)]. done. }
  simpl. apply IH.
  { intros d' r' Hd'. apply Hagree. by right. }
  destruct (dict_get d k) as [v|] eqn:Hget.
  - left. f_equal. eapply Hagree; [by left|]. by apply dict_get_Some_elem.
  - destruct Hsome as [->|(d' & [->|Hd']%elem_of_cons & Hin)]; eauto.
    apply dict_get_None in Hget. destruct Hget.
    apply list_elem_of_fmap. by exists (k, r).
Qed.

Variable default_job_io_manager : ResourceDefinition.

(** C9. The job-level table always binds [io_manager].  When the checks
    pass, the table handed to the executor binds every key that some
    definition or source asset binds to that asset's resource object,
    whatever the job binds it to, and reads every other key as the
    job-level table does. *)
Theorem get_all_resource_defs_prefers_assets
  (assets : list (@AssetsDefinition PartitionsDefinition ResourceDefinition))
  (source_assets : list (@SourceAsset ResourceDefinition))
  (resource_defs_arg : dict string ResourceDefinition) :
  let all_assets := all_assets_resource_defs assets source_assets in
  let job_resource_defs :=
    with_default_io_manager default_job_io_manager resource_defs_arg in
  dicts_wf all_assets → NoDup resource_defs_arg.*1 →
  is_Some (dict_get job_resource_defs "io_manager")
  ∧ (check_resources_satisfy_requirements assets source_assets job_resource_defs
     = Ok tt →
     ∃ tbl,
       get_all_resource_defs assets source_assets job_resource_defs = Ok tbl
       ∧ (∀ d k r, d ∈ all_assets → (k, r) ∈ d → dict_get tbl k = Some r)
       ∧ (∀ k, (∀ d, d ∈ all_assets → k ∉ d.*1) →
               dict_get tbl k = dict_get job_resource_defs k)).
Proof.
  intros all_assets job_resource_defs Hwf Harg. split.
  { unfold job_resource_defs, with_default_io_manager.
    rewrite dict_get_merge_dicts; [|apply NoDup_singleton|done].
    destruct (dict_get resource_defs_arg "io_manager"); eauto. }
  intros Hcheck. unfold get_all_resource_defs. rewrite Hcheck. simpl.
  eexists. split; [done|].
  assert (Hjob : NoDup job_resource_defs.*1) by apply merge_dicts_NoDup.
  assert (Hcopy : ∀ k, dict_get (dict_update [] job_resource_defs) k
                       = dict_get job_resource_defs k).
  { intros k. rewrite dict_get_update by done.
    by destruct (dict_get job_resource_defs k). }
  fold all_assets. split.
  - intros d k r Hd Hin.
    rewrite dict_get_foldl_merge_dicts;
      [|done|apply dict_update_NoDup; constructor].
    apply foldl_last_binding_agree; [|eauto].
    intros d' r' Hd' Hin'.
    apply bind_Ok in Hcheck as ([] & Hens & _).
    eapply ensure_resources_Ok_agree; [exact Hens| |];
      apply elem_of_concat; eauto.
  - intros k Hno.
    rewrite dict_get_foldl_merge_dicts;
      [|done|apply dict_update_NoDup; constructor].
    rewrite foldl_last_binding_none by done. apply Hcopy.
Qed.

End Resources.

(** ** The remote pipeline lookup *)

Section Lookup.
Import External.
Context {ExternalPipelineData RepositoryHandle RepositoryLocationHandle : Type}.
Variable from_handle
  : RepositoryLocationHandle
    → result (@RepositoryLocation ExternalPipelineData RepositoryHandle).

(** C10. Whatever location the handle resolves to, the lookup raises the
    invariant violation unless that location holds exactly one repository;
    when it holds exactly one, the lookup asks the location for the
    pipeline selected by the location's name, the repository's name, the
    run's pipeline name and the run's solid selection, and wraps the data
    it gets with the repository's handle. *)
Theorem external_pipeline_lookup_spec (pipeline_run : PipelineRun)
  (repository_location_handle : RepositoryLocationHandle)
  (repo_location : RepositoryLocation) :
  from_handle repository_location_handle = Ok repo_location →
  (length (get_repositories repo_location) ≠ 1 →
   external_pipeline_from_run_with_repository_location_handle from_handle
     pipeline_run repository_location_handle
   = Raise (CheckError
              ("Invariant failed. Description: "
               +:+ "Reconstructed repository location should have exactly one repository")))
  ∧ (∀ key external_repo,
       get_repositories repo_location = [(key, external_repo)] →
       external_pipeline_from_run_with_repository_location_handle from_handle
         pipeline_run repository_location_handle
       = (subset_pipeline_result ←
            get_subset_external_pipeline_result repo_location
              {| location_name := name repo_location;
                 repository_name := repository_name_of external_repo;
                 selector_pipeline_name := pipeline_name pipeline_run;
                 selector_solid_selection := solid_selection pipeline_run |};
          Ok {| external_pipeline_data :=
                  subset_external_pipeline_data subset_pipeline_result;
                repository_handle := handle external_repo |})).
Proof.
  intros Hloc.
  unfold external_pipeline_from_run_with_repository_location_handle.
  rewrite Hloc. simpl. split.
  - intros Hlen. unfold check_invariant.
    by rewrite bool_decide_eq_false_2.
  - intros key external_repo Hrepos. rewrite Hrepos. done.
Qed.

End Lookup.

(** ** Key resolution *)

Lemma mapM_result_Ok {A B : Type} (f : A → result B) (l : list A) (res : list B) :
  mapM f l = Ok res ↔ Forall2 (λ x y, f x = Ok y) l res.
Proof.
  revert res. induction l as [|x l IH]; intros res; simpl.
  - split; [intros [= <-]; constructor|by inversion 1].
  - destruct (f x) as [y|e] eqn:Hx; simpl.
    + destruct (mapM f l) as [ys|e]; simpl.
      * split.
        -- intros [= <-]. constructor; [done|]. by apply IH.
        -- inversion 1 as [|? y' ? ys' Hy Hys]; subst.
           rewrite Hx in Hy. apply IH in Hys. by simplify_eq.
      * split; [done|]. inversion 1 as [|? y' ? ys' Hy Hys]; subst.
        by apply IH in Hys.
    + split; [done|]. inversion 1; congruence.
Qed.

Lemma mapM_result_Raise {A B : Type} (f : A → result B) (l : list A) (e : exception) :
  mapM f l = Raise e → ∃ x, x ∈ l ∧ f x = Raise e.
Proof.
  induction l as [|x l IH]; simpl; [done|].
  destruct (f x) as [y|e'] eqn:Hx; simpl.
  - destruct (mapM f l) as [ys|e']; simpl; [done|].
    intros [= ->]. destruct IH as (x' & ? & ?); [done|].
    exists x'. split; [by right|done].
  - intros [= ->]. exists x. split; [by left|done].
Qed.

Lemma Forall2_impl_elem {A B : Type} (P Q : A → B → Prop) (l : list A) (k : list B) :
  Forall2 P l k → (∀ x y, x ∈ l → P x y → Q x y) → Forall2 Q l k.
Proof.
  induction 1 as [|x y l k Hxy Hlk IH]; intros Himpl; constructor.
  - apply Himpl; [by left|done].
  - apply IH. intros x' y' Hx'. apply Himpl. by right.
Qed.

(** An invariant of the loop state holds at the end of a loop that ends. *)
Lemma foldM_invariant {A S : Type} (P : S → Prop) (f : S → A → result S)
  (l : list A) (s s' : S) :
  P s → (∀ s x s', x ∈ l → P s → f s x = Ok s' → P s') →
  foldM f s l = Ok s' → P s'.
Proof.
  revert s. induction l as [|x l IH]; intros s Hs Hstep; simpl.
  - by intros [= <-].
  - destruct (f s x) as [s1|] eqn:Hx; simpl; [|done].
    apply IH.
    + eapply Hstep; [by left|done|done].
    + intros s2 y s3 Hy. apply Hstep. by right.
Qed.

Lemma dict_set_values {K V : Type} `{EqDecision K} (d : dict K V) k v v' :
  v' ∈ (dict_set d k v).*2 → v' = v ∨ v' ∈ d.*2.
Proof.
  induction d as [|[k0 v0] d IH]; simpl.
  - intros ->%list_elem_of_singleton. by left.
  - destruct (decide (k = k0)); simpl; rewrite !elem_of_cons; naive_solver.
Qed.

(** A loop that resolves the values of a dictionary one by one builds the
    dictionary of the resolved values, in the same order. *)
Lemma foldM_dict_set_resolve {V W : Type} (f : V → result W)
  (l : dict string V) (acc : dict string W) :
  NoDup l.*1 → (∀ n, n ∈ l.*1 → n ∉ acc.*1) →
  match foldM (λ acc '(n, v), w ← f v; Ok (dict_set acc n w)) acc l with
  | Ok acc' =>
      ∃ new, acc' = acc ++ new
             ∧ Forall2 (λ d r, d.1 = r.1 ∧ f d.2 = Ok r.2) l new
  | Raise e => ∃ n v, (n, v) ∈ l ∧ f v = Raise e
  end.
Proof.
  revert acc. induction l as [|[n v] l IH]; intros acc Hnd Hfresh; simpl.
  { exists []. by rewrite app_nil_r. }
  apply NoDup_cons in Hnd as [Hn Hnd].
  destruct (f v) as [w|e] eqn:Hv; simpl.
  - rewrite dict_set_fresh by (apply Hfresh; by left).
    specialize (IH (acc ++ [(n, w)]) Hnd).
    destruct (foldM _ (acc ++ [(n, w)]) l) as [acc'|e].
    + destruct IH as (new & -> & Hnew).
      { intros n' Hn'. rewrite fmap_app, elem_of_app. simpl.
        rewrite list_elem_of_singleton. intros [? | ->]; [|done].
        eapply Hfresh; [by right|done]. }
      exists ((n, w) :: new). split; [by rewrite <- app_assoc|].
      by constructor.
    + destruct IH as (n' & v' & Hin & Hraise).
      { intros n' Hn'. rewrite fmap_app, elem_of_app. simpl.
        rewrite list_elem_of_singleton. intros [? | ->]; [|done].
        eapply Hfresh; [by right|done]. }
      exists n', v'. split; [by right|done].
  - exists n, v. split; [by left|done].
Qed.

Section Resolver.
Context {PartitionsDefinition ResourceDefinition : Type}.
Context `{EqDecision PartitionsDefinition, EqDecision ResourceDefinition}.
Variable to_string : AssetKey → string.
Local Abbreviation AssetsDef := (@AssetsDefinition PartitionsDefinition ResourceDefinition).
Local Abbreviation Source := (@SourceAsset ResourceDefinition).
Implicit Types (assets_defs : list AssetsDef) (source_assets : list Source).
Implicit Types (tbl : dict (string * string) AssetKey).

(** Every value of the lookup table is a produced or a source key. *)
Lemma lookup_table_values assets_defs source_assets tbl k :
  build_asset_keys_by_group_and_name assets_defs source_assets = Ok tbl →
  k ∈ tbl.*2 → k ∈ produced_or_source_keys assets_defs source_assets.
Proof.
  unfold build_asset_keys_by_group_and_name.
  intros (tbl1 & Hdefs & Hsrcs)%bind_Ok. revert k.
  pose (P := λ tbl : dict (string * string) AssetKey,
          ∀ k, k ∈ tbl.*2 → k ∈ produced_or_source_keys assets_defs source_assets).
  change (P tbl). eapply foldM_invariant; [| |exact Hsrcs].
  - change (P tbl1). eapply foldM_invariant; [| |exact Hdefs].
    + by intros k ?%elem_of_nil.
    + intros t ad t' Had Ht Hstep. change (P t').
      eapply foldM_invariant; [exact Ht| |exact Hstep].
      intros t1 key t2 Hkey Ht1 Hset.
      apply bind_Ok in Hset as (g & _ & (name & _ & [= <-])%bind_Ok).
      intros k [->|?]%dict_set_values; [|by apply Ht1].
      apply elem_of_app. left. apply elem_of_concat. exists (keys ad).
      split; [done|]. by apply list_elem_of_fmap_2.
  - intros t src t' Hsrc Ht Hset.
    apply bind_Ok in Hset as (name & _ & [= <-]).
    intros k [->|?]%dict_set_values; [|by apply Ht].
    apply elem_of_app. right. by apply list_elem_of_fmap_2.
Qed.

Lemma group_of_Some (ad : AssetsDef) g :
  group_of ad = Some g ↔ ∃ key0, group_names_by_key ad = [(key0, g)].
Proof.
  unfold group_of. destruct (group_names_by_key ad) as [|[k0 g0] [|? ?]].
  - split; [done|by intros [? ?]].
  - split; [intros [= ->]; eauto|by intros [? [= _ ->]]].
  - split; [done|by intros [? ?]].
Qed.

Lemma resolves_to_not_unresolvable all_keys tbl (ad : AssetsDef) key k :
  resolves_to all_keys tbl ad key k → ¬ unresolvable all_keys tbl ad key.
Proof.
  intros [[Hin _]|(_ & key0 & g & name & Hg & Hl & Hget)] [Hnin Hnone]; [done|].
  rewrite (Hnone _ _ _ Hg Hl) in Hget. done.
Qed.

(** One input: the key it resolves to, or the error it raises. *)
Lemma resolve_input_spec tbl asset_keys all_keys (ad : AssetsDef) key :
  (∀ k, k ∈ asset_keys ↔ k ∈ all_keys) → key ≠ [] → keys ad ≠ [] →
  match resolve_input to_string tbl asset_keys ad (group_of ad) key with
  | Ok k => resolves_to all_keys tbl ad key k
  | Raise e =>
      unresolvable all_keys tbl ad key
      ∧ ∃ owner, head (keys ad) = Some owner
                 ∧ e = DagsterInvalidDefinitionError
                         (unresolved_input_msg (to_string key) (to_string owner))
  end.
Proof.
  intros Hkeys Hkey Hown. unfold resolve_input, path_last.
  destruct (last key) as [name|] eqn:Hlast; [|by apply last_None in Hlast].
  simpl. destruct (keys ad) as [|owner rest] eqn:Hk; [done|].
  assert (Hraise : raise_unresolved to_string ad key
                   = Raise (A:=AssetKey) (DagsterInvalidDefinitionError
                       (unresolved_input_msg (to_string key) (to_string owner)))).
  { unfold raise_unresolved. by rewrite Hk. }
  case_bool_decide as Hin.
  { left. split; [by apply Hkeys|done]. }
  assert (key ∉ all_keys) as Hnin by (by rewrite <- Hkeys).
  destruct (group_of ad) as [g|] eqn:Hg.
  - apply group_of_Some in Hg as [key0 Hg].
    destruct (dict_get tbl (g, name)) as [k|] eqn:Hget.
    + right. split; [done|]. by exists key0, g, name.
    + rewrite Hraise. split; [|eauto].
      split; [done|]. intros key0' g' name' Hg' Hl'.
      rewrite Hg in Hg'. rewrite Hlast in Hl'. by simplify_eq.
  - rewrite Hraise. split; [|eauto].
    split; [done|]. intros key0 g name' Hg' _.
    assert (group_of ad = Some g) by (apply group_of_Some; eauto). congruence.
Qed.

(** One definition: its resolved inputs, or the error of an unresolvable
    input. *)
Lemma resolve_assets_def_spec tbl asset_keys all_keys (ad : AssetsDef) :
  (∀ k, k ∈ asset_keys ↔ k ∈ all_keys) → assets_def_wf ad →
  match resolve_assets_def to_string tbl asset_keys ad with
  | Ok r => r.1 = ad ∧ resolved_inputs all_keys tbl ad r.2
  | Raise e =>
      ∃ input_name key owner,
        (input_name, key) ∈ keys_by_input_name ad
        ∧ unresolvable all_keys tbl ad key
        ∧ head (keys ad) = Some owner
        ∧ e = DagsterInvalidDefinitionError
                (unresolved_input_msg (to_string key) (to_string owner))
  end.
Proof.
  intros Hkeys (Hnd & Hown & Hne). unfold resolve_assets_def.
  pose proof (foldM_dict_set_resolve
                (resolve_input to_string tbl asset_keys ad (group_of ad))
                (keys_by_input_name ad) [] Hnd) as Hloop.
  destruct (foldM _ [] (keys_by_input_name ad)) as [deps|e]; simpl.
  - destruct Hloop as (new & -> & Hnew); [by intros ? _ ?%elem_of_nil|].
    split; [done|]. simpl. unfold resolved_inputs.
    eapply Forall2_impl_elem; [exact Hnew|].
    intros [n key] [n' k] Hin [Hn Hres]. simpl in *. split; [done|].
    pose proof (resolve_input_spec tbl asset_keys all_keys ad key Hkeys
                  (Hne _ _ Hin) Hown) as Hi.
    by rewrite Hres in Hi.
  - destruct Hloop as (n & key & Hin & Hraise); [by intros ? _ ?%elem_of_nil|].
    pose proof (resolve_input_spec tbl asset_keys all_keys ad key Hkeys
                  (Hne _ _ Hin) Hown) as Hi.
    rewrite Hraise in Hi. destruct Hi as (Hun & owner & Hhead & ->).
    by exists n, key, owner.
Qed.

Lemma Forall2_elem_l {A B : Type} (P : A → B → Prop) (l : list A) (k : list B) x :
  Forall2 P l k → x ∈ l → ∃ y, y ∈ k ∧ P x y.
Proof.
  induction 1 as [|x' y l k Hxy Hlk IH]; [by intros ?%elem_of_nil|].
  intros [->|Hx]%elem_of_cons.
  - exists y. split; [by left|done].
  - destruct (IH Hx) as (y' & ? & ?). exists y'. split; [by right|done].
Qed.

(** C1, as amended.  When the lookup table was built and no produced or
    source key was overwritten in it, and the definitions are well formed:
    if every declared input resolves (by exact match against the produced
    and source keys, or else through the table under the group of a
    definition whose group table has a single entry), the resolver returns,
    for every definition in order, that definition with its inputs
    resolved this way; and if some declared input resolves in neither way,
    the resolver raises the definition error that names such an input key
    and the first output key of the definition that declares it. *)
Theorem resolve_assets_def_deps_spec assets_defs source_assets tbl :
  let all_keys := produced_or_source_keys assets_defs source_assets in
  build_asset_keys_by_group_and_name assets_defs source_assets = Ok tbl →
  (∀ k, k ∈ all_keys → k ∈ tbl.*2) →
  (∀ ad, ad ∈ assets_defs → assets_def_wf ad) →
  ((∀ ad input_name key,
      ad ∈ assets_defs → (input_name, key) ∈ keys_by_input_name ad →
      ∃ k, resolves_to all_keys tbl ad key k) →
   ∃ res,
     resolve_assets_def_deps to_string assets_defs source_assets = Ok res
     ∧ Forall2 (λ ad r, r.1 = ad ∧ resolved_inputs all_keys tbl ad r.2)
               assets_defs res)
  ∧ ((∃ ad input_name key,
        ad ∈ assets_defs ∧ (input_name, key) ∈ keys_by_input_name ad
        ∧ unresolvable all_keys tbl ad key) →
     ∃ ad input_name key owner,
       ad ∈ assets_defs ∧ (input_name, key) ∈ keys_by_input_name ad
       ∧ unresolvable all_keys tbl ad key
       ∧ head (keys ad) = Some owner
       ∧ resolve_assets_def_deps to_string assets_defs source_assets
         = Raise (DagsterInvalidDefinitionError
                    (unresolved_input_msg (to_string key) (to_string owner)))).
Proof.
  intros all_keys Htbl Hkept Hwf. unfold resolve_assets_def_deps.
  rewrite Htbl. simpl.
  set (asset_keys := remove_dups (dict_values tbl)).
  assert (Hkeys : ∀ k, k ∈ asset_keys ↔ k ∈ all_keys).
  { intros k. unfold asset_keys. rewrite elem_of_remove_dups. split.
    - by apply lookup_table_values.
    - apply Hkept. }
  pose proof (λ ad Had, resolve_assets_def_spec tbl asset_keys all_keys ad
                          Hkeys (Hwf ad Had)) as Hdef.
  destruct (mapM (resolve_assets_def to_string tbl asset_keys) assets_defs)
    as [res|e] eqn:Hmap.
  - apply mapM_result_Ok in Hmap.
    assert (Hres : Forall2 (λ ad r, r.1 = ad ∧ resolved_inputs all_keys tbl ad r.2)
                     assets_defs res).
    { eapply Forall2_impl_elem; [exact Hmap|].
      intros ad r Had Hr. simpl in Hr. specialize (Hdef ad Had).
      by rewrite Hr in Hdef. }
    split; [by eauto|].
    intros (ad & n & key & Had & Hin & Hun). exfalso.
    destruct (Forall2_elem_l _ _ _ _ Hres Had) as (r & _ & _ & Hr).
    destruct (Forall2_elem_l _ _ _ _ Hr Hin) as (r' & _ & _ & Hres').
    by eapply resolves_to_not_unresolvable.
  - apply mapM_result_Raise in Hmap as (ad & Had & Hraise).
    specialize (Hdef ad Had). rewrite Hraise in Hdef.
    destruct Hdef as (n & key & owner & Hin & Hun & Hhead & ->).
    split.
    + intros Hall. destruct (Hall ad n key Had Hin) as [k Hk].
      by destruct (resolves_to_not_unresolvable _ _ _ _ _ Hk).
    + intros _. by exists ad, n, key, owner.
Qed.

End Resolver.

(** ** The assembled graph *)

Lemma foldl_invariant {A S : Type} (P : S → Prop) (f : S → A → S) (l : list A) (s : S) :
  P s → (∀ s x, x ∈ l → P s → P (f s x)) → P (foldl f s l).
Proof.
  revert s. induction l as [|x l IH]; intros s Hs Hstep; simpl; [done|].
  apply IH.
  - apply Hstep; [by left|done].
  - intros s' y Hy. apply Hstep. by right.
Qed.

Lemma sorted_insert_Permutation {A B : Type} (cmp : B → B → comparison)
  (key : A → B) (x : A) (l : list A) :
  sorted_insert cmp key x l ≡ₚ x :: l.
Proof.
  induction l as [|y l IH]; simpl; [done|].
  destruct (cmp (key y) (key x)); try done.
  rewrite IH. apply Permutation_swap.
Qed.

Lemma sorted_Permutation {A B : Type} (cmp : B → B → comparison)
  (key : A → B) (l : list A) :
  sorted cmp key l ≡ₚ l.
Proof.
  induction l as [|x l IH]; simpl; [done|].
  unfold sorted in *. simpl. by rewrite sorted_insert_Permutation, IH.
Qed.

Section Graph.
Context {PartitionsDefinition ResourceDefinition : Type}.
Context `{EqDecision PartitionsDefinition, EqDecision ResourceDefinition}.
Variable to_string : AssetKey → string.
Local Abbreviation AssetsDef := (@AssetsDefinition PartitionsDefinition ResourceDefinition).
Local Abbreviation Source := (@SourceAsset ResourceDefinition).
Implicit Types (assets_defs : list AssetsDef) (source_assets : list Source).
Implicit Types (producers : dict AssetKey (string * string)).
Implicit Types (deps : deps_dict) (ih : dict NodeInputHandle AssetKey).

Lemma node_key_of_inj (h h' : NodeHandle) (ad ad' : AssetsDef) :
  node_key_of h ad = node_key_of h' ad' → h = h'.
Proof.
  unfold node_key_of. repeat case_decide; intros [=]; subst; try done.
  all: repeat match goal with H : ¬ _ ≠ _ |- _ => apply dec_stable in H end.
  all: congruence.
Qed.

(** The loop over the resolved inputs of one node. *)
Lemma connect_inputs_spec producers (h : NodeHandle) (nk : node_key)
  (items : dict string AssetKey) deps_a ih_a inner_a deps_b ih_b :
  NoDup items.*1 → dict_get deps_a nk = Some inner_a →
  foldM (connect_input producers h nk) (deps_a, ih_a) items = Ok (deps_b, ih_b) →
  (∃ inner_b,
     dict_get deps_b nk = Some inner_b
     ∧ ∀ n, dict_get inner_b n
            = match expected_edge producers items n with
              | Some e => Some e
              | None => dict_get inner_a n
              end)
  ∧ (∀ nk', nk' ≠ nk → dict_get deps_b nk' = dict_get deps_a nk')
  ∧ (∀ n, dict_get ih_b (h, n)
          = match dict_get items n with
            | Some k => Some k
            | None => dict_get ih_a (h, n)
            end)
  ∧ (∀ h' n, h' ≠ h → dict_get ih_b (h', n) = dict_get ih_a (h', n)).
Proof.
  revert deps_a ih_a inner_a.
  induction items as [|[n0 k0] items IH]; intros deps_a ih_a inner_a Hnd Hnk.
  { simpl. intros [= <- <-]. split_and!; eauto. }
  rewrite fmap_cons in Hnd. apply NoDup_cons in Hnd as [Hn0 Hnd]. simpl in Hn0 |- *.
  assert (Hn0' : dict_get items n0 = None) by (by apply dict_get_None).
  destruct (dict_get producers k0) as [[a o]|] eqn:Hprod.
  - unfold deps_set, dict_getitem. rewrite Hnk. simpl.
    intros Hfold.
    destruct (IH _ _ (dict_set inner_a n0 (DependencyDefinition a o)) Hnd
                (dict_get_set_eq _ _ _) Hfold)
      as ((inner_b & Hb & Hinner) & Hframe & Hih & Hih').
    split_and!.
    + exists inner_b. split; [done|]. intros n. rewrite Hinner.
      unfold expected_edge. simpl. destruct (decide (n = n0)) as [->|Hne].
      * rewrite Hn0', Hprod. apply dict_get_set_eq.
      * destruct (dict_get items n) as [k|]; [|by apply dict_get_set_ne].
        destruct (dict_get producers k) as [[??]|]; [done|].
        by apply dict_get_set_ne.
    + intros nk' Hne. rewrite Hframe by done. by apply dict_get_set_ne.
    + intros n. rewrite Hih. destruct (decide (n = n0)) as [->|Hne].
      * rewrite Hn0'. apply dict_get_set_eq.
      * destruct (dict_get items n); [done|]. apply dict_get_set_ne. congruence.
    + intros h' n Hne. rewrite Hih' by done. apply dict_get_set_ne. congruence.
  - simpl. intros Hfold.
    destruct (IH _ _ inner_a Hnd Hnk Hfold)
      as ((inner_b & Hb & Hinner) & Hframe & Hih & Hih').
    split_and!.
    + exists inner_b. split; [done|]. intros n. rewrite Hinner.
      unfold expected_edge. simpl. destruct (decide (n = n0)) as [->|Hne].
      * by rewrite Hn0', Hprod.
      * done.
    + done.
    + intros n. rewrite Hih. destruct (decide (n = n0)) as [->|Hne].
      * rewrite Hn0'. apply dict_get_set_eq.
      * destruct (dict_get items n); [done|]. apply dict_get_set_ne. congruence.
    + intros h' n Hne. rewrite Hih' by done. apply dict_get_set_ne. congruence.
Qed.

(** The loop over the nodes: every node read its resolved inputs from the
    index, and nothing else touched its entries. *)
Lemma connect_nodes_spec producers
  (by_id : dict AssetsDef (dict string AssetKey))
  (handles : dict NodeHandle AssetsDef) deps_a ih_a deps_b ih_b :
  NoDup handles.*1 →
  (∀ ad dep_keys, dict_get by_id ad = Some dep_keys → NoDup dep_keys.*1) →
  foldM (connect_node producers by_id) (deps_a, ih_a) handles = Ok (deps_b, ih_b) →
  (∀ h ad, (h, ad) ∈ handles →
     ∃ dep_keys inner,
       dict_get by_id ad = Some dep_keys
       ∧ dict_get deps_b (node_key_of h ad) = Some inner
       ∧ (∀ n, dict_get inner n = expected_edge producers dep_keys n)
       ∧ (∀ n, dict_get ih_b (h, n)
               = match dict_get dep_keys n with
                 | Some k => Some k
                 | None => dict_get ih_a (h, n)
                 end))
  ∧ (∀ nk, (∀ h ad, (h, ad) ∈ handles → node_key_of h ad ≠ nk) →
           dict_get deps_b nk = dict_get deps_a nk)
  ∧ (∀ h n, h ∉ handles.*1 → dict_get ih_b (h, n) = dict_get ih_a (h, n)).
Proof.
  revert deps_a ih_a.
  induction handles as [|[h0 ad0] handles IH]; intros deps_a ih_a Hnd Hby.
  { simpl. intros [= <- <-]. split_and!; [|done|done].
    by intros ?? ?%elem_of_nil. }
  rewrite fmap_cons in Hnd. apply NoDup_cons in Hnd as [Hh0 Hnd]. simpl in Hh0 |- *.
  unfold dict_getitem.
  destruct (dict_get by_id ad0) as [dep_keys|] eqn:Hid; simpl; [|done].
  destruct (foldM (connect_input producers h0 (node_key_of h0 ad0))
              (dict_set deps_a (node_key_of h0 ad0) [], ih_a) dep_keys)
    as [[deps1 ih1]|] eqn:Hinner; simpl; [|done].
  intros Hfold.
  destruct (connect_inputs_spec _ _ _ _ _ _ [] _ _ (Hby _ _ Hid)
              (dict_get_set_eq _ _ _) Hinner)
    as ((inner1 & Hnk1 & Hinner1) & Hframe1 & Hih1 & Hih1').
  destruct (IH _ _ Hnd Hby Hfold) as (Hnodes & Hframe & Hih).
  assert (Hother : ∀ h ad, (h, ad) ∈ handles →
                           node_key_of h ad ≠ node_key_of h0 ad0).
  { intros h ad Hin Heq. apply node_key_of_inj in Heq as ->.
    apply Hh0. apply list_elem_of_fmap. by exists (h0, ad). }
  split_and!.
  - intros h ad [[= -> ->]|Hin]%elem_of_cons.
    + exists dep_keys, inner1. split_and!; [done| | |].
      * by rewrite Hframe.
      * intros n. rewrite Hinner1. by destruct (expected_edge _ _ _).
      * intros n. by rewrite Hih, Hih1.
    + destruct (Hnodes h ad Hin) as (dk & inner & ? & ? & ? & Hihb).
      exists dk, inner. split_and!; [done..|].
      intros n. rewrite Hihb. destruct (dict_get dk n); [done|].
      apply Hih1'. intros ->. apply Hh0. apply list_elem_of_fmap.
      by exists (h0, ad).
  - intros nk Hnk. rewrite Hframe.
    + rewrite Hframe1.
      * apply dict_get_set_ne. intros ->. eapply Hnk; [by left|done].
      * intros ->. eapply Hnk; [by left|done].
    + intros h ad Hin. apply Hnk. by right.
  - intros h n Hh. apply not_elem_of_cons in Hh as [Hne Hh].
    rewrite Hih by done. by apply Hih1'.
Qed.

Lemma dict_set_elem {K V : Type} `{EqDecision K} (d : dict K V) k v kv :
  kv ∈ dict_set d k v → kv.2 = v ∨ kv ∈ d.
Proof.
  induction d as [|[k0 v0] d IH]; simpl.
  - intros ->%list_elem_of_singleton. by left.
  - destruct (decide (k = k0)) as [->|]; rewrite !elem_of_cons.
    + intros [->|?]; eauto.
    + intros [->|?]; [eauto|]. destruct IH; eauto.
Qed.

Lemma dict_set_elem_pair {K V : Type} `{EqDecision K} (d : dict K V) k v k' v' :
  (k', v') ∈ dict_set d k v → (k', v') = (k, v) ∨ (k', v') ∈ d.
Proof.
  induction d as [|[k0 v0] d IH]; simpl.
  - intros ->%list_elem_of_singleton. by left.
  - destruct (decide (k = k0)) as [->|]; rewrite !elem_of_cons.
    + intros [[= -> ->]|?]; eauto.
    + intros [[= -> ->]|?]; [eauto|]. destruct IH; eauto.
Qed.

(** The resolved inputs of a definition form a dictionary. *)
Lemma resolve_assets_def_NoDup tbl asset_keys (ad ad' : AssetsDef) dep_keys :
  resolve_assets_def to_string tbl asset_keys ad = Ok (ad', dep_keys) →
  NoDup dep_keys.*1.
Proof.
  unfold resolve_assets_def. intros (d & Hfold & [= _ <-])%bind_Ok.
  eapply (foldM_invariant (λ d : dict string AssetKey, NoDup d.*1));
    [|clear|exact Hfold].
  - constructor.
  - intros s [n key] s' _ Hs (k & _ & [= <-])%bind_Ok. by apply dict_set_NoDup.
Qed.

Lemma resolve_assets_def_deps_NoDup assets_defs source_assets resolved
  (ad : AssetsDef) dep_keys :
  resolve_assets_def_deps to_string assets_defs source_assets = Ok resolved →
  (ad, dep_keys) ∈ resolved → NoDup dep_keys.*1.
Proof.
  unfold resolve_assets_def_deps. intros (tbl & _ & Hmap)%bind_Ok Hin.
  apply mapM_result_Ok in Hmap. revert Hin.
  induction Hmap as [|ad0 r ads rs Hr _ IH]; [by intros ?%elem_of_nil|].
  intros [<-|?]%elem_of_cons; [|by apply IH].
  by eapply resolve_assets_def_NoDup.
Qed.

Lemma index_by_assets_def_id_elem
  (resolved : list (AssetsDef * dict string AssetKey)) ad dep_keys :
  dict_get (index_by_assets_def_id resolved) ad = Some dep_keys →
  (ad, dep_keys) ∈ resolved.
Proof.
  intros Hget%dict_get_Some_elem. revert Hget. unfold index_by_assets_def_id.
  generalize (ad, dep_keys). clear ad dep_keys.
  apply (foldl_invariant
           (λ acc : dict AssetsDef (dict string AssetKey),
              ∀ p, p ∈ acc → p ∈ resolved)).
  - by intros p ?%elem_of_nil.
  - intros acc [a d] Hin Hacc [a' d'] [[= -> ->]|?]%dict_set_elem_pair; eauto.
Qed.

(** The suffix scheme: the first definition on a node name keeps the name,
    the [c]-th one receives the suffix [_c]. *)
Lemma assign_node_alias_spec (collisions : dict string nat) (node_name : string) :
  assign_node_alias collisions node_name
  = match default 0 (dict_get collisions node_name) with
    | O => (dict_set collisions node_name 1, node_name)
    | S n => (dict_set collisions node_name (S (S n)),
              node_name +:+ "_" +:+ str_of_nat (S (S n)))
    end.
Proof.
  unfold assign_node_alias.
  by destruct (dict_get collisions node_name) as [[|n]|].
Qed.

(** The naming loop gives every handle once. *)
Lemma name_nodes_NoDup assets_defs : NoDup (name_nodes assets_defs).1.2.*1.
Proof.
  unfold name_nodes.
  apply (foldl_invariant (λ st : naming_state, NoDup st.1.2.*1)).
  - constructor.
  - intros [[c hs] ps] ad _ Hst. unfold naming_step.
    destruct (assign_node_alias c (node_def_name ad)) as [c' alias].
    simpl. by apply dict_set_NoDup.
Qed.

Lemma record_outputs_keys (alias : string) (outs : dict string AssetKey) producers k :
  k ∈ (foldl (λ acc '(output_name, key), dict_set acc key (alias, output_name))
             producers outs).*1
  ↔ k ∈ producers.*1 ∨ k ∈ outs.*2.
Proof.
  revert producers. induction outs as [|[o key] outs IH]; intros producers; simpl.
  - rewrite elem_of_nil. naive_solver.
  - rewrite IH, dict_set_elem_keys, elem_of_cons. naive_solver.
Qed.

(** A key has a producing node exactly when a definition lists it among
    its outputs. *)
Lemma naming_producers assets_defs (st : naming_state) k :
  k ∈ (foldl naming_step st assets_defs).2.*1
  ↔ k ∈ st.2.*1 ∨ ∃ ad, ad ∈ assets_defs ∧ k ∈ (keys_by_output_name ad).*2.
Proof.
  revert st. induction assets_defs as [|ad ads IH]; intros st; simpl.
  - split; [by left|]. intros [?|(? & []%elem_of_nil & _)]. done.
  - rewrite IH. destruct st as [[c hs] ps]. unfold naming_step.
    destruct (assign_node_alias c (node_def_name ad)) as [c' alias]. simpl.
    rewrite record_outputs_keys. split.
    + intros [[?|?]|(ad' & ? & ?)]; eauto.
      * right. exists ad. split; [by left|done].
      * right. exists ad'. split; [by right|done].
    + intros [?|(ad' & [->|?]%elem_of_cons & ?)]; eauto.
Qed.

End Graph.

(** ** Topological sorting *)

Section precedes_facts.
Context {A : Type} `{EqDecision A}.
Implicit Types (l order : list A).

Lemma index_of_app_fresh x l1 l2 :
  x ∉ l1 → index_of x (l1 ++ x :: l2) = length l1.
Proof.
  induction l1 as [|y l1 IH]; simpl; intros Hx.
  - by rewrite decide_True.
  - apply not_elem_of_cons in Hx as [Hne Hx].
    rewrite decide_False by done. by rewrite IH.
Qed.

(** In a duplicate-free order, standing before means having a smaller
    position. *)
Lemma precedes_index_of order v u :
  NoDup order → precedes order v u → (index_of v order < index_of u order)%nat.
Proof.
  intros Hnd (l1 & l2 & l3 & ->).
  assert (v ∉ l1) as Hv.
  { apply NoDup_app in Hnd as (_ & Hdisj & _). intros Hin.
    apply (Hdisj v Hin). by left. }
  assert (Heq : l1 ++ v :: l2 ++ u :: l3 = (l1 ++ v :: l2) ++ u :: l3)
    by (by rewrite <- app_assoc).
  assert (u ∉ l1 ++ v :: l2) as Hu.
  { rewrite Heq in Hnd. apply NoDup_app in Hnd as (_ & Hdisj & _).
    intros Hin. apply (Hdisj u Hin). by left. }
  rewrite index_of_app_fresh by done.
  rewrite Heq, index_of_app_fresh by done.
  rewrite length_app. simpl. lia.
Qed.

Lemma precedes_app_r order l v u : precedes order v u → precedes (l ++ order) v u.
Proof.
  intros (l1 & l2 & l3 & ->). exists (l ++ l1), l2, l3. by rewrite <- app_assoc.
Qed.

Lemma precedes_app_split l order v u :
  v ∈ l → u ∈ order → precedes (l ++ order) v u.
Proof.
  intros (l1 & l2 & ->)%list_elem_of_split (m1 & m2 & ->)%list_elem_of_split.
  exists l1, (l2 ++ m1), m2. by rewrite <- !app_assoc.
Qed.

Lemma precedes_fmap {B : Type} (f : A → B) order v u :
  precedes order v u → precedes (f <$> order) (f v) (f u).
Proof.
  intros (l1 & l2 & l3 & ->). exists (f <$> l1), (f <$> l2), (f <$> l3).
  by rewrite !fmap_app, !fmap_cons, !fmap_app, !fmap_cons.
Qed.

End precedes_facts.

Section toposort_facts.
Context {A : Type} `{EqDecision A}.
Implicit Types (data : dict A (list A)) (ordered : list A).

Lemma toposort_loop_unfold fuel data :
  toposort_loop fuel data
  = if decide (toposort_ordered data = [])
    then Some (if decide (length data ≠ 0) then Raise CircularDependencyError
               else Ok [])
    else match fuel with
         | O => None
         | S fuel' =>
             r ← toposort_loop fuel' (toposort_remove (toposort_ordered data) data);
             Some (layers ← r; Ok (toposort_ordered data :: layers))
         end.
Proof. destruct fuel; simpl; by destruct (toposort_ordered data). Qed.

Lemma elem_of_toposort_ordered data x :
  x ∈ toposort_ordered data ↔ (x, []) ∈ data.
Proof.
  unfold toposort_ordered. rewrite list_elem_of_fmap. split.
  - intros ([u dep] & -> & [Hdep Hin]%list_elem_of_filter). simpl in *. by subst.
  - intros Hin. exists (x, []). split; [done|]. by apply list_elem_of_filter.
Qed.

Lemma elem_of_toposort_remove ordered data u dep' :
  (u, dep') ∈ toposort_remove ordered data
  ↔ ∃ dep, (u, dep) ∈ data ∧ (u ∉ ordered) ∧ dep' = list_difference dep ordered.
Proof.
  unfold toposort_remove. rewrite list_elem_of_fmap. split.
  - intros ([u0 dep] & [= -> ->] & [Hu Hin]%list_elem_of_filter). by exists dep.
  - intros (dep & Hin & Hu & ->). exists (u, dep). split; [done|].
    by apply list_elem_of_filter.
Qed.

Lemma toposort_remove_keys ordered data :
  (toposort_remove ordered data).*1 = filter (λ x, (x ∉ ordered)) (data.*1).
Proof.
  unfold toposort_remove. induction data as [|[u dep] data IH]; [done|].
  rewrite (fmap_cons fst), !filter_cons. simpl.
  destruct (decide (u ∉ ordered)); [|done].
  rewrite !fmap_cons. simpl. by f_equal.
Qed.

Lemma filter_keys_NoDup (P : A * list A → Prop) `{∀ x, Decision (P x)} data :
  NoDup data.*1 → NoDup (filter P data).*1.
Proof.
  induction data as [|[u dep] data IH]; [done|].
  rewrite fmap_cons. intros [Hu Hnd]%NoDup_cons. rewrite filter_cons.
  destruct (decide (P (u, dep))); [|by apply IH].
  rewrite fmap_cons. apply NoDup_cons. split; [|by apply IH].
  intros ([u' dep'] & Heq & [_ Hin]%list_elem_of_filter)%list_elem_of_fmap.
  simpl in Heq. subst u'. apply Hu. apply list_elem_of_fmap. by exists (u, dep').
Qed.

(** Every round removes an item. *)
Lemma toposort_remove_length data :
  toposort_ordered data ≠ [] →
  (length (toposort_remove (toposort_ordered data) data) < length data)%nat.
Proof.
  intros Hord. destruct (toposort_ordered data) as [|x ordered] eqn:Heq; [done|].
  unfold toposort_remove. rewrite length_fmap.
  apply (length_filter_lt _ _ (x, [])).
  - apply elem_of_toposort_ordered. rewrite Heq. by left.
  - simpl. intros Hx. apply Hx. by left.
Qed.

(** [length data] rounds reach the [break]. *)
Lemma toposort_loop_fuel fuel data :
  (length data ≤ fuel)%nat → is_Some (toposort_loop fuel data).
Proof.
  revert data. induction fuel as [|fuel IH]; intros data Hlen;
    rewrite toposort_loop_unfold; case_decide as Hord; eauto.
  - destruct data; [|simpl in Hlen; lia]. done.
  - destruct (IH (toposort_remove (toposort_ordered data) data)) as [r Hr].
    { pose proof (toposort_remove_length _ Hord). lia. }
    rewrite Hr. simpl. eauto.
Qed.

Lemma toposort_remove_closed ordered data :
  closed data → closed (toposort_remove ordered data).
Proof.
  intros Hcl u dep' v (dep & Hin & Hu & ->)%elem_of_toposort_remove
    [Hv Hvo]%list_elem_of_difference.
  rewrite toposort_remove_keys. apply list_elem_of_filter. split; [done|].
  by eapply Hcl.
Qed.

(** The layers of a successful run list every item once, each after its
    dependencies. *)
Lemma toposort_loop_sound fuel data layers :
  NoDup data.*1 → closed data →
  toposort_loop fuel data = Some (Ok layers) →
  NoDup (concat layers)
  ∧ (∀ x, x ∈ concat layers ↔ x ∈ data.*1)
  ∧ (∀ u dep v, (u, dep) ∈ data → v ∈ dep → precedes (concat layers) v u).
Proof.
  revert data layers. induction fuel as [|fuel IH]; intros data layers Hnd Hcl;
    rewrite toposort_loop_unfold; case_decide as Hord.
  1,3: case_decide as Hlen; [by intros [=]|]; intros [= <-];
       (destruct data; [|by simpl in Hlen]); simpl;
       (split_and!; [constructor|done|]); by intros ??? ?%elem_of_nil.
  - done.
  - clear Hord.
    set (ordered := toposort_ordered data) in *.
    destruct (toposort_loop fuel (toposort_remove ordered data))
      as [[layers'|]|] eqn:Hrec; simpl; [|done|done].
    intros [= <-].
    destruct (IH _ _ (eq_ind_r NoDup (NoDup_filter _ _ Hnd)
                        (toposort_remove_keys ordered data))
                (toposort_remove_closed _ _ Hcl) Hrec)
      as (Hnd' & Hmem & Hprec).
    assert (Hkeys' : ∀ x, x ∈ concat layers' ↔ x ∈ data.*1 ∧ x ∉ ordered).
    { intros x. rewrite Hmem, toposort_remove_keys, list_elem_of_filter.
      naive_solver. }
    assert (Hord_keys : ∀ x, x ∈ ordered → x ∈ data.*1).
    { intros x Hx%elem_of_toposort_ordered.
      apply list_elem_of_fmap. by exists (x, []). }
    simpl. split_and!.
    + apply NoDup_app. split_and!; [|by intros x ? [_ ?]%Hkeys'|done].
      by apply filter_keys_NoDup.
    + intros x. rewrite elem_of_app, Hkeys'. split; [naive_solver|].
      intros Hx. destruct (decide (x ∈ ordered)); eauto.
    + intros u dep v Hin Hv.
      assert (u ∉ ordered) as Hu.
      { intros Hu%elem_of_toposort_ordered.
        assert (dep = []) as ->; [|by apply elem_of_nil in Hv].
        apply (dict_elem_get _ _ _ Hnd) in Hin, Hu. congruence. }
      assert (u ∈ concat layers') as Hu'.
      { apply Hkeys'. split; [|done]. apply list_elem_of_fmap. by exists (u, dep). }
      destruct (decide (v ∈ ordered)) as [Hvo|Hvo].
      * by apply precedes_app_split.
      * apply precedes_app_r. eapply Hprec.
        -- apply elem_of_toposort_remove. by exists dep.
        -- by apply list_elem_of_difference.
Qed.

(** A list that is not empty has an element of least rank. *)
Lemma least_rank {B : Type} (rank : B → nat) (l : list B) :
  l ≠ [] → ∃ x, x ∈ l ∧ ∀ y, y ∈ l → (rank x ≤ rank y)%nat.
Proof.
  induction l as [|x l IH]; [done|]. intros _.
  destruct l as [|x' l].
  { exists x. split; [by left|]. by intros y ->%list_elem_of_singleton. }
  destruct IH as (m & Hm & Hleast); [done|].
  destruct (decide (rank x ≤ rank m)%nat).
  - exists x. split; [by left|]. intros y [->|Hy]%elem_of_cons; [done|].
    specialize (Hleast y Hy). lia.
  - exists m. split; [by right|]. intros y [->|Hy]%elem_of_cons; [lia|].
    by apply Hleast.
Qed.

(** A failing run fails with a circular dependency, and no ranking of the
    items decreases along every dependency. *)
Lemma toposort_loop_complete fuel data e (rank : A → nat) :
  closed data →
  toposort_loop fuel data = Some (Raise e) →
  e = CircularDependencyError
  ∧ ¬ (∀ u dep v, (u, dep) ∈ data → v ∈ dep → (rank v < rank u)%nat).
Proof.
  revert data. induction fuel as [|fuel IH]; intros data Hcl;
    rewrite toposort_loop_unfold; case_decide as Hord.
  1,3: case_decide as Hlen; [|done]; intros [= <-]; split; [done|];
       intros Hrank;
       destruct (least_rank (λ kv : A * list A, rank kv.1) data)
         as ([u dep] & Hin & Hleast); [by destruct data|];
       destruct dep as [|v dep];
       [ assert (u ∈ toposort_ordered data) as Hu
           by (by apply elem_of_toposort_ordered);
         rewrite Hord in Hu; by apply elem_of_nil in Hu |];
       assert (v ∈ data.*1) as ([v' depv] & Heq & Hv)%list_elem_of_fmap
         by (eapply Hcl; [exact Hin|by left]);
       simpl in Heq; subst v';
       specialize (Hleast _ Hv); simpl in Hleast;
       specialize (Hrank u (v :: dep) v Hin (list_elem_of_here _ _)); lia.
  - done.
  - destruct (toposort_loop fuel (toposort_remove (toposort_ordered data) data))
      as [[layers'|e']|] eqn:Hrec; simpl; [done| |done].
    intros [= <-].
    destruct (IH _ (toposort_remove_closed _ _ Hcl) Hrec) as [-> Hno].
    split; [done|]. intros Hrank. apply Hno.
    intros u dep' v (dep & Hin & Hu & ->)%elem_of_toposort_remove
      [Hv _]%list_elem_of_difference.
    by eapply Hrank.
Qed.

(** What the loop starts from: the items of [data] without their
    dependencies on themselves, then the items that only occur as a
    dependency. *)
Lemma toposort_prepare_spec data :
  NoDup data.*1 →
  ∃ extra,
    toposort_prepare data
    = ((λ kv : A * list A, (kv.1, filter (λ e, e ≠ kv.1) kv.2)) <$> data)
      ++ ((λ item, (item, [])) <$> extra)
    ∧ NoDup (data.*1 ++ extra)
    ∧ ∀ x, x ∈ extra ↔ (x ∉ data.*1) ∧ ∃ u dep, (u, dep) ∈ data ∧ x ∈ dep ∧ x ≠ u.
Proof.
  intros Hnd. unfold toposort_prepare.
  set (data0 := (λ kv : A * list A, (kv.1, filter (λ e, e ≠ kv.1) kv.2)) <$> data).
  assert (Hkeys0 : data0.*1 = data.*1).
  { unfold data0. rewrite <- list_fmap_compose. by apply list_fmap_ext. }
  set (extra := list_difference (remove_dups (concat (dict_values data0)))
                  (dict_keys data0)).
  assert (Hextra_keys : ((λ item : A, (item, @nil A)) <$> extra).*1 = extra).
  { rewrite <- list_fmap_compose. simpl. apply list_fmap_id. }
  assert (Hextra : ∀ x, x ∈ extra
            ↔ (x ∉ data.*1) ∧ ∃ u dep, (u, dep) ∈ data ∧ x ∈ dep ∧ x ≠ u).
  { intros x. unfold extra, dict_keys, dict_values.
    rewrite list_elem_of_difference, elem_of_remove_dups, Hkeys0, elem_of_concat.
    split.
    - intros [(dep' & Hx & ([u dep0] & -> & ([u' dep] & [= -> ->] & Hin)
                 %list_elem_of_fmap)%list_elem_of_fmap) Hnk].
      simpl in Hx. apply list_elem_of_filter in Hx as [Hne Hx].
      split; [done|]. by exists u', dep.
    - intros [Hnk (u & dep & Hin & Hx & Hne)]. split; [|done].
      exists (filter (λ e, e ≠ u) dep). split.
      + by apply list_elem_of_filter.
      + apply list_elem_of_fmap. exists (u, filter (λ e, e ≠ u) dep).
        split; [done|]. apply list_elem_of_fmap. by exists (u, dep). }
  assert (Hnd_extra : NoDup extra).
  { apply NoDup_list_difference, NoDup_remove_dups. }
  exists extra. split_and!; [|by apply NoDup_app; split_and!;
                               [|intros x ? [? _]%Hextra|]|done].
  apply dict_update_fresh.
  - by rewrite Hextra_keys.
  - rewrite Hextra_keys, Hkeys0. by intros x [? _]%Hextra.
Qed.

(** [toposort]: a successful run lists every item and every dependency
    once, each item after the dependencies other than itself; a failing
    run raises a circular dependency, and then no ranking decreases along
    every dependency on another item. *)
Lemma toposort_spec data :
  NoDup data.*1 →
  match toposort data with
  | Ok layers =>
      NoDup (concat layers)
      ∧ (∀ x, x ∈ concat layers
              ↔ x ∈ data.*1 ∨ ∃ u dep, (u, dep) ∈ data ∧ x ∈ dep)
      ∧ (∀ u dep v, (u, dep) ∈ data → v ∈ dep → v ≠ u →
                    precedes (concat layers) v u)
  | Raise e =>
      e = CircularDependencyError
      ∧ ∀ rank : A → nat,
          ¬ (∀ u dep v, (u, dep) ∈ data → v ∈ dep → v ≠ u →
                        (rank v < rank u)%nat)
  end.
Proof.
  intros Hnd. unfold toposort. case_decide as Hlen.
  { destruct data; [|done]. simpl. split_and!; [constructor| |].
    - intros x. rewrite elem_of_nil. split; [done|].
      by intros [[]|(? & ? & []%elem_of_nil & _)].
    - by intros ??? ?%elem_of_nil. }
  destruct (toposort_prepare_spec data Hnd) as (extra & Hprep & Hnd' & Hextra).
  set (data0 := (λ kv : A * list A, (kv.1, filter (λ e, e ≠ kv.1) kv.2)) <$> data)
    in Hprep.
  assert (Hkeys0 : data0.*1 = data.*1).
  { unfold data0. rewrite <- list_fmap_compose. by apply list_fmap_ext. }
  assert (Hextra_keys : ((λ item : A, (item, @nil A)) <$> extra).*1 = extra).
  { rewrite <- list_fmap_compose. simpl. apply list_fmap_id. }
  assert (Hkeys : (toposort_prepare data).*1 = data.*1 ++ extra).
  { by rewrite Hprep, fmap_app, Hkeys0, Hextra_keys. }
  assert (Helem : ∀ u dep', (u, dep') ∈ toposort_prepare data ↔
            (∃ dep, (u, dep) ∈ data ∧ dep' = filter (λ e, e ≠ u) dep)
            ∨ (u ∈ extra ∧ dep' = [])).
  { intros u dep'. rewrite Hprep, elem_of_app. unfold data0.
    rewrite !list_elem_of_fmap. split.
    - intros [([u0 dep] & [= -> ->] & Hin)|(x & [= -> ->] & Hx)]; eauto.
    - intros [(dep & Hin & ->)|[Hx ->]]; [left|right].
      + by exists (u, dep).
      + by exists u. }
  assert (Hclosed : closed (toposort_prepare data)).
  { intros u dep' v [(dep & Hin & ->)|[_ ->]]%Helem Hv;
      [|by apply elem_of_nil in Hv].
    apply list_elem_of_filter in Hv as [Hne Hv].
    rewrite Hkeys, elem_of_app.
    destruct (decide (v ∈ data.*1)); [by left|right].
    apply Hextra. split; [done|]. by exists u, dep. }
  pose proof (toposort_loop_fuel (length (toposort_prepare data))
                (toposort_prepare data) (le_n _)) as [r Hr].
  rewrite Hr. destruct r as [layers|e].
  - apply toposort_loop_sound in Hr as (Hnd_l & Hmem & Hprec);
      [|by rewrite Hkeys|done].
    split_and!; [done| |].
    + intros x. rewrite Hmem, Hkeys, elem_of_app, Hextra. split.
      * intros [?|[_ (u & dep & ? & ? & _)]]; eauto.
      * intros [?|(u & dep & Hin & Hx)]; [by left|].
        destruct (decide (x ∈ data.*1)); [by left|right].
        split; [done|]. exists u, dep. split_and!; [done..|].
        intros ->. apply n. apply list_elem_of_fmap. by exists (u, dep).
    + intros u dep v Hin Hv Hne. eapply Hprec.
      * apply Helem. left. by exists dep.
      * by apply list_elem_of_filter.
  - intros. split.
    + by eapply (toposort_loop_complete _ _ _ (λ _, 0)).
    + intros rank Hrank.
      eapply (toposort_loop_complete _ _ _ rank); [exact Hclosed|exact Hr|].
      intros u dep' v [(dep & Hin & ->)|[_ ->]]%Helem Hv;
        [|by apply elem_of_nil in Hv].
      apply list_elem_of_filter in Hv as [Hne Hv]. by eapply Hrank.
Qed.

End toposort_facts.

(** ** The cycle detector *)

Lemma elem_of_set_add {A : Type} `{EqDecision A} (s : list A) (x v : A) :
  v ∈ set_add s x ↔ v = x ∨ v ∈ s.
Proof.
  unfold set_add. case_bool_decide.
  - naive_solver.
  - rewrite elem_of_app, list_elem_of_singleton. naive_solver.
Qed.

Section Cycles.
Implicit Types (deps : dict node_key (dict string IDependencyDefinition)).
Implicit Types (nd : dict node_key (list node_key)).

(** The inner loop collects the upstream nodes of one node. *)
Lemma record_upstreams_spec (u : node_key) (vals : list IDependencyDefinition) nd s0 :
  dict_get nd u = Some s0 →
  (∀ dep, dep ∈ vals → ∃ node out, dep = DependencyDefinition node out) →
  ∃ nd' s,
    foldM (record_upstream u) nd vals = Ok nd'
    ∧ nd'.*1 = nd.*1
    ∧ dict_get nd' u = Some s
    ∧ (∀ v, v ∈ s ↔ v ∈ s0 ∨ ∃ node out,
                DependencyDefinition node out ∈ vals ∧ v = NodeName node)
    ∧ (∀ u', u' ≠ u → dict_get nd' u' = dict_get nd u').
Proof.
  revert nd s0. induction vals as [|dep vals IH]; intros nd s0 Hu Hdd.
  { exists nd, s0. split_and!; try done. intros v. split; [by left|].
    by intros [?|(? & ? & []%elem_of_nil & _)]. }
  destruct (Hdd dep) as (node & out & ->); [by left|].
  simpl. unfold dict_getitem. rewrite Hu. simpl.
  destruct (IH (dict_set nd u (set_add s0 (NodeName node)))
              (set_add s0 (NodeName node)))
    as (nd' & s & Hfold & Hkeys & Hget & Hs & Hframe).
  { apply dict_get_set_eq. }
  { intros d Hd. apply Hdd. by right. }
  exists nd', s. split_and!; [done| |done| |].
  - rewrite Hkeys, dict_set_keys. rewrite decide_True; [done|].
    apply dict_get_is_Some. eauto.
  - intros v. rewrite Hs, elem_of_set_add. split.
    + intros [[->|?]|(n & o & Hin & ->)]; eauto.
      * right. exists node, out. split; [by left|done].
      * right. exists n, o. split; [by right|done].
    + intros [?|(n & o & [[= -> ->]|Hin]%elem_of_cons & ->)]; eauto.
  - intros u' Hne. rewrite Hframe by done. by apply dict_get_set_ne.
Qed.

(** The outer loop: every node of [deps] gets the set of the nodes its
    dependencies name. *)
Lemma record_nodes_spec deps nd :
  NoDup deps.*1 → (∀ u, u ∈ deps.*1 → u ∉ nd.*1) →
  only_dependency_definitions deps →
  ∃ nd',
    foldM record_node nd deps = Ok nd'
    ∧ nd'.*1 = nd.*1 ++ deps.*1
    ∧ (∀ u inner, (u, inner) ∈ deps →
         ∃ s, dict_get nd' u = Some s
              ∧ ∀ v, v ∈ s ↔ ∃ input_name node out,
                       (input_name, DependencyDefinition node out) ∈ inner
                       ∧ v = NodeName node)
    ∧ (∀ u, u ∉ deps.*1 → dict_get nd' u = dict_get nd u).
Proof.
  revert nd. induction deps as [|[u0 inner0] deps IH]; intros nd Hnd Hfresh Hdd.
  { exists nd. rewrite app_nil_r. split_and!; try done.
    by intros ?? ?%elem_of_nil. }
  rewrite fmap_cons in Hnd. apply NoDup_cons in Hnd as [Hu0 Hnd].
  simpl in Hu0. simpl.
  destruct (record_upstreams_spec u0 (dict_values inner0)
              (dict_set nd u0 []) [])
    as (nd1 & s1 & Hfold1 & Hkeys1 & Hget1 & Hs1 & Hframe1).
  { apply dict_get_set_eq. }
  { intros dep ([n d] & -> & Hin)%list_elem_of_fmap.
    eapply Hdd; [by left|exact Hin]. }
  rewrite Hfold1. simpl.
  assert (Hkeys1' : nd1.*1 = nd.*1 ++ [u0]).
  { rewrite Hkeys1, dict_set_keys. rewrite decide_False; [done|].
    apply Hfresh. by left. }
  destruct (IH nd1 Hnd) as (nd' & Hfold & Hkeys & Hnodes & Hframe).
  { intros u Hu. rewrite Hkeys1', elem_of_app, list_elem_of_singleton.
    intros [? | ->]; [|done]. eapply Hfresh; [by right|done]. }
  { intros nk inner n d Hin. eapply Hdd. by right. }
  exists nd'. split_and!; [done| | |].
  - rewrite Hkeys, Hkeys1', <- app_assoc. done.
  - intros u inner [[= -> ->]|Hin]%elem_of_cons.
    + exists s1. split; [by rewrite Hframe|]. intros v. rewrite Hs1.
      rewrite elem_of_nil. split.
      * intros [[]|(node & out & ([n d] & Heq & Hin)%list_elem_of_fmap & ->)].
        simpl in Heq. subst d. by exists n, node, out.
      * intros (n & node & out & Hin & ->). right. exists node, out.
        split; [|done]. apply list_elem_of_fmap.
        by exists (n, DependencyDefinition node out).
    + by apply Hnodes.
  - intros u [Hne Hu]%not_elem_of_cons. rewrite Hframe by done.
    rewrite Hframe1 by done. by apply dict_get_set_ne.
Qed.

Lemma tc_decreases {A : Type} (R : relation A) (rank : A → nat) x y :
  (∀ x y, R x y → (rank y < rank x)%nat) → tc R x y → (rank y < rank x)%nat.
Proof.
  intros HR. induction 1 as [x y Hxy|x y z Hxy _ IH].
  - by apply HR.
  - specialize (HR _ _ Hxy). lia.
Qed.

(** C2, as amended.  For a dependency dictionary whose nodes are all
    registered under their plain names, [_has_cycles] returns a boolean; it
    returns false exactly when the unit-level graph, with the dependencies
    of a unit on itself disregarded, has a topological ordering, and true
    exactly when it has none; in particular it returns true whenever the
    graph has a directed cycle through at least two units. *)
Theorem has_cycles_spec deps :
  NoDup deps.*1 → plain_names deps → only_dependency_definitions deps →
  (∃ b, _has_cycles deps = Ok b)
  ∧ (_has_cycles deps = Ok false
     ↔ ∃ order, topological_ordering_up_to_self deps order)
  ∧ (_has_cycles deps = Ok true
     ↔ ¬ ∃ order, topological_ordering_up_to_self deps order)
  ∧ (has_proper_cycle deps → _has_cycles deps = Ok true).
Proof.
  intros Hnd Hplain Hdd.
  destruct (record_nodes_spec deps [] Hnd) as (nd & Hfold & Hkeys & Hnodes & _);
    [by intros ? _ ?%elem_of_nil|done|].
  simpl in Hkeys.
  assert (Hnd' : NoDup nd.*1) by (by rewrite Hkeys).
  assert (Hedge : ∀ u dep v, (u, dep) ∈ nd → v ∈ dep →
            ∃ n inner input_name node out,
              u = NodeName n ∧ v = NodeName node ∧ (u, inner) ∈ deps
              ∧ (input_name, DependencyDefinition node out) ∈ inner).
  { intros u dep v Hin Hv.
    assert (u ∈ deps.*1) as ([u' inner] & Heq & Hdeps)%list_elem_of_fmap.
    { rewrite <- Hkeys. apply list_elem_of_fmap. by exists (u, dep). }
    simpl in Heq. subst u'.
    destruct (Hnodes _ _ Hdeps) as (s & Hs & Hmem).
    apply (dict_elem_get _ _ _ Hnd') in Hin. rewrite Hs in Hin.
    injection Hin as Heq'. subst dep.
    destruct (proj1 (Hmem v) Hv) as (n' & node & out & Hinner & Heqv). subst v.
    destruct (Hplain _ _ Hdeps) as [n Heqn]. subst u.
    by exists n, inner, n', node, out. }
  assert (Horder_no_cycle : ∀ order,
            topological_ordering_up_to_self deps order →
            ∀ u v, unit_depends_on deps u v ∧ u ≠ v →
                   (index_of v order < index_of u order)%nat).
  { intros order (Hnd_o & _ & Hprec) u v [Hdep Hne].
    apply precedes_index_of; [done|]. by apply Hprec. }
  unfold _has_cycles, build_node_deps_sets. rewrite Hfold. simpl.
  pose proof (toposort_spec nd Hnd') as Hts.
  destruct (toposort nd) as [layers|e]; simpl.
  - destruct Hts as (Hnd_l & Hmem & Hprec).
    assert (Hnames : ∀ x, x ∈ concat layers → ∃ n, x = NodeName n).
    { intros x [Hx|(u & dep & Hin & Hx)]%Hmem.
      - rewrite Hkeys in Hx.
        apply list_elem_of_fmap in Hx as ([x' inner] & -> & Hin).
        by eapply Hplain.
      - destruct (Hedge _ _ _ Hin Hx) as (? & ? & ? & node & ? & _ & -> & _).
        by exists node. }
    assert (Hord : topological_ordering_up_to_self deps
                     (unit_name <$> concat layers)).
    { split_and!.
      - apply NoDup_fmap_2_strong; [|done].
        intros x y [nx ->]%Hnames [ny ->]%Hnames. simpl. by intros ->.
      - intros u [(nk & inner & Hin & <-)|(w & nk & inner & n & o & Hin & _ & Hd)].
        + apply list_elem_of_fmap_2, Hmem. left. rewrite Hkeys.
          apply list_elem_of_fmap. by exists (nk, inner).
        + destruct (Hnodes _ _ Hin) as (s & Hs & Hsmem).
          apply (list_elem_of_fmap_2' _ _ (NodeName u)); [|done].
          apply Hmem. right. exists nk, s. split.
          * by apply dict_get_Some_elem.
          * apply Hsmem. by exists n, u, o.
      - intros u v (nk & inner & n & o & Hin & <- & Hd) Hne.
        destruct (Hplain _ _ Hin) as [nu ->]. simpl in *.
        destruct (Hnodes _ _ Hin) as (s & Hs & Hsmem).
        apply (precedes_fmap unit_name _ (NodeName v) (NodeName nu)).
        eapply Hprec.
        + by apply dict_get_Some_elem.
        + apply Hsmem. by exists n, v, o.
        + congruence. }
    split_and!; [by eauto| | |].
    + split; [by eauto|done].
    + split; [done|]. intros Hno. destruct Hno. eauto.
    + intros [u Hcyc]. exfalso.
      pose proof (tc_decreases _ (λ x, index_of x (unit_name <$> concat layers))
                    _ _ (Horder_no_cycle _ Hord) Hcyc). lia.
  - destruct Hts as [-> Hno].
    assert (Hnone : ¬ ∃ order, topological_ordering_up_to_self deps order).
    { intros [order Hord].
      apply (Hno (λ k, index_of (unit_name k) order)).
      intros u dep v Hin Hv Hne.
      destruct (Hedge _ _ _ Hin Hv)
        as (n & inner & input_name & node & out & -> & -> & Hdeps & Hinner).
      simpl. apply (Horder_no_cycle _ Hord). split; [|congruence].
      by exists (NodeName n), inner, input_name, out. }
    split_and!; [by eauto| | |done].
    + split; [done|]. intros Hex. by destruct Hnone.
    + done.
Qed.

End Cycles.

(** ** Sorting and determinism *)

Section compare_facts.
Context {B : Type} (cmp : B → B → comparison) `{!CompareOrder cmp}.

Lemma compare_refl a : cmp a a = Eq.
Proof.
  pose proof (compare_antisym (cmp:=cmp) a a) as Hanti.
  destruct (cmp a a); simpl in Hanti; congruence.
Qed.

Lemma compare_le_trans a b c : cmp a b ≠ Gt → cmp b c ≠ Gt → cmp a c ≠ Gt.
Proof.
  destruct (cmp a b) eqn:Hab; [| |done]; destruct (cmp b c) eqn:Hbc; try done.
  - apply (compare_eq (cmp:=cmp)) in Hab as ->. by rewrite Hbc.
  - apply (compare_eq (cmp:=cmp)) in Hab as ->. by rewrite Hbc.
  - apply (compare_eq (cmp:=cmp)) in Hbc as ->. by rewrite Hab.
  - by rewrite (compare_lt_trans (cmp:=cmp) _ _ _ Hab Hbc).
Qed.

Lemma compare_le_antisym a b : cmp a b ≠ Gt → cmp b a ≠ Gt → a = b.
Proof.
  rewrite (compare_antisym (cmp:=cmp) b a). destruct (cmp a b) eqn:Hab; simpl; try done.
  intros _ _. by apply (compare_eq (cmp:=cmp)).
Qed.

#[global] Instance list_compare_order : CompareOrder (list_compare cmp).
Proof.
  split.
  - induction a as [|x a IH]; intros [|y b]; simpl; try done.
    rewrite (compare_antisym (cmp:=cmp) x y), IH. by destruct (cmp y x).
  - induction a as [|x a IH]; intros [|y b]; simpl; try done.
    destruct (cmp x y) eqn:Hxy; try done.
    intros ->%IH. by apply (compare_eq (cmp:=cmp)) in Hxy as ->.
  - induction a as [|x a IH]; intros [|y b] [|z c]; simpl; try done.
    destruct (cmp x y) eqn:Hxy; try done.
    + apply (compare_eq (cmp:=cmp)) in Hxy as ->. destruct (cmp y z); try done. apply IH.
    + destruct (cmp y z) eqn:Hyz; try done.
      * apply (compare_eq (cmp:=cmp)) in Hyz as ->. by rewrite Hxy.
      * by rewrite (compare_lt_trans (cmp:=cmp) _ _ _ Hxy Hyz).
Qed.

Context {A : Type} (key : A → B).

(** [sorted] sorts. *)
Lemma sorted_insert_StronglySorted x l :
  StronglySorted (key_le cmp key) l →
  StronglySorted (key_le cmp key) (sorted_insert cmp key x l).
Proof.
  induction 1 as [|y l Hl IH Hy]; simpl.
  { repeat constructor. }
  destruct (cmp (key y) (key x)) eqn:Hyx.
  - constructor; [by constructor|]. constructor.
    + unfold key_le. rewrite (compare_antisym (cmp:=cmp)), Hyx. done.
    + eapply Forall_impl; [exact Hy|]. intros z Hz. unfold key_le in *.
      eapply compare_le_trans; [|exact Hz].
      rewrite (compare_antisym (cmp:=cmp)), Hyx. done.
  - constructor; [done|].
    rewrite (sorted_insert_Permutation cmp key x l). constructor; [|done].
    unfold key_le. by rewrite Hyx.
  - constructor; [by constructor|]. constructor.
    + unfold key_le. rewrite (compare_antisym (cmp:=cmp)), Hyx. done.
    + eapply Forall_impl; [exact Hy|]. intros z Hz. unfold key_le in *.
      eapply compare_le_trans; [|exact Hz].
      rewrite (compare_antisym (cmp:=cmp)), Hyx. done.
Qed.

Lemma sorted_StronglySorted l : StronglySorted (key_le cmp key) (sorted cmp key l).
Proof.
  induction l as [|x l IH]; [constructor|].
  by apply sorted_insert_StronglySorted.
Qed.

(** Lists with the same elements and pairwise different keys sort to the
    same list. *)
Lemma sorted_Permutation_eq l1 l2 :
  l1 ≡ₚ l2 →
  (∀ x y, x ∈ l1 → y ∈ l1 → key x = key y → x = y) →
  sorted cmp key l1 = sorted cmp key l2.
Proof.
  intros Hperm Hinj.
  apply (StronglySorted_unique_strong (key_le cmp key)).
  - intros x y Hx Hy Hxy Hyx. apply Hinj.
    + by rewrite <- (sorted_Permutation cmp key l1).
    + by rewrite Hperm, <- (sorted_Permutation cmp key l2).
    + by apply (compare_le_antisym _ _ Hxy Hyx).
  - apply sorted_StronglySorted.
  - apply sorted_StronglySorted.
  - by rewrite !sorted_Permutation.
Qed.

End compare_facts.

#[global] Instance String_compare_order : CompareOrder String.compare.
Proof.
  split.
  - apply String.compare_antisym.
  - apply String.compare_eq_iff.
  - intros a b c Hab%String_as_OT.cmp_lt Hbc%String_as_OT.cmp_lt.
    apply String_as_OT.cmp_lt. by eapply String_as_OT.lt_trans.
Qed.

Lemma NoDup_concat_fmap_inj {A C : Type} (f : A → list C) (l : list A) x y k :
  NoDup (concat (f <$> l)) → x ∈ l → y ∈ l → k ∈ f x → k ∈ f y → x = y.
Proof.
  induction l as [|z l IH]; [by intros _ ?%elem_of_nil|].
  rewrite fmap_cons. simpl. intros (Hz & Hdisj & Hnd)%NoDup_app.
  assert (Hin : ∀ w, w ∈ l → k ∈ f w → k ∈ concat (f <$> l)).
  { intros w Hw Hk. apply elem_of_concat. exists (f w).
    split; [done|]. by apply list_elem_of_fmap_2. }
  intros [->|Hx]%elem_of_cons [->|Hy]%elem_of_cons Hkx Hky; eauto.
  - destruct (Hdisj k Hkx). eauto.
  - destruct (Hdisj k Hky). eauto.
Qed.

Section Determinism.
Context {PartitionsDefinition ResourceDefinition : Type}.
Context `{EqDecision PartitionsDefinition, EqDecision ResourceDefinition}.
Variable to_string : AssetKey → string.
Local Abbreviation AssetsDef := (@AssetsDefinition PartitionsDefinition ResourceDefinition).
Local Abbreviation Source := (@SourceAsset ResourceDefinition).

(** Definitions with the same sorting key share their output keys. *)
Lemma sort_key_inj (assets_defs : list AssetsDef) x y :
  unique_producers assets_defs →
  x ∈ assets_defs → y ∈ assets_defs → sort_key x = sort_key y → x = y.
Proof.
  intros [Hne Hnd] Hx Hy Hkey.
  destruct (keys x) as [|k ks] eqn:Hkx; [by destruct (Hne x Hx)|].
  assert (k ∈ keys x) as Hk by (rewrite Hkx; by left).
  assert (k ∈ keys y) as Hk'.
  { rewrite <- (sorted_Permutation AssetKey_compare id (keys y)).
    fold (sort_key y). rewrite <- Hkey. unfold sort_key.
    by rewrite sorted_Permutation. }
  by eapply (NoDup_concat_fmap_inj keys).
Qed.

(** For definitions with an output key each and no key produced twice, the
    sorted list does not depend on the order of supply. *)
Lemma sorted_defs_Permutation (assets_defs assets_defs' : list AssetsDef) :
  assets_defs ≡ₚ assets_defs' → unique_producers assets_defs →
  sorted (list_compare AssetKey_compare) sort_key assets_defs
  = sorted (list_compare AssetKey_compare) sort_key assets_defs'.
Proof.
  intros Hperm Huniq.
  apply (sorted_Permutation_eq (list_compare AssetKey_compare) sort_key
           assets_defs assets_defs' Hperm).
  intros x y. by apply sort_key_inj.
Qed.

End Determinism.

(** ** The cycle resolver *)

Section CycleResolver.
Context {PartitionsDefinition ResourceDefinition : Type}.
Context `{EqDecision PartitionsDefinition, EqDecision ResourceDefinition}.
Variable to_string : AssetKey → string.
Local Abbreviation AssetsDef := (@AssetsDefinition PartitionsDefinition ResourceDefinition).
Implicit Types (downstream : dict string (list string)).
Implicit Types (by_name : dict string AssetsDef) (colors : dict string Z).

Lemma _dfs_unfold fuel downstream by_name name cur_color colors :
  _dfs (S fuel) downstream by_name name cur_color colors
  = match dict_getitem downstream name with
    | Raise e => Some (Raise e)
    | Ok downstream_names =>
        foldl (dfs_step (_dfs fuel downstream by_name) by_name name cur_color)
              (Some (Ok (dict_set colors name cur_color))) downstream_names
    end.
Proof. done. Qed.

Lemma foldl_dfs_step_None rec by_name name cur_color names :
  foldl (dfs_step rec by_name name cur_color) None names = None.
Proof. by induction names. Qed.

Lemma foldl_dfs_step_mono
  (rec rec' : string → Z → dict string Z → option (result (dict string Z)))
  by_name name cur_color names acc r :
  (∀ n c colors r, rec n c colors = Some r → rec' n c colors = Some r) →
  foldl (dfs_step rec by_name name cur_color) acc names = Some r →
  foldl (dfs_step rec' by_name name cur_color) acc names = Some r.
Proof.
  intros Hrec. revert acc. induction names as [|n names IH]; intros acc; [done|].
  simpl. intros Hfold.
  destruct (dfs_step rec by_name name cur_color acc n) as [x|] eqn:Hstep;
    [|by rewrite foldl_dfs_step_None in Hfold].
  assert (dfs_step rec' by_name name cur_color acc n = Some x) as ->; [|by apply IH].
  unfold dfs_step in *. destruct acc as [[colors|]|]; try done.
  case_decide; [by apply Hrec|done].
Qed.

(** More fuel does not change a colouring that was completed. *)
Lemma _dfs_fuel_S fuel downstream by_name name cur_color colors r :
  _dfs fuel downstream by_name name cur_color colors = Some r →
  _dfs (S fuel) downstream by_name name cur_color colors = Some r.
Proof.
  revert name cur_color colors r.
  induction fuel as [|fuel IH]; intros name cur_color colors r; [done|].
  rewrite !_dfs_unfold. destruct (dict_getitem downstream name); [|done].
  apply foldl_dfs_step_mono. intros n c cs r'. apply IH.
Qed.

Lemma _dfs_fuel_le fuel fuel' downstream by_name name cur_color colors r :
  (fuel ≤ fuel')%nat →
  _dfs fuel downstream by_name name cur_color colors = Some r →
  _dfs fuel' downstream by_name name cur_color colors = Some r.
Proof.
  induction 1 as [|fuel' _ IH]; [done|]. intros Hr. by apply _dfs_fuel_S, IH.
Qed.

Lemma color_from_roots_fuel_le fuel fuel' downstream by_name roots r :
  (fuel ≤ fuel')%nat →
  color_from_roots fuel downstream by_name roots = Some r →
  color_from_roots fuel' downstream by_name roots = Some r.
Proof.
  intros Hle. unfold color_from_roots.
  generalize (Some (Ok ([] : dict string Z))).
  induction roots as [|root roots IH]; intros acc; [done|].
  simpl. intros Hfold.
  destruct acc as [[colors|e]|]; [|by apply IH..].
  destruct (_dfs fuel downstream by_name root 0 colors) as [x|] eqn:Hdfs.
  - rewrite (_dfs_fuel_le _ _ _ _ _ _ _ _ Hle Hdfs). by apply IH.
  - exfalso. clear -Hfold. induction roots; [done|]. simpl in Hfold. eauto.
Qed.

Lemma _attempt_resolve_cycles_fuel_le fuel fuel' (assets_defs : list AssetsDef) r :
  (fuel ≤ fuel')%nat →
  _attempt_resolve_cycles fuel assets_defs = Some r →
  _attempt_resolve_cycles fuel' assets_defs = Some r.
Proof.
  intros Hle. unfold _attempt_resolve_cycles.
  destruct (generate_asset_dep_graph assets_defs) as [[upstream downstream]|];
    [|done].
  destruct (toposort upstream) as [[|roots layers]|]; [done| |done].
  destruct (color_from_roots fuel downstream (index_by_asset_name assets_defs) roots)
    as [x|] eqn:Hcol; [|done].
  by rewrite (color_from_roots_fuel_le _ _ _ _ _ _ Hle Hcol).
Qed.

(** C3. For the cross cycle of the two subsettable definitions [A]
    (outputs [a1], [a2]) and [B] (outputs [b1], [b2]), with [b1] computed
    from [a1] and [a2] from [b2]: the unit-level graph of [A] and [B] is
    reported cyclic, and with fuel for a recursion of depth two the
    resolver returns subsets of [A] and [B] only, neither [A] nor [B]
    itself, whose output keys are the four original keys, each once, and
    whose unit-level graph has a topological ordering and is reported
    acyclic. *)
Theorem cross_cycle_resolved (fuel : nat) :
  (2 ≤ fuel)%nat →
  let A : AssetsDef := Examples.cross_A in
  let B : AssetsDef := Examples.cross_B in
  (∃ deps handles ih,
     build_node_deps to_string [A; B] [] = Ok (deps, handles, ih)
     ∧ _has_cycles deps = Ok true)
  ∧ ∃ resolved,
      _attempt_resolve_cycles fuel [A; B] = Some (Ok resolved)
      ∧ ((A ∉ resolved) ∧ (B ∉ resolved))
      ∧ (∀ ad, ad ∈ resolved →
               ∃ selected, ad = subset_for A selected ∨ ad = subset_for B selected)
      ∧ concat (keys <$> resolved) ≡ₚ keys A ++ keys B
      ∧ NoDup (concat (keys <$> resolved))
      ∧ ∃ deps' handles' ih',
          build_node_deps to_string resolved [] = Ok (deps', handles', ih')
          ∧ _has_cycles deps' = Ok false
          ∧ ∃ order, topological_ordering deps' order.
Proof.
  intros Hfuel A B. split.
  { eexists _, _, _. split; [vm_compute; reflexivity|]. vm_compute. reflexivity. }
  exists [subset_for A [Examples.a1]; subset_for A [Examples.a2];
          subset_for B [Examples.b1]; subset_for B [Examples.b2]].
  split_and!.
  - apply (_attempt_resolve_cycles_fuel_le 2 fuel _ _ Hfuel).
    vm_compute. reflexivity.
  - rewrite !not_elem_of_cons. split_and!; try apply not_elem_of_nil;
      by intros [=].
  - rewrite !not_elem_of_cons. split_and!; try apply not_elem_of_nil;
      by intros [=].
  - intros ad Hin. repeat (apply elem_of_cons in Hin as [->|Hin]); eauto.
    by apply elem_of_nil in Hin.
  - done.
  - vm_compute. repeat (apply NoDup_cons; split; [rewrite ?not_elem_of_cons;
      split_and?; try apply not_elem_of_nil; by intros [=]|]). constructor.
  - eexists _, _, _. split; [vm_compute; reflexivity|].
    split; [vm_compute; reflexivity|].
    exists ["A"; "B_2"; "B"; "A_2"]. split_and!.
    + repeat (apply NoDup_cons; split; [rewrite ?not_elem_of_cons;
        split_and?; try apply not_elem_of_nil; by intros [=]|]). constructor.
    + intros u [(nk & inner & Hin & <-)|(w & nk & inner & n & o & Hin & _ & Hd)].
      * repeat (apply elem_of_cons in Hin as [[= -> ->]|Hin]);
          [simpl; rewrite !elem_of_cons; eauto 10..|by apply elem_of_nil in Hin].
      * repeat (apply elem_of_cons in Hin as [[= -> ->]|Hin]);
          try (by apply elem_of_nil in Hin);
          repeat (apply elem_of_cons in Hd as [[= -> -> ->]|Hd]);
          try (by apply elem_of_nil in Hd);
          rewrite !elem_of_cons; eauto 10.
    + intros u v (nk & inner & n & o & Hin & <- & Hd).
      repeat (apply elem_of_cons in Hin as [[= -> ->]|Hin]);
        try (by apply elem_of_nil in Hin);
        repeat (apply elem_of_cons in Hd as [[= -> -> ->]|Hd]);
        try (by apply elem_of_nil in Hd); simpl.
      * by exists ["A"], ["B"], [].
      * by exists [], ["B_2"], ["A_2"].
Qed.

End CycleResolver.

(** ** The statements on the example inputs *)

Section Instances.
Import Examples.

Local Ltac elem_cases H :=
  repeat (apply elem_of_cons in H as [H|H]); [..|by apply elem_of_nil in H].

Local Ltac elem_solve :=
  repeat first [apply list_elem_of_here | apply list_elem_of_further].

Local Ltac no_dup :=
  repeat (apply NoDup_cons; split;
          [rewrite ?not_elem_of_cons; split_and?;
           try apply not_elem_of_nil; by intros [=]|]);
  apply NoDup_nil_2.

Local Ltac wf_dicts :=
  unfold dicts_wf, all_assets_resource_defs; simpl;
  repeat (apply Forall_cons; split; [no_dup|]); apply Forall_nil_2.

(** C1, the claim as stated fails: [pair] has two outputs, both in the one
    group "default"; its input [orders] is no produced key and the lookup
    table has an entry for ("default", "orders"); yet the resolver raises
    instead of resolving the input through the table. *)
Lemma resolver_ignores_common_group :
  output_groups pair = ["default"]
  ∧ (["orders"] ∉ produced_or_source_keys [orders; pair] [])
  ∧ (∃ tbl, build_asset_keys_by_group_and_name [orders; pair] [] = Ok tbl
            ∧ dict_get tbl ("default", "orders") = Some ["warehouse"; "orders"])
  ∧ resolve_assets_def_deps to_string [orders; pair] []
    = Raise (DagsterInvalidDefinitionError
               (unresolved_input_msg (to_string ["orders"]) (to_string ["left"]))).
Proof.
  split_and!.
  - vm_compute. reflexivity.
  - intros H. vm_compute in H. elem_cases H; discriminate H.
  - eexists. split; vm_compute; reflexivity.
  - vm_compute. reflexivity.
Qed.

(** Outside the amended C1: when a later key overwrites a produced key in
    the lookup table, the exact match misses the produced key, and the
    input resolves through the table to the other key. *)
Lemma overwritten_key_resolves_elsewhere :
  (["a"; "x"] ∈ produced_or_source_keys [left_x; right_x; consumer] [])
  ∧ ∃ res,
      resolve_assets_def_deps to_string [left_x; right_x; consumer] []
      = Ok res
      ∧ res.*2 = [[]; []; [("x", ["b"; "x"])]].
Proof.
  split; [vm_compute; elem_solve|].
  eexists. split; vm_compute; reflexivity.
Qed.

Lemma resolve_assets_def_deps_spec_witness :
  ∃ res,
    resolve_assets_def_deps to_string [orders; report] [] = Ok res
    ∧ res.*2 = [[]; [("orders", ["warehouse"; "orders"])]].
Proof.
  destruct (resolve_assets_def_deps_spec to_string [orders; report] []
              [("default", "orders", ["warehouse"; "orders"]);
               ("default", "report", ["report"])])
    as [Hok _].
  - vm_compute. reflexivity.
  - intros k Hk. vm_compute in Hk. elem_cases Hk; subst k;
      vm_compute; elem_solve.
  - intros ad Had. elem_cases Had; subst ad; (split_and!; [vm_compute; no_dup|done|]);
      intros n k Hin; vm_compute in Hin; elem_cases Hin.
    injection Hin as -> ->. done.
  - destruct Hok as (res & Hres & _).
    + intros ad n key Had Hin. elem_cases Had; subst ad; vm_compute in Hin;
        elem_cases Hin. injection Hin as -> ->.
      exists ["warehouse"; "orders"]. right. split.
      * intros H. vm_compute in H. elem_cases H; discriminate H.
      * by exists ["report"], "default", "orders".
    + exists res. split; [done|]. vm_compute in Hres. by injection Hres as <-.
Defined.

(** C2, the claim as stated fails: the single unit of [self_loop] depends on
    itself, so the graph has a directed cycle and no topological ordering;
    yet [_has_cycles] returns false. *)
Lemma self_dependency_not_reported :
  unit_depends_on self_loop "a" "a"
  ∧ (¬ ∃ order, topological_ordering self_loop order)
  ∧ _has_cycles self_loop = Ok false.
Proof.
  assert (Hdep : unit_depends_on self_loop "a" "a").
  { exists (NodeName "a"), [("x", DependencyDefinition "a" "result")], "x", "result".
    split_and!; [by left|done|by left]. }
  split_and!; [done| |vm_compute; reflexivity].
  intros (order & Hnd & _ & Hprec).
  pose proof (precedes_index_of _ _ _ Hnd (Hprec _ _ Hdep)). lia.
Qed.

(** Outside the amended C2: a cycle through a node registered under an
    alias is not reported, because the alias string a dependency names is
    not the [NodeInvocation] the node is registered under. *)
Lemma aliased_cycle_not_reported :
  unit_depends_on aliased_cycle "a" "a_2"
  ∧ unit_depends_on aliased_cycle "a_2" "a"
  ∧ _has_cycles aliased_cycle = Ok false.
Proof.
  split_and!; [| |vm_compute; reflexivity].
  - exists (NodeName "a"), [("q", DependencyDefinition "a_2" "result")], "q", "result".
    split_and!; [by left|done|by left].
  - exists (NodeInvocation "a" "a_2"), [("p", DependencyDefinition "a" "result")],
      "p", "result".
    split_and!; [by right; left|done|by left].
Qed.

Lemma has_cycles_spec_witness :
  (_has_cycles chain = Ok false
   ↔ ∃ order, topological_ordering_up_to_self chain order)
  ∧ _has_cycles two_cycle = Ok true.
Proof.
  split.
  - apply (has_cycles_spec chain).
    + vm_compute. no_dup.
    + intros nk inner Hin. elem_cases Hin; injection Hin as -> ->; eauto.
    + intros nk inner n dep Hin Hd. elem_cases Hin; injection Hin as -> ->;
        elem_cases Hd. injection Hd as -> ->. eauto.
  - apply (has_cycles_spec two_cycle).
    + vm_compute. no_dup.
    + intros nk inner Hin. elem_cases Hin; injection Hin as -> ->; eauto.
    + intros nk inner n dep Hin Hd. elem_cases Hin; injection Hin as -> ->;
        elem_cases Hd; injection Hd as -> ->; eauto.
    + exists "x". apply (tc_l _ _ "y").
      * split; [|done].
        exists (NodeName "x"), [("q", DependencyDefinition "y" "result")], "q", "result".
        split_and!; [by left|done|by left].
      * apply tc_once. split; [|done].
        exists (NodeName "y"), [("p", DependencyDefinition "x" "result")], "p", "result".
        split_and!; [by right; left|done|by left].
Defined.

Lemma cross_cycle_resolved_witness :
  ∃ resolved : list Asset,
    _attempt_resolve_cycles 2 [cross_A; cross_B] = Some (Ok resolved)
    ∧ concat (keys <$> resolved) ≡ₚ [a1; a2; b1; b2].
Proof.
  destruct (cross_cycle_resolved (PartitionsDefinition:=string)
              (ResourceDefinition:=nat) to_string 2 (le_n 2))
    as (_ & resolved & Hres & _ & _ & Hkeys & _).
  by exists resolved.
Defined.

(** C4, the code at the failing input: the second definition on the op [a]
    receives the identifier [a_2], and so does the definition on the op
    named [a_2]; the keys [y] and [z] are recorded under the same node,
    and the handle map keeps two of the three definitions. *)
Lemma suffix_collides_with_node_name :
  (name_nodes (sorted (list_compare AssetKey_compare) sort_key
                 [first_a; second_a; named_a_2])).2
  = [(["x"], ("a", "x")); (["y"], ("a_2", "y")); (["z"], ("a_2", "z"))]
  ∧ ∃ deps ih,
      build_node_deps to_string [first_a; second_a; named_a_2] []
      = Ok (deps, [("a", first_a); ("a_2", named_a_2)], ih).
Proof.
  split; [vm_compute; reflexivity|].
  eexists _, _. vm_compute. reflexivity.
Qed.

Lemma build_job_partitions_from_assets_unifies_witness :
  build_job_partitions_from_assets to_string [orders; report] = Ok None
  ∧ build_job_partitions_from_assets to_string
      [with_partitions "daily" orders; report; with_partitions "daily" summary]
    = Ok (Some "daily")
  ∧ ∃ k1 k2,
      build_job_partitions_from_assets to_string
        [with_partitions "daily" orders; report; with_partitions "hourly" summary]
      = Raise (DagsterInvalidDefinitionError
                 (partitions_conflict_msg (to_string k1) (to_string k2))).
Proof.
  split_and!.
  - apply (build_job_partitions_from_assets_unifies to_string [orders; report]).
    + intros ad Had. elem_cases Had; by subst ad.
    + intros ad Had. elem_cases Had; by subst ad.
  - apply (build_job_partitions_from_assets_unifies to_string
             [with_partitions "daily" orders; report;
              with_partitions "daily" summary]).
    + intros ad Had. elem_cases Had; by subst ad.
    + exists (with_partitions "daily" orders). split; [by left|done].
    + intros ad Had. elem_cases Had; subst ad; eauto.
  - destruct (build_job_partitions_from_assets_unifies to_string
                [with_partitions "daily" orders; report;
                 with_partitions "hourly" summary])
      as (_ & _ & Hraise).
    + intros ad Had. elem_cases Had; by subst ad.
    + destruct Hraise as (ad1 & ad2 & p1 & p2 & k1 & k2 & _ & _ & _ & _ & _ & _ & _ & Hr).
      * exists (with_partitions "daily" orders),
          (with_partitions "hourly" summary), "daily", "hourly".
        split_and!; [by left|by right; right; left|done|done|done].
      * by exists k1, k2.
Defined.

Lemma ensure_resources_dont_conflict_spec_witness :
  (∃ k, _ensure_resources_dont_conflict
          [with_resources [("db", 1)] orders; with_resources [("db", 2)] report]
          [] []
        = Raise (DagsterInvalidDefinitionError (asset_conflict_msg k)))
  ∧ _ensure_resources_dont_conflict
      [with_resources [("db", 1)] orders; with_resources [("db", 1)] report]
      [] [("io_manager", 5)]
    = Ok tt.
Proof.
  split.
  - destruct (ensure_resources_dont_conflict_spec
                [with_resources [("db", 1)] orders;
                 with_resources [("db", 2)] report] [] [])
      as (Hraise & _).
    + wf_dicts.
    + constructor.
    + destruct Hraise as (k & _ & Hk); [|by exists k].
      exists "db", 0, 1, [("db", 1)], [("db", 2)], 1, 2.
      split_and!; try done; by left.
  - apply (ensure_resources_dont_conflict_spec
             [with_resources [("db", 1)] orders;
              with_resources [("db", 1)] report] [] [("io_manager", 5)]).
    + wf_dicts.
    + vm_compute. no_dup.
    + intros (k & i & j & d1 & d2 & r1 & r2 & _ & Hi & Hj & H1 & H2 & Hne).
      apply list_elem_of_lookup_2 in Hi, Hj. vm_compute in Hi, Hj.
      elem_cases Hi; elem_cases Hj; subst d1 d2; elem_cases H1; elem_cases H2;
        congruence.
    + intros k (d & r & r' & Hjob & _). elem_cases Hjob. congruence.
Defined.

(** C7, the code at the failing input: [second_a], the producer of the key
    [y], receives the identifier [a_2] and is then replaced under it by the
    definition on the op named [a_2].  The input [y] of the consumer
    resolves to the key [y] and receives an edge to the output [y] of the
    node [a_2]; that node stands for [named_a_2], which has no output [y],
    and no unit of the returned graph produces the key [y]. *)
Lemma edge_to_replaced_producer :
  ∃ deps ih,
    build_node_deps to_string [first_a; second_a; named_a_2; consumer_y] []
    = Ok (deps, [("c", consumer_y); ("a", first_a); ("a_2", named_a_2)], ih)
    ∧ dict_get ih ("c", "y") = Some ["y"]
    ∧ dict_get deps (node_key_of "c" consumer_y)
      = Some [("y", DependencyDefinition "a_2" "y")]
    ∧ "y" ∉ dict_keys (keys_by_output_name named_a_2)
    ∧ ∀ (h : NodeHandle) (ad : Asset),
        (h, ad) ∈ [("c", consumer_y); ("a", first_a); ("a_2", named_a_2)] →
        ["y"] ∉ dict_values (keys_by_output_name ad).
Proof.
  eexists _, _. split_and!.
  - vm_compute. reflexivity.
  - vm_compute. reflexivity.
  - vm_compute. reflexivity.
  - intros H. vm_compute in H. elem_cases H. discriminate H.
  - intros h ad Hin. elem_cases Hin; injection Hin as -> ->;
      intros H; vm_compute in H; elem_cases H; discriminate H.
Qed.

Lemma get_all_resource_defs_prefers_assets_witness :
  ∃ tbl,
    get_all_resource_defs [with_resources [("io_manager", 7)] orders] []
      (with_default_io_manager 0 [("db", 3)]) = Ok tbl
    ∧ dict_get tbl "io_manager" = Some 7
    ∧ dict_get tbl "db" = Some 3.
Proof.
  destruct (get_all_resource_defs_prefers_assets 0
              [with_resources [("io_manager", 7)] orders] [] [("db", 3)])
    as [_ Htbl].
  - wf_dicts.
  - vm_compute. no_dup.
  - destruct Htbl as (tbl & Hget & Hassets & Hjob); [vm_compute; reflexivity|].
    exists tbl. split_and!; [done| |].
    + apply (Hassets [("io_manager", 7)]); by left.
    + rewrite Hjob; [vm_compute; reflexivity|].
      intros d Hd. vm_compute in Hd. elem_cases Hd. subst d. vm_compute.
      intros H. elem_cases H. discriminate H.
Defined.

Lemma external_pipeline_lookup_spec_witness :
  External.external_pipeline_from_run_with_repository_location_handle
    (λ _ : unit, Ok one_repository) a_run tt
  = Ok {| External.external_pipeline_data := "nightly";
          External.repository_handle := 7 |}
  ∧ ∃ msg,
      External.external_pipeline_from_run_with_repository_location_handle
        (λ _ : unit, Ok no_repository) a_run tt
      = Raise (CheckError msg).
Proof.
  split.
  - rewrite (proj2 (external_pipeline_lookup_spec (λ _ : unit, Ok one_repository)
                      a_run tt one_repository eq_refl) "repo" _ eq_refl).
    reflexivity.
  - eexists.
    apply (proj1 (external_pipeline_lookup_spec (λ _ : unit, Ok no_repository)
                    a_run tt no_repository eq_refl)).
    simpl. lia.
Defined.

End Instances.
(** * Further properties of the compiler *)

(** ** The key resolver: shape of the result, errors, precedence *)

Lemma Forall2_elem_r {A B : Type} (P : A → B → Prop) (l : list A) (k : list B) y :
  Forall2 P l k → y ∈ k → ∃ x, x ∈ l ∧ P x y.
Proof.
  induction 1 as [|x' y' l k HP _ IH]; intros Hy.
  - by apply elem_of_nil in Hy.
  - apply elem_of_cons in Hy as [->|Hy].
    + exists x'. split; [by left|done].
    + destruct (IH Hy) as (x & ? & ?). exists x. split; [by right|done].
Qed.

(** A loop that raises does so in its body, at some item. *)
Lemma foldM_Raise {A S : Type} (f : S → A → result S) (l : list A) (s : S) e :
  foldM f s l = Raise e → ∃ s0 x, x ∈ l ∧ f s0 x = Raise e.
Proof.
  revert s. induction l as [|x l IH]; intros s; simpl; [done|].
  destruct (f s x) as [s1|e1] eqn:Hx; simpl.
  - intros (s0 & y & Hy & Hr)%IH. exists s0, y. split; [by right|done].
  - intros [= ->]. exists s, x. split; [by left|done].
Qed.

(** A loop that raises handled the items before some item, and raises in
    its body at that item. *)
Lemma foldM_Raise_first {A S : Type} (f : S → A → result S) (l : list A) (s : S) e :
  foldM f s l = Raise e →
  ∃ l1 x l2 s1, l = l1 ++ x :: l2 ∧ foldM f s l1 = Ok s1 ∧ f s1 x = Raise e.
Proof.
  revert s. induction l as [|x l IH]; intros s; simpl; [done|].
  destruct (f s x) as [s1|e1] eqn:Hx; simpl.
  - intros (l1 & y & l2 & s2 & -> & Hl1 & Hy)%IH.
    exists (x :: l1), y, l2, s2. split_and!; [done| |done].
    simpl. by rewrite Hx.
  - intros [= ->]. by exists [], x, l, s.
Qed.

Lemma mapM_result_Raise_first {A B : Type} (f : A → result B) (l : list A) e :
  mapM f l = Raise e →
  ∃ l1 x l2, l = l1 ++ x :: l2 ∧ (∀ y, y ∈ l1 → ∃ r, f y = Ok r)
             ∧ f x = Raise e.
Proof.
  induction l as [|x l IH]; simpl; [done|].
  destruct (f x) as [y|e'] eqn:Hx; simpl.
  - destruct (mapM f l) as [ys|e']; simpl; [done|].
    intros [= ->]. destruct IH as (l1 & x' & l2 & -> & Hl1 & Hx'); [done|].
    exists (x :: l1), x', l2. split_and!; [done| |done].
    intros y0 [->|?]%elem_of_cons; [by exists y|by apply Hl1].
  - intros [= ->]. exists [], x, l. split_and!; [done| |done].
    by intros y ?%elem_of_nil.
Qed.

(** Every item of a loop that ends was handled without a raise. *)
Lemma foldM_Ok_steps {A S : Type} (f : S → A → result S) (l : list A) (s s' : S) x :
  foldM f s l = Ok s' → x ∈ l → ∃ s0 s1, f s0 x = Ok s1.
Proof.
  revert s. induction l as [|y l IH]; intros s; simpl.
  - by intros _ ?%elem_of_nil.
  - destruct (f s y) as [s1|] eqn:Hy; simpl; [|done].
    intros Hl [->|Hx]%elem_of_cons; [by exists s, s1|by eapply IH].
Qed.

(** The names and the entries of a dictionary filled by a resolving loop. *)
Lemma foldM_dict_set_elems {V W : Type} (f : V → result W)
  (l : dict string V) (acc acc' : dict string W) :
  foldM (λ acc '(n, v), w ← f v; Ok (dict_set acc n w)) acc l = Ok acc' →
  (∀ n, n ∈ acc'.*1 ↔ n ∈ acc.*1 ∨ n ∈ l.*1)
  ∧ (∀ n w, (n, w) ∈ acc' → (n, w) ∈ acc ∨ ∃ v, (n, v) ∈ l ∧ f v = Ok w).
Proof.
  revert acc. induction l as [|[n0 v0] l IH]; intros acc; simpl.
  - intros [= <-]. split.
    + intros n. rewrite elem_of_nil. tauto.
    + intros n w ?. by left.
  - destruct (f v0) as [w0|] eqn:Hv0; simpl; [|done].
    intros [Hkeys Helems]%IH. split.
    + intros n. rewrite Hkeys, dict_set_elem_keys, elem_of_cons. tauto.
    + intros n w [Hin|(v & Hin & Hv)]%Helems.
      * apply dict_set_elem_pair in Hin as [[= -> ->]|Hin]; [|by left].
        right. exists v0. split; [by left|done].
      * right. exists v. split; [by right|done].
Qed.

Lemma path_last_Ok (key : AssetKey) (name : string) :
  path_last key = Ok name ↔ last key = Some name.
Proof.
  unfold path_last. destruct (last key); split; intros [=]; by subst.
Qed.

Lemma path_last_Raise (key : AssetKey) e :
  path_last key = Raise e ↔ key = [] ∧ e = IndexError.
Proof.
  unfold path_last. destruct (last key) as [s|] eqn:Hlast.
  - split; [done|]. intros [-> _]. done.
  - apply last_None in Hlast as ->. split; [by intros [= <-]|by intros [_ ->]].
Qed.

Section ResolverProperties.
Context {PartitionsDefinition ResourceDefinition : Type}.
Context `{EqDecision PartitionsDefinition, EqDecision ResourceDefinition}.
Variable to_string : AssetKey → string.
Local Abbreviation AssetsDef := (@AssetsDefinition PartitionsDefinition ResourceDefinition).
Local Abbreviation Source := (@SourceAsset ResourceDefinition).
Implicit Types (assets_defs : list AssetsDef) (source_assets : list Source).
Implicit Types (tbl : dict (string * string) AssetKey).

(** Every entry of the lookup table stands under the final path segment
    of its key. *)
Lemma lookup_table_last assets_defs source_assets tbl g name k :
  build_asset_keys_by_group_and_name assets_defs source_assets = Ok tbl →
  ((g, name), k) ∈ tbl → last k = Some name.
Proof.
  unfold build_asset_keys_by_group_and_name.
  intros (tbl1 & Hdefs & Hsrcs)%bind_Ok. revert g name k.
  pose (P := λ tbl : dict (string * string) AssetKey,
          ∀ g name k, ((g, name), k) ∈ tbl → last k = Some name).
  change (P tbl). eapply foldM_invariant; [| |exact Hsrcs].
  - change (P tbl1). eapply foldM_invariant; [| |exact Hdefs].
    + by intros g name k ?%elem_of_nil.
    + intros t ad t' Had Ht Hstep. change (P t').
      eapply foldM_invariant; [exact Ht| |exact Hstep].
      intros t1 key t2 Hkey Ht1 Hset.
      apply bind_Ok in Hset as (g0 & _ & (name0 & Hlast & [= <-])%bind_Ok).
      intros g name k [[= -> -> ->]|?]%dict_set_elem_pair; [|by eapply Ht1].
      by apply path_last_Ok.
  - intros t src t' Hsrc Ht Hset.
    apply bind_Ok in Hset as (name0 & Hlast & [= <-]).
    intros g name k [[= -> -> ->]|?]%dict_set_elem_pair; [|by eapply Ht].
    by apply path_last_Ok.
Qed.

Lemma raise_unresolved_not_Ok {A : Type} (ad : AssetsDef) key (a : A) :
  raise_unresolved to_string ad key ≠ Ok a.
Proof. unfold raise_unresolved. by destruct (next_iter (keys ad)). Qed.

(** What an input that resolves resolves to. *)
Lemma resolve_input_Ok tbl asset_keys (ad : AssetsDef) group key k :
  (∀ g name k', ((g, name), k') ∈ tbl → last k' = Some name) →
  resolve_input to_string tbl asset_keys ad group key = Ok k →
  last k = last key ∧ (k ∈ asset_keys ∨ k ∈ tbl.*2).
Proof.
  intros Htbl. unfold resolve_input.
  intros (name & Hname%path_last_Ok & Hk)%bind_Ok.
  case_bool_decide as Hin.
  - injection Hk as <-. split; [done|by left].
  - destruct group as [g|]; [|by apply raise_unresolved_not_Ok in Hk].
    destruct (dict_get tbl (g, name)) as [k'|] eqn:Hget;
      [|by apply raise_unresolved_not_Ok in Hk].
    injection Hk as <-. apply dict_get_Some_elem in Hget.
    split; [rewrite Hname; by eapply Htbl|].
    right. apply list_elem_of_fmap. by exists ((g, name), k').
Qed.

(** An input that resolves has a key with a path, and resolves by exact
    match or through the lookup table. *)
Lemma resolve_input_resolves tbl asset_keys (ad : AssetsDef) key k :
  resolve_input to_string tbl asset_keys ad (group_of ad) key = Ok k →
  key ≠ [] ∧ resolves_to asset_keys tbl ad key k.
Proof.
  unfold resolve_input.
  intros (name & Hname%path_last_Ok & Hk)%bind_Ok.
  split; [by intros ->|].
  case_bool_decide as Hin.
  - injection Hk as <-. by left.
  - destruct (group_of ad) as [g|] eqn:Hg;
      [|by apply raise_unresolved_not_Ok in Hk].
    destruct (dict_get tbl (g, name)) as [k'|] eqn:Hget;
      [|by apply raise_unresolved_not_Ok in Hk].
    injection Hk as <-. apply group_of_Some in Hg as [key0 Hg].
    right. split; [done|]. by exists key0, g, name.
Qed.

(** How an input fails to resolve: its key has no path, or it resolves in
    neither way and the error names the first output key of the
    definition, when there is one. *)
Lemma resolve_input_Raise tbl asset_keys (ad : AssetsDef) key e :
  resolve_input to_string tbl asset_keys ad (group_of ad) key = Raise e →
  (key = [] ∧ e = IndexError)
  ∨ (key ≠ [] ∧ unresolvable asset_keys tbl ad key
     ∧ ((keys ad = [] ∧ e = StopIteration)
        ∨ ∃ owner, head (keys ad) = Some owner
                   ∧ e = DagsterInvalidDefinitionError
                           (unresolved_input_msg (to_string key) (to_string owner)))).
Proof.
  assert (Hunres : raise_unresolved (A:=AssetKey) to_string ad key = Raise e →
            (keys ad = [] ∧ e = StopIteration)
            ∨ ∃ owner, head (keys ad) = Some owner
                       ∧ e = DagsterInvalidDefinitionError
                               (unresolved_input_msg (to_string key) (to_string owner))).
  { unfold raise_unresolved. destruct (keys ad) as [|owner ?]; simpl.
    - intros [= <-]. by left.
    - intros [= <-]. right. by exists owner. }
  unfold resolve_input.
  intros [Hlast%path_last_Raise|(name & Hname%path_last_Ok & Hk)]%bind_Raise;
    [by left|].
  right. split; [by intros ->|].
  case_bool_decide as Hin; [done|].
  destruct (group_of ad) as [g|] eqn:Hg.
  - apply group_of_Some in Hg as [key0 Hg].
    destruct (dict_get tbl (g, name)) as [k|] eqn:Hget; [done|].
    split; [|by apply Hunres].
    split; [done|]. intros key0' g' name' Hg' Hl'.
    rewrite Hg in Hg'. rewrite Hname in Hl'. by simplify_eq.
  - split; [|by apply Hunres].
    split; [done|]. intros key0 g name' Hg' _.
    assert (group_of ad = Some g) by (apply group_of_Some; eauto). congruence.
Qed.

(** The inputs of a definition that the resolver handled all resolve. *)
Lemma resolve_inputs_Ok tbl asset_keys (ad : AssetsDef)
  (inputs : dict string AssetKey) (acc acc' : dict string AssetKey) n key :
  foldM (λ acc '(input_name, upstream_asset_key),
           k ← resolve_input to_string tbl asset_keys ad (group_of ad)
                 upstream_asset_key;
           Ok (dict_set acc input_name k))
        acc inputs = Ok acc' →
  (n, key) ∈ inputs →
  key ≠ [] ∧ ∃ k, resolves_to asset_keys tbl ad key k.
Proof.
  intros Hfold Hin.
  destruct (foldM_Ok_steps _ _ _ _ _ Hfold Hin) as (s0 & s1 & Hstep).
  apply bind_Ok in Hstep as (k & [? ?]%resolve_input_resolves & _).
  split; [done|by exists k].
Qed.

(** The entries of the resolver's result. *)
Lemma resolve_assets_def_deps_entries assets_defs source_assets res
  (ad : AssetsDef) dep_keys :
  resolve_assets_def_deps to_string assets_defs source_assets = Ok res →
  (ad, dep_keys) ∈ res →
  ad ∈ assets_defs
  ∧ (∀ n, n ∈ dep_keys.*1 ↔ n ∈ (keys_by_input_name ad).*1)
  ∧ (∀ n k, (n, k) ∈ dep_keys →
       k ∈ produced_or_source_keys assets_defs source_assets
       ∧ ∃ key, (n, key) ∈ keys_by_input_name ad ∧ last k = last key).
Proof.
  intros Hres Hin. unfold resolve_assets_def_deps in Hres.
  apply bind_Ok in Hres as (tbl & Htbl & Hmap). apply mapM_result_Ok in Hmap.
  destruct (Forall2_elem_r _ _ _ _ Hmap Hin) as (ad0 & Had0 & Hr).
  unfold resolve_assets_def in Hr.
  apply bind_Ok in Hr as (dk & Hfold & [= -> ->]).
  apply foldM_dict_set_elems in Hfold as [Hkeys Helems]. split_and!; [done| |].
  - intros n. rewrite Hkeys, elem_of_nil. tauto.
  - intros n k [[]%elem_of_nil|(key & Hkey & Hk)]%Helems.
    apply resolve_input_Ok in Hk as [Hlast Hk];
      [|intros g name k'; by eapply lookup_table_last].
    split; [|by exists key].
    eapply lookup_table_values; [exact Htbl|].
    destruct Hk as [Hk|Hk]; [|exact Hk]. rewrite elem_of_remove_dups in Hk.
    exact Hk.
Qed.

Lemma resolve_assets_def_deps_fst assets_defs source_assets res :
  resolve_assets_def_deps to_string assets_defs source_assets = Ok res →
  res.*1 = assets_defs.
Proof.
  unfold resolve_assets_def_deps.
  intros (tbl & _ & Hmap)%bind_Ok. apply mapM_result_Ok in Hmap.
  induction Hmap as [|ad r l k Hr _ IH]; [done|].
  simpl. f_equal; [|done]. unfold resolve_assets_def in Hr.
  by apply bind_Ok in Hr as (dk & _ & [= <-]).
Qed.

(** X1. When the resolver returns, its result lists the definitions in
    the order given, each with a dictionary that has exactly the declared
    input names; every resolved key is a produced or a source key and ends
    in the same path segment as the key the input declares. *)
Theorem resolve_assets_def_deps_shape assets_defs source_assets res :
  resolve_assets_def_deps to_string assets_defs source_assets = Ok res →
  res.*1 = assets_defs
  ∧ ∀ ad dep_keys, (ad, dep_keys) ∈ res →
      NoDup dep_keys.*1
      ∧ (∀ n, n ∈ dep_keys.*1 ↔ n ∈ (keys_by_input_name ad).*1)
      ∧ (∀ n k, (n, k) ∈ dep_keys →
           k ∈ produced_or_source_keys assets_defs source_assets
           ∧ ∃ key, (n, key) ∈ keys_by_input_name ad ∧ last k = last key).
Proof.
  intros Hres. split; [by eapply resolve_assets_def_deps_fst|].
  intros ad dep_keys Hin.
  split; [by eapply resolve_assets_def_deps_NoDup|].
  by destruct (resolve_assets_def_deps_entries _ _ _ _ _ Hres Hin) as (_ & ? & ?).
Qed.

(** X2. The resolver raises in these ways only.  While it fills the lookup
    table: [KeyError] for an output key without an entry in its
    definition's group table, and [IndexError] for a produced or source
    key with an empty path.  After the table is filled, at the first input
    that does not resolve (every input of the definitions before its
    definition, and every input before it in its definition, has a key
    with a path and resolves by exact match or through the table):
    [IndexError] when the key of that input has an empty path; otherwise
    the input resolves neither by exact match against the values of the
    table nor through the table under the definition's group, and the
    resolver raises [StopIteration] when the definition has no output key,
    and else the definition error that names the key of that input and the
    first output key of the definition. *)
Theorem resolve_assets_def_deps_errors assets_defs source_assets e :
  resolve_assets_def_deps to_string assets_defs source_assets = Raise e →
  (e = KeyError
   ∧ ∃ ad key, ad ∈ assets_defs ∧ key ∈ keys ad
               ∧ dict_get (group_names_by_key ad) key = None)
  ∨ (e = IndexError
     ∧ [] ∈ produced_or_source_keys assets_defs source_assets)
  ∨ ∃ tbl before ad after inputs_before input_name key inputs_after,
      build_asset_keys_by_group_and_name assets_defs source_assets = Ok tbl
      ∧ assets_defs = before ++ ad :: after
      ∧ keys_by_input_name ad
        = inputs_before ++ (input_name, key) :: inputs_after
      ∧ (∀ ad0 n0 key0,
           ad0 ∈ before → (n0, key0) ∈ keys_by_input_name ad0 →
           key0 ≠ []
           ∧ ∃ k, resolves_to (remove_dups (dict_values tbl)) tbl ad0 key0 k)
      ∧ (∀ n0 key0,
           (n0, key0) ∈ inputs_before →
           key0 ≠ []
           ∧ ∃ k, resolves_to (remove_dups (dict_values tbl)) tbl ad key0 k)
      ∧ ((key = [] ∧ e = IndexError)
         ∨ (key ≠ []
            ∧ unresolvable (remove_dups (dict_values tbl)) tbl ad key
            ∧ ((keys ad = [] ∧ e = StopIteration)
               ∨ ∃ owner,
                   head (keys ad) = Some owner
                   ∧ e = DagsterInvalidDefinitionError
                           (unresolved_input_msg (to_string key)
                              (to_string owner))))).
Proof.
  unfold resolve_assets_def_deps.
  intros [Htbl|(tbl & Htbl & Hmap)]%bind_Raise.
  - unfold build_asset_keys_by_group_and_name in Htbl.
    apply bind_Raise in Htbl as [Hdefs|(tbl1 & _ & Hsrcs)].
    + apply foldM_Raise in Hdefs as (t0 & ad & Had & Hkeys).
      apply foldM_Raise in Hkeys as (t1 & key & Hkey & Hstep).
      apply bind_Raise in Hstep as [Hgroup|(g & _ & Hstep)].
      * left. unfold dict_getitem in Hgroup.
        destruct (dict_get (group_names_by_key ad) key) eqn:Hget; [done|].
        injection Hgroup as <-. split; [done|]. by exists ad, key.
      * apply bind_Raise in Hstep as [[-> ->]%path_last_Raise|(? & _ & [=])].
        right; left. split; [done|].
        apply elem_of_app. left. apply elem_of_concat. exists (keys ad).
        split; [done|]. by apply list_elem_of_fmap_2.
    + apply foldM_Raise in Hsrcs as (t0 & src & Hsrc & Hstep).
      apply bind_Raise in Hstep as [[Hnil ->]%path_last_Raise|(? & _ & [=])].
      right; left. split; [done|].
      apply elem_of_app. right. rewrite <- Hnil. by apply list_elem_of_fmap_2.
  - right; right.
    apply mapM_result_Raise_first in Hmap as (before & ad & after & -> & Hbefore & Hr).
    unfold resolve_assets_def in Hr.
    apply bind_Raise in Hr as [Hfold|(? & _ & [=])].
    apply foldM_Raise_first in Hfold
      as (inputs_before & [n key] & inputs_after & acc & Hsplit & Hdone & Hstep).
    apply bind_Raise in Hstep as [Hinput|(? & _ & [=])].
    exists tbl, before, ad, after, inputs_before, n, key, inputs_after.
    split_and!; [done..| | |by apply resolve_input_Raise in Hinput].
    + intros ad0 n0 key0 Had0 Hin.
      destruct (Hbefore ad0 Had0) as ([ad1 dk] & Hok).
      unfold resolve_assets_def in Hok.
      apply bind_Ok in Hok as (dk' & Hfold & _).
      by eapply resolve_inputs_Ok.
    + intros n0 key0 Hin. by eapply resolve_inputs_Ok.
Qed.

(** The loop over the source assets: the entry of a group and name is the
    key of the last source asset that carries them, and is left alone
    when there is none. *)
Lemma source_loop_last_wins source_assets tbl0 tbl g name :
  foldM (λ tbl (source_asset : Source),
           name ← path_last (source_key source_asset);
           Ok (dict_set tbl (source_group_name source_asset, name)
                 (source_key source_asset)))
        tbl0 source_assets = Ok tbl →
  (∃ before s' after,
      source_assets = before ++ s' :: after
      ∧ source_group_name s' = g
      ∧ last (source_key s') = Some name
      ∧ (∀ s'', s'' ∈ after →
           ¬ (source_group_name s'' = g ∧ last (source_key s'') = Some name))
      ∧ dict_get tbl (g, name) = Some (source_key s'))
  ∨ ((∀ s', s' ∈ source_assets →
            ¬ (source_group_name s' = g ∧ last (source_key s') = Some name))
     ∧ dict_get tbl (g, name) = dict_get tbl0 (g, name)).
Proof.
  revert tbl0. induction source_assets as [|s0 l IH]; intros tbl0; simpl.
  - intros [= <-]. right. split; [by intros s' ?%elem_of_nil|done].
  - destruct (path_last (source_key s0)) as [n0|] eqn:Hn0; simpl; [|done].
    apply path_last_Ok in Hn0.
    intros [(before & s' & after & -> & ?)|[Hnone Hget]]%IH.
    + left. by exists (s0 :: before), s', after.
    + destruct (decide ((g, name) = (source_group_name s0, n0))) as [[= -> ->]|Hne].
      * left. exists [], s0, l. split_and!; [done..|].
        by rewrite Hget, dict_get_set_eq.
      * right. split.
        -- intros s' [->|Hs']%elem_of_cons; [|by apply Hnone].
           intros [<- Hlast]. rewrite Hn0 in Hlast. by injection Hlast as <-.
        -- by rewrite Hget, dict_get_set_ne.
Qed.

(** X3. In the lookup table the source assets are entered after the
    definitions, one after the other: under the group and final path
    segment of a source asset stands the key of the last source asset of
    the list that carries that group and segment (no source asset behind
    it does), whatever keys the definitions and the source assets before it
    have under that group and segment. *)
Theorem source_assets_take_precedence assets_defs source_assets tbl (s : Source) :
  build_asset_keys_by_group_and_name assets_defs source_assets = Ok tbl →
  s ∈ source_assets →
  ∃ name before s' after,
    last (source_key s) = Some name
    ∧ source_assets = before ++ s' :: after
    ∧ source_group_name s' = source_group_name s
    ∧ last (source_key s') = Some name
    ∧ (∀ s'', s'' ∈ after →
         ¬ (source_group_name s'' = source_group_name s
            ∧ last (source_key s'') = Some name))
    ∧ dict_get tbl (source_group_name s, name) = Some (source_key s').
Proof.
  unfold build_asset_keys_by_group_and_name.
  intros (tbl1 & _ & Hsrcs)%bind_Ok Hs.
  destruct (foldM_Ok_steps _ _ _ _ _ Hsrcs Hs) as (t0 & t1 & Hstep).
  apply bind_Ok in Hstep as (name & Hname%path_last_Ok & _).
  exists name.
  destruct (source_loop_last_wins _ _ _ (source_group_name s) name Hsrcs)
    as [(before & s' & after & ? & ? & ? & ? & ?)|[Hnone _]].
  - by exists before, s', after.
  - by destruct (Hnone s Hs).
Qed.

(** *** The partition unifier *)

(** The unifier returns a policy exactly when every definition that
    declares one declares that one, and none exactly when no definition
    declares one. *)
Lemma build_job_partitions_from_assets_Ok_iff (assets : list AssetsDef) p :
  build_job_partitions_from_assets to_string assets = Ok p
  ↔ (∀ ad, ad ∈ assets → partitions_def ad = None ∨ partitions_def ad = p)
    ∧ (p = None ↔ ∀ ad, ad ∈ assets → partitions_def ad = None).
Proof.
  unfold build_job_partitions_from_assets.
  generalize (list_elem_of_filter
                (λ ad : AssetsDef, is_Some (partitions_def ad)) assets).
  destruct (filter _ assets) as [|first rest]; intros Hfilter.
  - assert (Hnone : ∀ ad, ad ∈ assets → partitions_def ad = None).
    { intros ad Had. destruct (partitions_def ad) as [q|] eqn:Hq; [|done].
      assert (Hin : ad ∈ []) by (apply Hfilter; split; [by rewrite Hq|done]).
      by apply elem_of_nil in Hin. }
    split.
    + intros [= <-]. split; [intros ad Had; left; by apply Hnone|done].
    + intros [_ Hp]. by rewrite (proj2 Hp Hnone).
  - assert (Hfirst : first ∈ assets ∧ is_Some (partitions_def first)).
    { destruct (proj1 (Hfilter first)); [by left|done]. }
    destruct Hfirst as [Hfirst_in Hfirst]. split.
    + intros (u & Hloop & [= <-])%bind_Ok. destruct u.
      pose proof (proj1 (for__Ok _ _) Hloop) as Hall.
      assert (Hagree : ∀ ad, ad ∈ assets →
                partitions_def ad = None
                ∨ partitions_def ad = partitions_def first).
      { intros ad Had. destruct (partitions_def ad) as [q|] eqn:Hq; [|by left].
        right. rewrite <- Hq.
        assert (Hin : ad ∈ first :: rest).
        { apply Hfilter. split; [by rewrite Hq|done]. }
        specialize (Hall ad Hin). simpl in Hall.
        destruct (decide (partitions_def ad ≠ partitions_def first)) as [Hne|Heq].
        - destruct (next_iter (keys ad)); [|done].
          simpl in Hall. by destruct (next_iter (keys first)).
        - by apply dec_stable in Heq. }
      split; [done|]. split.
      * intros Hp. rewrite Hp in Hfirst. by destruct Hfirst.
      * intros Hnone. destruct Hfirst as [q Hq]. by rewrite (Hnone first) in Hq.
    + intros [Hagree Hp].
      assert (Hfirst_p : partitions_def first = p).
      { destruct (Hagree first Hfirst_in) as [Hnone|?]; [|done].
        rewrite Hnone in Hfirst. by destruct Hfirst. }
      apply bind_Ok. exists tt. split; [|by rewrite Hfirst_p].
      apply for__Ok. intros ad Had. apply Hfilter in Had as [Hsome Had].
      rewrite decide_False; [done|]. intros Hne. apply Hne.
      destruct (Hagree ad Had) as [Hnone|?]; [|congruence].
      rewrite Hnone in Hsome. by destruct Hsome.
Qed.

Lemma build_job_partitions_from_assets_Raise (assets : list AssetsDef) e :
  build_job_partitions_from_assets to_string assets = Raise e →
  ∃ ad1 ad2 p1 p2,
    ad1 ∈ assets ∧ ad2 ∈ assets
    ∧ partitions_def ad1 = Some p1 ∧ partitions_def ad2 = Some p2 ∧ p1 ≠ p2
    ∧ ((e = StopIteration ∧ (keys ad1 = [] ∨ keys ad2 = []))
       ∨ ∃ k1 k2,
           head (keys ad1) = Some k1 ∧ head (keys ad2) = Some k2
           ∧ e = DagsterInvalidDefinitionError
                   (partitions_conflict_msg (to_string k1) (to_string k2))).
Proof.
  unfold build_job_partitions_from_assets.
  generalize (list_elem_of_filter
                (λ ad : AssetsDef, is_Some (partitions_def ad)) assets).
  destruct (filter _ assets) as [|first rest]; intros Hfilter; [done|].
  assert (Hfirst : first ∈ assets ∧ is_Some (partitions_def first)).
  { destruct (proj1 (Hfilter first)); [by left|done]. }
  destruct Hfirst as [Hfirst_in [p2 Hp2]].
  intros [Hloop|(? & _ & [=])]%bind_Raise.
  apply for__Raise in Hloop as (l1 & ad & l2 & Hsplit & _ & Had).
  assert (Hin : ad ∈ first :: rest).
  { rewrite Hsplit. apply elem_of_app. right. by left. }
  apply Hfilter in Hin as [[p1 Hp1] Hin].
  destruct (decide (partitions_def ad ≠ partitions_def first)) as [Hne|]; [|done].
  exists ad, first, p1, p2. split_and!; [done..|congruence|].
  destruct (keys ad) as [|k1 ?]; simpl in Had.
  { injection Had as <-. left. split; [done|by left]. }
  destruct (keys first) as [|k2 ?]; simpl in Had.
  { injection Had as <-. left. split; [done|by right]. }
  injection Had as <-. right. by exists k1, k2.
Qed.

(** X4. The partition unifier returns a policy exactly when every
    definition that declares one declares that one, and none exactly when
    no definition declares one.  It raises only when two definitions
    declare different policies: the definition error that names their
    first output keys, or [StopIteration] when one of the two has no
    output key. *)
Theorem build_job_partitions_from_assets_sound (assets : list AssetsDef) :
  (∀ p, build_job_partitions_from_assets to_string assets = Ok p
        ↔ (∀ ad, ad ∈ assets →
                 partitions_def ad = None ∨ partitions_def ad = p)
          ∧ (p = None ↔ ∀ ad, ad ∈ assets → partitions_def ad = None))
  ∧ ∀ e, build_job_partitions_from_assets to_string assets = Raise e →
      ∃ ad1 ad2 p1 p2,
        ad1 ∈ assets ∧ ad2 ∈ assets
        ∧ partitions_def ad1 = Some p1 ∧ partitions_def ad2 = Some p2 ∧ p1 ≠ p2
        ∧ ((e = StopIteration ∧ (keys ad1 = [] ∨ keys ad2 = []))
           ∨ ∃ k1 k2,
               head (keys ad1) = Some k1 ∧ head (keys ad2) = Some k2
               ∧ e = DagsterInvalidDefinitionError
                       (partitions_conflict_msg (to_string k1) (to_string k2))).
Proof.
  split.
  - intros p. apply build_job_partitions_from_assets_Ok_iff.
  - intros e. apply build_job_partitions_from_assets_Raise.
Qed.

(** X21. The policy the partition unifier returns does not depend on the
    order in which the definitions are given. *)
Theorem build_job_partitions_from_assets_order (assets assets' : list AssetsDef) p :
  assets ≡ₚ assets' →
  build_job_partitions_from_assets to_string assets = Ok p →
  build_job_partitions_from_assets to_string assets' = Ok p.
Proof.
  intros Hperm [Hagree Hnone]%build_job_partitions_from_assets_Ok_iff.
  apply build_job_partitions_from_assets_Ok_iff. split.
  - intros ad Had. apply Hagree. by rewrite Hperm.
  - rewrite Hnone. split; intros Hall ad Had; apply Hall.
    + by rewrite Hperm.
    + by rewrite <- Hperm.
Qed.

End ResolverProperties.
(** ** The assembled graph: nodes, edges, input handles *)

Section GraphProperties.
Context {PartitionsDefinition ResourceDefinition : Type}.
Context `{EqDecision PartitionsDefinition, EqDecision ResourceDefinition}.
Variable to_string : AssetKey → string.
Local Abbreviation AssetsDef := (@AssetsDefinition PartitionsDefinition ResourceDefinition).
Local Abbreviation Source := (@SourceAsset ResourceDefinition).
Implicit Types (assets_defs : list AssetsDef) (source_assets : list Source).
Implicit Types (producers : dict AssetKey (string * string)).
Implicit Types (handles : dict NodeHandle AssetsDef).
Implicit Types (deps : deps_dict) (ih : dict NodeInputHandle AssetKey).

Lemma produced_or_source_keys_perm assets_defs assets_defs' source_assets k :
  assets_defs ≡ₚ assets_defs' →
  k ∈ produced_or_source_keys assets_defs source_assets
  ↔ k ∈ produced_or_source_keys assets_defs' source_assets.
Proof.
  intros Hperm. unfold produced_or_source_keys.
  rewrite !elem_of_app, !elem_of_concat.
  assert (Hiff : ∀ l, l ∈ keys <$> assets_defs ↔ l ∈ keys <$> assets_defs').
  { intros l. by rewrite Hperm. }
  split; (intros [(l & ? & Hl)|?]; [left; exists l; split; [done|by apply Hiff]|by right]).
Qed.

(** *** The naming loop *)

Lemma record_outputs_elems (alias : string) (outs : dict string AssetKey)
  producers k v :
  (k, v) ∈ foldl (λ acc '(output_name, key), dict_set acc key (alias, output_name))
             producers outs →
  (k, v) ∈ producers ∨ ∃ o, (o, k) ∈ outs ∧ v = (alias, o).
Proof.
  revert producers. induction outs as [|[o key] outs IH]; intros producers; simpl.
  - by left.
  - intros [[[= -> ->]|?]%dict_set_elem_pair|(o' & ? & ->)]%IH.
    + right. exists o. split; [by left|done].
    + by left.
    + right. exists o'. split; [by right|done].
Qed.

(** Every producing node recorded for a key is a handle of the handle
    map, and its output is an output of one of the definitions; every
    handle stands for one of the definitions, under its node name or
    under the node name with a numeric suffix. *)
Lemma name_nodes_invariant assets_defs :
  let '(_, handles, producers) := name_nodes assets_defs in
  (∀ k a o, (k, (a, o)) ∈ producers →
     a ∈ handles.*1 ∧ ∃ ad, ad ∈ assets_defs ∧ (o, k) ∈ keys_by_output_name ad)
  ∧ (∀ h ad, (h, ad) ∈ handles →
       ad ∈ assets_defs
       ∧ (h = node_def_name ad
          ∨ ∃ n, h = node_def_name ad +:+ "_" +:+ str_of_nat (S (S n)))).
Proof.
  unfold name_nodes.
  apply (foldl_invariant
    (λ st : naming_state,
       let '(_, handles, producers) := st in
       (∀ k a o, (k, (a, o)) ∈ producers →
          a ∈ handles.*1 ∧ ∃ ad, ad ∈ assets_defs ∧ (o, k) ∈ keys_by_output_name ad)
       ∧ (∀ h ad, (h, ad) ∈ handles →
            ad ∈ assets_defs
            ∧ (h = node_def_name ad
               ∨ ∃ n, h = node_def_name ad +:+ "_" +:+ str_of_nat (S (S n)))))).
  - split; [by intros k a o ?%elem_of_nil|by intros h ad ?%elem_of_nil].
  - intros [[c hs] ps] ad Had [Hps Hhs]. unfold naming_step.
    rewrite assign_node_alias_spec.
    assert (Halias : ∀ alias : string,
              (alias = node_def_name ad
               ∨ ∃ n, alias = node_def_name ad +:+ "_" +:+ str_of_nat (S (S n))) →
              (∀ k a o,
                 (k, (a, o)) ∈ foldl (λ acc '(output_name, key),
                                        dict_set acc key (alias, output_name))
                                  ps (keys_by_output_name ad) →
                 a ∈ (dict_set hs alias ad).*1
                 ∧ ∃ ad, ad ∈ assets_defs ∧ (o, k) ∈ keys_by_output_name ad)
              ∧ (∀ h ad', (h, ad') ∈ dict_set hs alias ad →
                   ad' ∈ assets_defs
                   ∧ (h = node_def_name ad'
                      ∨ ∃ n, h = node_def_name ad' +:+ "_" +:+ str_of_nat (S (S n))))).
    { intros alias Halias. split.
      - intros k a o [Hold|(o' & Hout & [= -> ->])]%record_outputs_elems.
        + destruct (Hps _ _ _ Hold) as [Ha Hout]. split; [|done].
          apply dict_set_elem_keys. by right.
        + split; [apply dict_set_elem_keys; by left|by exists ad].
      - intros h ad' [[= -> ->]|Hold]%dict_set_elem_pair; [done|by apply Hhs]. }
    destruct (default 0 (dict_get c (node_def_name ad))) as [|n].
    + apply Halias. by left.
    + apply Halias. right. by exists n.
Qed.

(** With pairwise different node names no alias is needed: every
    definition is entered under its node name. *)
Lemma naming_distinct_names assets_defs
  (collisions : dict string nat) handles producers :
  NoDup (node_def_name <$> assets_defs) →
  (∀ ad, ad ∈ assets_defs →
         dict_get collisions (node_def_name ad) = None
         ∧ node_def_name ad ∉ handles.*1) →
  (foldl naming_step (collisions, handles, producers) assets_defs).1.2
  = handles ++ ((λ ad, (node_def_name ad, ad)) <$> assets_defs).
Proof.
  revert collisions handles producers.
  induction assets_defs as [|ad ads IH]; intros c hs ps Hnd Hfresh; simpl.
  - by rewrite app_nil_r.
  - rewrite fmap_cons in Hnd. apply NoDup_cons in Hnd as [Hname Hnd].
    destruct (Hfresh ad) as [Hc Hh]; [by left|].
    unfold assign_node_alias. rewrite Hc.
    rewrite IH.
    + rewrite dict_set_fresh by done. by rewrite <- app_assoc.
    + done.
    + intros ad' Had'.
      assert (Hne : node_def_name ad' ≠ node_def_name ad).
      { intros Heq. apply Hname. rewrite <- Heq. by apply list_elem_of_fmap_2. }
      destruct (Hfresh ad') as [Hc' Hh']; [by right|]. split.
      * by rewrite dict_get_set_ne.
      * rewrite dict_set_elem_keys. by intros [?|?].
Qed.

(** *** The connecting loop *)

Lemma connect_inputs_keys producers (h : NodeHandle) (nk : node_key)
  (items : dict string AssetKey) deps_a ih_a deps_b ih_b :
  foldM (connect_input producers h nk) (deps_a, ih_a) items = Ok (deps_b, ih_b) →
  deps_b.*1 = deps_a.*1.
Proof.
  intros Hfold.
  change ((λ st : deps_dict * dict NodeInputHandle AssetKey,
             st.1.*1 = deps_a.*1) (deps_b, ih_b)).
  eapply foldM_invariant; [|clear Hfold|exact Hfold]; [done|].
  intros [deps ih] [n k] [deps' ih'] _ Hst. simpl in Hst. unfold connect_input.
  destruct (dict_get producers k) as [[a o]|]; simpl.
  - unfold deps_set, dict_getitem.
    destruct (dict_get deps nk) as [inner|] eqn:Hnk; simpl; [|done].
    intros [= <- <-]. simpl. rewrite dict_set_keys, decide_True; [done|].
    apply dict_get_is_Some. by rewrite Hnk.
  - by intros [= <- <-].
Qed.

(** The dependency dictionary receives one entry per handle, in the order
    of the handle map. *)
Lemma connect_nodes_keys producers
  (by_id : dict AssetsDef (dict string AssetKey)) handles
  deps_a ih_a deps_b ih_b :
  NoDup handles.*1 →
  (∀ h ad, (h, ad) ∈ handles → node_key_of h ad ∉ deps_a.*1) →
  foldM (connect_node producers by_id) (deps_a, ih_a) handles = Ok (deps_b, ih_b) →
  deps_b.*1 = deps_a.*1 ++ ((λ item, node_key_of item.1 item.2) <$> handles).
Proof.
  revert deps_a ih_a.
  induction handles as [|[h0 ad0] handles IH]; intros deps_a ih_a Hnd Hfresh.
  { simpl. intros [= <- <-]. by rewrite app_nil_r. }
  rewrite fmap_cons in Hnd. apply NoDup_cons in Hnd as [Hh0 Hnd]. simpl in Hh0 |- *.
  unfold dict_getitem.
  destruct (dict_get by_id ad0) as [dep_keys|] eqn:Hid; simpl; [|done].
  destruct (foldM (connect_input producers h0 (node_key_of h0 ad0))
              (dict_set deps_a (node_key_of h0 ad0) [], ih_a) dep_keys)
    as [[deps1 ih1]|] eqn:Hinner; simpl; [|done].
  apply connect_inputs_keys in Hinner.
  rewrite dict_set_keys, decide_False in Hinner
    by (apply Hfresh; by left).
  intros Hfold. rewrite (IH _ _ Hnd) with (2:=Hfold).
  - rewrite Hinner. by rewrite <- app_assoc.
  - intros h ad Hin. rewrite Hinner, elem_of_app, list_elem_of_singleton.
    intros [Hold|Heq].
    + eapply Hfresh; [by right|done].
    + apply node_key_of_inj in Heq as ->. apply Hh0.
      apply list_elem_of_fmap. by exists (h0, ad).
Qed.

(** Every dependency the connecting loop enters is the producing node and
    output of some key. *)
Lemma connect_nodes_edges producers
  (by_id : dict AssetsDef (dict string AssetKey)) handles
  deps_a ih_a deps_b ih_b (P : IDependencyDefinition → Prop) :
  (∀ k a o, dict_get producers k = Some (a, o) → P (DependencyDefinition a o)) →
  (∀ nk inner n dep, (nk, inner) ∈ deps_a → (n, dep) ∈ inner → P dep) →
  foldM (connect_node producers by_id) (deps_a, ih_a) handles = Ok (deps_b, ih_b) →
  ∀ nk inner n dep, (nk, inner) ∈ deps_b → (n, dep) ∈ inner → P dep.
Proof.
  intros Hprod Ha Hfold.
  pose (Q := λ st : deps_dict * dict NodeInputHandle AssetKey,
          ∀ nk inner n dep, (nk, inner) ∈ st.1 → (n, dep) ∈ inner → P dep).
  change (Q (deps_b, ih_b)).
  eapply foldM_invariant; [|clear Hfold|exact Hfold]; [exact Ha|].
  intros [deps ih] [h ad] st' _ Hst. simpl.
  unfold dict_getitem. destruct (dict_get by_id ad) as [dep_keys|]; simpl; [|done].
  intros Hinner. eapply foldM_invariant; [|clear Hinner|exact Hinner].
  - intros nk inner n dep [[= -> ->]|Hold]%dict_set_elem_pair;
      [by intros ?%elem_of_nil|by apply (Hst _ _ _ _ Hold)].
  - intros [deps1 ih1] [n0 k0] st2 _ Hst1. unfold connect_input.
    destruct (dict_get producers k0) as [[a o]|] eqn:Hk0; simpl.
    + unfold deps_set, dict_getitem.
      destruct (dict_get deps1 (node_key_of h ad)) as [inner0|] eqn:Hnk;
        simpl; [|done].
      intros [= <-]. intros nk inner n dep [[= -> ->]|Hold]%dict_set_elem_pair.
      * intros [[= -> ->]|Hold]%dict_set_elem_pair; [by eapply Hprod|].
        eapply (Hst1 _ _ _ _ (dict_get_Some_elem _ _ _ Hnk) Hold).
      * by apply (Hst1 _ _ _ _ Hold).
    + intros [= <-]. exact Hst1.
Qed.

(** What [build_node_deps] computes, step by step. *)
Lemma build_node_deps_Ok assets_defs source_assets deps handles ih :
  build_node_deps to_string assets_defs source_assets = Ok (deps, handles, ih) →
  let sorted_defs := sorted (list_compare AssetKey_compare) sort_key assets_defs in
  handles = (name_nodes sorted_defs).1.2
  ∧ ∃ resolved,
      resolve_assets_def_deps to_string sorted_defs source_assets = Ok resolved
      ∧ connect_nodes (name_nodes sorted_defs).2 (index_by_assets_def_id resolved)
          handles = Ok (deps, ih).
Proof.
  intros Hbuild sorted_defs. unfold build_node_deps in Hbuild.
  fold sorted_defs in Hbuild.
  destruct (name_nodes sorted_defs) as [[c hs] ps]. simpl.
  apply bind_Ok in Hbuild as (resolved & Hres & Hbuild).
  apply bind_Ok in Hbuild as ([deps' ih'] & Hconn & [= -> -> ->]).
  split; [done|]. by exists resolved.
Qed.

Lemma build_node_deps_keys assets_defs source_assets deps handles ih :
  build_node_deps to_string assets_defs source_assets = Ok (deps, handles, ih) →
  dict_keys deps = (λ item, node_key_of item.1 item.2) <$> handles
  ∧ NoDup (dict_keys handles) ∧ NoDup (dict_keys deps).
Proof.
  intros (Hhandles & resolved & _ & Hconn)%build_node_deps_Ok.
  assert (Hnd : NoDup handles.*1).
  { rewrite Hhandles. apply name_nodes_NoDup. }
  unfold connect_nodes in Hconn.
  apply connect_nodes_keys in Hconn; [|done|by intros h ad _ ?%elem_of_nil].
  simpl in Hconn. split_and!; [done..|].
  unfold dict_keys. rewrite Hconn.
  apply (NoDup_fmap_2_strong _ handles).
  - intros [h ad] [h' ad'] Hin Hin' Heq. simpl in Heq.
    apply node_key_of_inj in Heq as ->. f_equal.
    assert (Hget : ∀ a, (h', a) ∈ handles → dict_get handles h' = Some a).
    { intros a. by apply dict_elem_get. }
    apply Hget in Hin, Hin'. congruence.
  - clear -Hnd. induction handles as [|[h ad] l IH]; [constructor|].
    rewrite fmap_cons in Hnd. apply NoDup_cons in Hnd as [Hh Hnd].
    constructor; [|by apply IH].
    intros Hin. apply Hh. apply list_elem_of_fmap. by exists (h, ad).
Qed.

Lemma build_node_deps_only_dependency_definitions assets_defs source_assets
  deps handles ih :
  build_node_deps to_string assets_defs source_assets = Ok (deps, handles, ih) →
  only_dependency_definitions deps.
Proof.
  intros (_ & resolved & _ & Hconn)%build_node_deps_Ok.
  intros nk inner n dep Hnk Hdep.
  eapply (connect_nodes_edges _ _ _ _ _ _ _
            (λ dep, ∃ node out, dep = DependencyDefinition node out));
    [| |exact Hconn|exact Hnk|exact Hdep].
  - intros k a o _. by exists a, o.
  - by intros ???? ?%elem_of_nil.
Qed.

(** X5. The dependency dictionary [build_node_deps] returns has exactly
    one entry per entry of the handle map, in the same order, whether or
    not the node has inputs; no handle occurs twice, and every handle
    stands for one of the given definitions, under the name of its op or
    under that name with the suffix [_c] for some [c] of at least 2. *)
Theorem build_node_deps_nodes assets_defs source_assets deps handles ih :
  build_node_deps to_string assets_defs source_assets = Ok (deps, handles, ih) →
  dict_keys deps = (λ item, node_key_of item.1 item.2) <$> handles
  ∧ NoDup (dict_keys handles) ∧ NoDup (dict_keys deps)
  ∧ ∀ h ad, (h, ad) ∈ handles →
      ad ∈ assets_defs
      ∧ (h = node_def_name ad
         ∨ ∃ n, h = node_def_name ad +:+ "_" +:+ str_of_nat (S (S n))).
Proof.
  intros Hbuild.
  destruct (build_node_deps_keys _ _ _ _ _ Hbuild) as (Hkeys & Hnd & Hnd').
  split_and!; [done..|].
  apply build_node_deps_Ok in Hbuild as (Hhandles & _).
  pose proof (name_nodes_invariant
                (sorted (list_compare AssetKey_compare) sort_key assets_defs))
    as Hinv.
  destruct (name_nodes _) as [[c hs] ps]. simpl in Hhandles. subst hs.
  destruct Hinv as [_ Hhs]. intros h ad Hin.
  destruct (Hhs h ad Hin) as [Had Hh]. split; [|done].
  by rewrite <- (sorted_Permutation (list_compare AssetKey_compare) sort_key).
Qed.

(** X6. Every dependency in the dictionary [build_node_deps] returns is a
    [DependencyDefinition] on a node of the handle map and on an output
    name of one of the given definitions: no edge leaves the graph. *)
Theorem build_node_deps_no_dangling_edge assets_defs source_assets
  deps handles ih :
  build_node_deps to_string assets_defs source_assets = Ok (deps, handles, ih) →
  ∀ nk inner input_name dep,
    (nk, inner) ∈ deps → (input_name, dep) ∈ inner →
    ∃ node output_name ad,
      dep = DependencyDefinition node output_name
      ∧ node ∈ dict_keys handles
      ∧ ad ∈ assets_defs
      ∧ output_name ∈ dict_keys (keys_by_output_name ad).
Proof.
  intros (Hhandles & resolved & _ & Hconn)%build_node_deps_Ok.
  intros nk inner n dep Hnk Hdep.
  pose proof (name_nodes_invariant
                (sorted (list_compare AssetKey_compare) sort_key assets_defs))
    as Hinv.
  destruct (name_nodes _) as [[c hs] ps]. simpl in Hhandles, Hconn. subst hs.
  destruct Hinv as [Hps _].
  eapply (connect_nodes_edges _ _ _ _ _ _ _
            (λ dep, ∃ node output_name ad,
               dep = DependencyDefinition node output_name
               ∧ node ∈ dict_keys handles
               ∧ ad ∈ assets_defs
               ∧ output_name ∈ dict_keys (keys_by_output_name ad)));
    [| |exact Hconn|exact Hnk|exact Hdep].
  - intros k a o Hget%dict_get_Some_elem.
    destruct (Hps _ _ _ Hget) as (Ha & ad & Had & Hout).
    exists a, o, ad. split_and!; [done|done| |].
    + by rewrite <- (sorted_Permutation (list_compare AssetKey_compare) sort_key).
    + apply list_elem_of_fmap. by exists (o, k).
  - by intros ???? ?%elem_of_nil.
Qed.

(** X7. The input handle map [build_node_deps] returns has an entry for a
    handle and an input name exactly when the handle is in the handle map
    and its definition declares the input; every key it holds is a
    produced or a source key. *)
Theorem build_node_deps_input_handles assets_defs source_assets deps handles ih :
  build_node_deps to_string assets_defs source_assets = Ok (deps, handles, ih) →
  (∀ h n, is_Some (dict_get ih (h, n))
          ↔ ∃ ad, (h, ad) ∈ handles ∧ n ∈ dict_keys (keys_by_input_name ad))
  ∧ (∀ h n k, dict_get ih (h, n) = Some k →
              k ∈ produced_or_source_keys assets_defs source_assets).
Proof.
  intros Hbuild.
  destruct (build_node_deps_keys _ _ _ _ _ Hbuild) as (_ & Hnd & _).
  apply build_node_deps_Ok in Hbuild as (_ & resolved & Hres & Hconn).
  unfold connect_nodes in Hconn.
  eapply connect_nodes_spec in Hconn as (Hnodes & _ & Hout); [|done|].
  2:{ intros ad' dk Hid. eapply resolve_assets_def_deps_NoDup; [exact Hres|].
      by apply index_by_assets_def_id_elem. }
  assert (Hentry : ∀ h ad, (h, ad) ∈ handles →
            ∃ dep_keys, (ad, dep_keys) ∈ resolved
                        ∧ ∀ n, dict_get ih (h, n) = dict_get dep_keys n).
  { intros h ad Hin.
    destruct (Hnodes h ad Hin) as (dep_keys & inner & Hid & _ & _ & Hih).
    exists dep_keys. split; [by apply index_by_assets_def_id_elem|].
    intros n. rewrite Hih. by destruct (dict_get dep_keys n). }
  assert (Hhandle : ∀ h n, is_Some (dict_get ih (h, n)) →
            ∃ ad, (h, ad) ∈ handles).
  { intros h n Hsome. destruct (decide (h ∈ handles.*1)) as [Hin|Hnin].
    - apply list_elem_of_fmap in Hin as ([h' ad] & -> & Hin). by exists ad.
    - rewrite (Hout h n Hnin) in Hsome. by destruct Hsome. }
  split.
  - intros h n. split.
    + intros Hsome. destruct (Hhandle h n Hsome) as [ad Hin].
      exists ad. split; [done|].
      destruct (Hentry h ad Hin) as (dep_keys & Hdk & Hih).
      destruct (resolve_assets_def_deps_entries _ _ _ _ _ _ Hres Hdk)
        as (_ & Hnames & _).
      apply Hnames. apply dict_get_is_Some. by rewrite <- Hih.
    + intros (ad & Hin & Hn).
      destruct (Hentry h ad Hin) as (dep_keys & Hdk & Hih).
      destruct (resolve_assets_def_deps_entries _ _ _ _ _ _ Hres Hdk)
        as (_ & Hnames & _).
      rewrite Hih. apply dict_get_is_Some. by apply Hnames.
  - intros h n k Hget.
    destruct (Hhandle h n) as [ad Hin]; [by rewrite Hget|].
    destruct (Hentry h ad Hin) as (dep_keys & Hdk & Hih).
    destruct (resolve_assets_def_deps_entries _ _ _ _ _ _ Hres Hdk)
      as (_ & _ & Hkeys).
    rewrite Hih in Hget. apply dict_get_Some_elem in Hget.
    destruct (Hkeys n k Hget) as [Hk _].
    eapply produced_or_source_keys_perm; [|exact Hk].
    symmetry. apply sorted_Permutation.
Qed.

(** X8. When the given definitions have pairwise different op names, no
    alias is introduced: the handle map lists every definition under the
    name of its op, in the sorted order, and the dependency dictionary is
    keyed by these plain names. *)
Theorem build_node_deps_distinct_names assets_defs source_assets deps handles ih :
  NoDup (node_def_name <$> assets_defs) →
  build_node_deps to_string assets_defs source_assets = Ok (deps, handles, ih) →
  let sorted_defs := sorted (list_compare AssetKey_compare) sort_key assets_defs in
  handles = (λ ad, (node_def_name ad, ad)) <$> sorted_defs
  ∧ dict_keys deps = (λ ad, NodeName (node_def_name ad)) <$> sorted_defs.
Proof.
  intros Hnames Hbuild sorted_defs.
  destruct (build_node_deps_keys _ _ _ _ _ Hbuild) as (Hkeys & _ & _).
  apply build_node_deps_Ok in Hbuild as (Hhandles & _).
  fold sorted_defs in Hhandles.
  assert (Hh : handles = (λ ad, (node_def_name ad, ad)) <$> sorted_defs).
  { rewrite Hhandles. unfold name_nodes.
    rewrite naming_distinct_names; [done| |].
    - unfold sorted_defs. by rewrite sorted_Permutation.
    - intros ad _. split; [done|apply not_elem_of_nil]. }
  split; [done|]. rewrite Hkeys, Hh, <- list_fmap_compose.
  apply list_fmap_ext. intros _ ad _. simpl.
  unfold node_key_of. by rewrite decide_False by (by intros []).
Qed.

(** X9. The cycle check of a graph that [build_node_deps] assembled never
    fails: it answers true or false. *)
Theorem build_node_deps_has_cycles_answers assets_defs source_assets
  deps handles ih :
  build_node_deps to_string assets_defs source_assets = Ok (deps, handles, ih) →
  _has_cycles deps = Ok true ∨ _has_cycles deps = Ok false.
Proof.
  intros Hbuild.
  destruct (build_node_deps_keys _ _ _ _ _ Hbuild) as (_ & _ & Hnd).
  apply build_node_deps_only_dependency_definitions in Hbuild.
  destruct (record_nodes_spec deps [] Hnd) as (nd & Hnd_eq & Hkeys & _);
    [by intros u _ ?%elem_of_nil|done|].
  unfold _has_cycles, build_node_deps_sets. rewrite Hnd_eq. simpl.
  pose proof (toposort_spec nd) as Htopo.
  destruct (toposort nd) as [layers|e]; simpl; [by right|].
  destruct Htopo as [-> _]; [by rewrite Hkeys|]. by left.
Qed.

(** *** The connecting loop never misses a lookup *)

Lemma index_by_assets_def_id_keys
  (resolved : list (AssetsDef * dict string AssetKey)) (ad : AssetsDef) :
  ad ∈ resolved.*1 → is_Some (dict_get (index_by_assets_def_id resolved) ad).
Proof.
  intros Hin. apply dict_get_is_Some. unfold index_by_assets_def_id.
  assert (Hgen : ∀ acc : dict AssetsDef (dict string AssetKey),
            ad ∈ acc.*1 ∨ ad ∈ resolved.*1 →
            ad ∈ (foldl (λ acc '(assets_def, dep_keys),
                           dict_set acc assets_def dep_keys) acc resolved).*1).
  { clear Hin. induction resolved as [|[ad0 dk0] resolved IH]; intros acc; simpl.
    - intros [?|?%elem_of_nil]; done.
    - intros Hin. apply IH. rewrite dict_set_elem_keys.
      destruct Hin as [?|[->|?]%elem_of_cons]; tauto. }
  apply Hgen. by right.
Qed.

Lemma connect_inputs_total producers (h : NodeHandle) (nk : node_key)
  (items : dict string AssetKey) deps ih :
  is_Some (dict_get deps nk) →
  ∃ st, foldM (connect_input producers h nk) (deps, ih) items = Ok st.
Proof.
  revert deps ih. induction items as [|[n k] items IH]; intros deps ih Hnk; simpl.
  - by eexists.
  - destruct (dict_get producers k) as [[a o]|]; simpl.
    + unfold deps_set, dict_getitem. destruct Hnk as [inner Hnk].
      rewrite Hnk. simpl. apply IH. rewrite dict_get_set_eq. by eexists.
    + by apply IH.
Qed.

Lemma connect_nodes_total producers
  (by_id : dict AssetsDef (dict string AssetKey)) handles st :
  (∀ h ad, (h, ad) ∈ handles → is_Some (dict_get by_id ad)) →
  ∃ st', foldM (connect_node producers by_id) st handles = Ok st'.
Proof.
  revert st. induction handles as [|[h ad] handles IH]; intros [deps ih] Hby; simpl.
  - by eexists.
  - unfold dict_getitem. destruct (Hby h ad) as [dep_keys Hid]; [by left|].
    rewrite Hid. simpl.
    destruct (connect_inputs_total producers h (node_key_of h ad) dep_keys
                (dict_set deps (node_key_of h ad) []) ih) as [st1 Hst1].
    { rewrite dict_get_set_eq. by eexists. }
    destruct (IH st1) as [st' Hst'].
    { intros h' ad' Hin. apply (Hby h' ad'). by right. }
    exists st'. apply bind_Ok. by exists st1.
Qed.

(** X19. [build_node_deps] fails only when the key resolver fails on the
    sorted definitions, and then with the resolver's error: once the
    inputs are resolved, no lookup of the connecting loop misses. *)
Theorem build_node_deps_returns assets_defs source_assets :
  match resolve_assets_def_deps to_string
          (sorted (list_compare AssetKey_compare) sort_key assets_defs)
          source_assets with
  | Ok _ =>
      ∃ deps handles ih,
        build_node_deps to_string assets_defs source_assets
        = Ok (deps, handles, ih)
  | Raise e => build_node_deps to_string assets_defs source_assets = Raise e
  end.
Proof.
  unfold build_node_deps.
  pose proof (name_nodes_invariant
                (sorted (list_compare AssetKey_compare) sort_key assets_defs))
    as Hinv.
  destruct (name_nodes _) as [[c hs] ps]. destruct Hinv as [_ Hhs].
  destruct (resolve_assets_def_deps _ _ _) as [resolved|e] eqn:Hres; [|done].
  simpl. unfold connect_nodes.
  destruct (connect_nodes_total ps (index_by_assets_def_id resolved) hs ([], []))
    as [[deps ih] Hconn].
  - intros h ad Hin. apply index_by_assets_def_id_keys.
    rewrite (resolve_assets_def_deps_fst _ _ _ _ Hres). by apply (Hhs h ad).
  - rewrite Hconn. simpl. by exists deps, hs, ih.
Qed.

(** *** Edges and producers *)

Lemma aliases_from_length (collisions : dict string nat) assets_defs :
  length (aliases_from collisions assets_defs) = length assets_defs.
Proof.
  revert collisions. induction assets_defs as [|ad ads IH]; intros c; simpl; [done|].
  destruct (assign_node_alias c (node_def_name ad)) as [c' alias]. simpl.
  by rewrite IH.
Qed.

(** As long as the identifiers are fresh, every definition is entered
    under its own. *)
Lemma naming_fresh_handles assets_defs
  (collisions : dict string nat) handles producers :
  NoDup (handles.*1 ++ aliases_from collisions assets_defs) →
  (foldl naming_step (collisions, handles, producers) assets_defs).1.2
  = handles ++ zip (aliases_from collisions assets_defs) assets_defs.
Proof.
  revert collisions handles producers.
  induction assets_defs as [|ad ads IH]; intros c hs ps Hnd; simpl in *.
  - by rewrite app_nil_r.
  - destruct (assign_node_alias c (node_def_name ad)) as [c' alias]. simpl in *.
    assert (Hfresh : alias ∉ hs.*1).
    { apply NoDup_app in Hnd as (_ & Hdisj & _). intros Hin.
      apply (Hdisj _ Hin). by left. }
    rewrite IH.
    + rewrite dict_set_fresh by done. by rewrite <- app_assoc.
    + rewrite dict_set_fresh by done.
      by rewrite fmap_app, <- app_assoc.
Qed.

(** The node and output recorded for a key are the identifier of a
    definition of the list and the name of an output of that definition
    with that key. *)
Lemma naming_producers_handles assets_defs
  (collisions : dict string nat) handles producers k a o :
  (k, (a, o)) ∈ (foldl naming_step (collisions, handles, producers) assets_defs).2 →
  (k, (a, o)) ∈ producers
  ∨ ∃ ad, (a, ad) ∈ zip (aliases_from collisions assets_defs) assets_defs
          ∧ (o, k) ∈ keys_by_output_name ad.
Proof.
  revert collisions handles producers.
  induction assets_defs as [|ad ads IH]; intros c hs ps; simpl; [by left|].
  destruct (assign_node_alias c (node_def_name ad)) as [c' alias]. simpl.
  intros [[Hold|(o' & Hout & [= -> ->])]%record_outputs_elems|(ad' & Hin & Hout)]%IH.
  - by left.
  - right. exists ad. split; [by left|done].
  - right. exists ad'. split; [by right|done].
Qed.

(** X23. When the suffix scheme gives the sorted definitions pairwise
    distinct identifiers, every definition is a node of the graph
    [build_node_deps] returns, under its identifier and in the sorted
    order.  For every node and input name the input handle map holds the
    key the input resolved to.  The node's dependency dictionary has an
    edge for an input exactly when a definition of the graph lists the
    resolved key among its outputs, and that edge names the identifier of
    such a definition and the name of its output with that key; an input
    whose key no definition produces, as the key of a source asset, has no
    edge. *)
Theorem build_node_deps_edges assets_defs source_assets deps handles ih :
  let sorted_defs := sorted (list_compare AssetKey_compare) sort_key assets_defs in
  NoDup (node_aliases sorted_defs) →
  build_node_deps to_string assets_defs source_assets = Ok (deps, handles, ih) →
  handles = zip (node_aliases sorted_defs) sorted_defs
  ∧ handles.*2 = sorted_defs
  ∧ ∃ resolved,
      resolve_assets_def_deps to_string sorted_defs source_assets = Ok resolved
      ∧ ∀ h ad, (h, ad) ∈ handles →
          ∃ dep_keys inner,
            (ad, dep_keys) ∈ resolved
            ∧ dict_get deps (node_key_of h ad) = Some inner
            ∧ ∀ input_name,
                dict_get ih (h, input_name) = dict_get dep_keys input_name
                ∧ match dict_get dep_keys input_name with
                  | None => dict_get inner input_name = None
                  | Some k =>
                      (is_Some (dict_get inner input_name)
                       ↔ ∃ h' ad', (h', ad') ∈ handles
                                   ∧ k ∈ dict_values (keys_by_output_name ad'))
                      ∧ ∀ dep, dict_get inner input_name = Some dep →
                          ∃ h' ad' output_name,
                            dep = DependencyDefinition h' output_name
                            ∧ (h', ad') ∈ handles
                            ∧ (output_name, k) ∈ keys_by_output_name ad'
                  end.
Proof.
  intros sorted_defs Hfresh Hbuild.
  destruct (build_node_deps_keys _ _ _ _ _ Hbuild) as (_ & Hnd & _).
  apply build_node_deps_Ok in Hbuild as (Hhandles & resolved & Hres & Hconn).
  fold sorted_defs in Hhandles, Hres, Hconn.
  assert (Hzip : handles = zip (node_aliases sorted_defs) sorted_defs).
  { rewrite Hhandles. unfold name_nodes. by rewrite naming_fresh_handles. }
  assert (Hsnd : handles.*2 = sorted_defs).
  { rewrite Hzip. apply snd_zip. unfold node_aliases.
    by rewrite aliases_from_length. }
  split_and!; [done..|].
  exists resolved. split; [done|]. intros h ad Hin.
  set (producers := (name_nodes sorted_defs).2) in *.
  assert (Hprod : ∀ k a o, dict_get producers k = Some (a, o) →
            ∃ ad', (a, ad') ∈ handles ∧ (o, k) ∈ keys_by_output_name ad').
  { intros k a o Hget%dict_get_Some_elem. unfold producers, name_nodes in Hget.
    apply naming_producers_handles in Hget as [[]%elem_of_nil|(ad' & Hin' & Hout)].
    exists ad'. by rewrite Hzip. }
  assert (Hsome : ∀ k, is_Some (dict_get producers k)
            ↔ ∃ h' ad', (h', ad') ∈ handles
                        ∧ k ∈ dict_values (keys_by_output_name ad')).
  { intros k. rewrite dict_get_is_Some. unfold producers, name_nodes.
    rewrite (naming_producers to_string). simpl. rewrite elem_of_nil. split.
    - intros [[]|(ad' & Had' & Hk)]. rewrite <- Hsnd in Had'.
      apply list_elem_of_fmap in Had' as ([h' ad''] & -> & Hin').
      by exists h', ad''.
    - intros (h' & ad' & Hin' & Hk). right. exists ad'. split; [|done].
      rewrite <- Hsnd. apply list_elem_of_fmap. by exists (h', ad'). }
  unfold connect_nodes in Hconn.
  eapply connect_nodes_spec in Hconn as (Hnodes & _ & _); [|done|].
  2:{ intros ad' dk Hid. eapply resolve_assets_def_deps_NoDup; [exact Hres|].
      by apply index_by_assets_def_id_elem. }
  destruct (Hnodes h ad Hin) as (dep_keys & inner & Hid & Hnk & Hinner & Hih).
  exists dep_keys, inner. split_and!; [by apply index_by_assets_def_id_elem|done|].
  intros n. split; [rewrite Hih; by destruct (dict_get dep_keys n)|].
  rewrite Hinner. unfold expected_edge.
  destruct (dict_get dep_keys n) as [k|]; [|done].
  rewrite <- Hsome.
  destruct (dict_get producers k) as [[a o]|] eqn:Hk.
  - split; [done|]. intros dep [= <-].
    destruct (Hprod k a o Hk) as (ad' & ? & ?). by exists a, ad', o.
  - split; [done|]. by intros dep [=].
Qed.

End GraphProperties.
(** ** The cycle check: what it raises *)

Section CycleCheckProperties.
Implicit Types (deps : dict node_key (dict string IDependencyDefinition)).
Implicit Types (nd : dict node_key (list node_key)).

Lemma toposort_loop_raises {A : Type} `{EqDecision A} fuel
  (data : dict A (list A)) e :
  toposort_loop fuel data = Some (Raise e) → e = CircularDependencyError.
Proof.
  revert data. induction fuel as [|fuel IH]; intros data;
    rewrite toposort_loop_unfold; case_decide.
  - case_decide; by intros [= <-].
  - done.
  - case_decide; by intros [= <-].
  - destruct (toposort_loop fuel _) as [[layers|e']|] eqn:Hrec; simpl; [done| |done].
    intros [= <-]. by eapply IH.
Qed.

Lemma toposort_raises {A : Type} `{EqDecision A} (data : dict A (list A)) e :
  toposort data = Raise e → e = CircularDependencyError.
Proof.
  unfold toposort. case_decide; [done|].
  destruct (toposort_loop _ _) as [r|] eqn:Hloop; [|by intros [= <-]].
  intros ->. by eapply toposort_loop_raises.
Qed.

(** The inner loop either meets a dependency of another type and fails,
    or records every dependency. *)
Lemma record_upstreams_total (u : node_key) (vals : list IDependencyDefinition) nd :
  is_Some (dict_get nd u) →
  (foldM (record_upstream u) nd vals = Raise (CheckError unexpected_dependency_msg)
   ∧ ∃ ds, MultiDependencyDefinition ds ∈ vals)
  ∨ ((∃ nd', foldM (record_upstream u) nd vals = Ok nd')
     ∧ ∀ dep, dep ∈ vals → ∃ node out, dep = DependencyDefinition node out).
Proof.
  revert nd. induction vals as [|dep vals IH]; intros nd Hu; simpl.
  - right. split; [by eexists|by intros dep ?%elem_of_nil].
  - destruct dep as [node out|ds]; simpl.
    + unfold dict_getitem. destruct Hu as [s Hs]. rewrite Hs. simpl.
      destruct (IH (dict_set nd u (set_add s (NodeName node))))
        as [[Hr (ds & Hds)]|[Hok Hall]].
      * rewrite dict_get_set_eq. by eexists.
      * left. split; [done|]. exists ds. by right.
      * right. split; [done|].
        intros dep [->|?]%elem_of_cons; [by eexists _, _|by apply Hall].
    + left. split; [done|]. exists ds. by left.
Qed.

Lemma record_nodes_total deps nd :
  (foldM record_node nd deps = Raise (CheckError unexpected_dependency_msg)
   ∧ ∃ nk inner n ds, (nk, inner) ∈ deps
                      ∧ (n, MultiDependencyDefinition ds) ∈ inner)
  ∨ ((∃ nd', foldM record_node nd deps = Ok nd')
     ∧ only_dependency_definitions deps).
Proof.
  revert nd. induction deps as [|[u inner] deps IH]; intros nd; simpl.
  - right. split; [by eexists|by intros ???? ?%elem_of_nil].
  - destruct (record_upstreams_total u (dict_values inner) (dict_set nd u []))
      as [[Hr (ds & Hds)]|[[nd1 Hok] Hall]].
    + rewrite dict_get_set_eq. by eexists.
    + left. rewrite Hr. split; [done|].
      apply list_elem_of_fmap in Hds as ([n dep] & Heq & Hin).
      simpl in Heq. subst dep.
      exists u, inner, n, ds. split; [by left|done].
    + rewrite Hok. simpl.
      destruct (IH nd1) as [[Hr (nk & inner' & n & ds & Hin & Hds)]|[Hok' Hdd]].
      * left. split; [done|]. exists nk, inner', n, ds. split; [by right|done].
      * right. split; [done|].
        intros nk inner' n dep [[= -> ->]|Hin]%elem_of_cons Hdep.
        -- apply Hall. apply list_elem_of_fmap. by exists (n, dep).
        -- by eapply Hdd.
Qed.

(** X10. The cycle check raises the failure of [check.failed] exactly
    when the dictionary holds a dependency that is no
    [DependencyDefinition]; the [except] clause does not catch it, and
    the check raises nothing else. *)
Theorem has_cycles_unexpected_dependency deps :
  (_has_cycles deps = Raise (CheckError unexpected_dependency_msg)
   ↔ ∃ nk inner input_name ds,
       (nk, inner) ∈ deps
       ∧ (input_name, MultiDependencyDefinition ds) ∈ inner)
  ∧ ∀ e, _has_cycles deps = Raise e → e = CheckError unexpected_dependency_msg.
Proof.
  unfold _has_cycles, build_node_deps_sets.
  destruct (record_nodes_total deps [])
    as [[Hr Hex]|[[nd Hok] Hdd]].
  - rewrite Hr. simpl. split; [done|]. by intros e [= <-].
  - rewrite Hok. simpl.
    assert (Hnone : ¬ ∃ nk inner input_name ds,
              (nk, inner) ∈ deps
              ∧ (input_name, MultiDependencyDefinition ds) ∈ inner).
    { intros (nk & inner & n & ds & Hin & Hds).
      by destruct (Hdd _ _ _ _ Hin Hds) as (? & ? & ?). }
    destruct (toposort nd) as [layers|e0] eqn:Htopo; simpl.
    + split; [by split|done].
    + apply toposort_raises in Htopo as ->. split; [by split|done].
Qed.

End CycleCheckProperties.
(** ** The colouring of the cycle resolver *)

Lemma color_of_set (colors : dict string Z) (name : string) (c : Z) (n : string) :
  color_of (dict_set colors name c) n
  = if decide (n = name) then c else color_of colors n.
Proof. unfold color_of. rewrite dict_get_set. by case_decide. Qed.

Section ColouringProperties.
Context {PartitionsDefinition ResourceDefinition : Type}.
Context `{EqDecision PartitionsDefinition, EqDecision ResourceDefinition}.
Local Abbreviation AssetsDef := (@AssetsDefinition PartitionsDefinition ResourceDefinition).
Implicit Types (downstream : dict string (list string)).
Implicit Types (by_name : dict string AssetsDef) (colors : dict string Z).
Implicit Types (rec : string → Z → dict string Z → option (result (dict string Z))).

(** One round of the loop over the downstream names. *)
Lemma dfs_step_Ok rec by_name name cur_color colors d :
  dfs_step rec by_name name cur_color (Some (Ok colors)) d
  = if decide (color_of colors d < cur_color + color_step by_name name d)%Z
    then rec d (cur_color + color_step by_name name d)%Z colors
    else Some (Ok colors).
Proof.
  unfold dfs_step, color_step, color_of.
  destruct (in_current_node by_name name d); [by rewrite Z.add_0_r|done].
Qed.

(** A loop that ends with a colouring started from one. *)
Lemma foldl_dfs_step_Ok rec by_name name cur_color names acc colors' :
  foldl (dfs_step rec by_name name cur_color) acc names = Some (Ok colors') →
  ∃ colors, acc = Some (Ok colors).
Proof.
  revert acc. induction names as [|d names IH]; intros acc; simpl.
  - intros ->. by eexists.
  - intros [ci Hci]%IH. destruct acc as [[colors|e]|]; [by eexists|done|done].
Qed.

Lemma edges_colored_mono downstream by_name colors colors' n :
  dict_get colors' n = dict_get colors n →
  (∀ d, (color_of colors d ≤ color_of colors' d)%Z) →
  edges_colored downstream by_name colors n →
  edges_colored downstream by_name colors' n.
Proof.
  intros Hsame Hmono Hn names d Hnames Hd c Hc. rewrite Hsame in Hc.
  specialize (Hn names d Hnames Hd c Hc). specialize (Hmono d). lia.
Qed.

(** The loop over the downstream names of [name], from the colouring
    [colors0] in which [name] has just received [cur_color]. *)
Lemma dfs_loop_colouring rec downstream by_name name cur_color colors0 all_names :
  (∀ d new ci cj, (color_of ci d ≤ new)%Z → rec d new ci = Some (Ok cj) →
                  recoloured downstream by_name d new ci cj) →
  dict_get downstream name = Some all_names →
  ∀ rest done_ ci colors',
    (∀ d, d ∈ done_ ++ rest → d ∈ all_names) →
    (∀ n, (color_of colors0 n ≤ color_of ci n)%Z) →
    (∀ n, n ≠ name →
          edges_colored downstream by_name colors0 n
          ∨ dict_get ci n ≠ dict_get colors0 n →
          edges_colored downstream by_name ci n) →
    (∀ d, d ∈ done_ → edge_colored by_name ci name d) →
    (dict_get ci name = Some cur_color
     ∨ edges_colored downstream by_name ci name) →
    foldl (dfs_step rec by_name name cur_color) (Some (Ok ci)) rest
    = Some (Ok colors') →
    (∀ n, (color_of colors0 n ≤ color_of colors' n)%Z)
    ∧ (∀ n, n ≠ name →
            edges_colored downstream by_name colors0 n
            ∨ dict_get colors' n ≠ dict_get colors0 n →
            edges_colored downstream by_name colors' n)
    ∧ (∀ d, d ∈ done_ ++ rest → edge_colored by_name colors' name d)
    ∧ (dict_get colors' name = Some cur_color
       ∨ edges_colored downstream by_name colors' name).
Proof.
  intros Hrec Hnames.
  induction rest as [|d rest IH]; intros done_ ci colors' Hsub Hmono Hothers Hdone Hname.
  { simpl. intros [= <-]. by rewrite app_nil_r. }
  cbn [foldl]. rewrite dfs_step_Ok.
  replace (done_ ++ d :: rest) with ((done_ ++ [d]) ++ rest) in *
    by (by rewrite <- app_assoc).
  assert (Hd : d ∈ all_names).
  { apply Hsub. rewrite !elem_of_app, list_elem_of_singleton. tauto. }
  assert (Hsub' : ∀ d', d' ∈ done_ ++ [d] → d' ∈ all_names).
  { intros d' ?. apply Hsub. apply elem_of_app. by left. }
  case_decide as Hlt.
  - intros Hfold. pose proof Hfold as Hfold0.
    apply foldl_dfs_step_Ok in Hfold0 as [cj Hcj]. rewrite Hcj in Hfold.
    destruct (Hrec _ _ _ _ (Z.lt_le_incl _ _ Hlt) Hcj) as (Hmono' & Hd_color & Hedges).
    apply (IH (done_ ++ [d]) cj colors' Hsub); [| | | |exact Hfold].
    + intros n. specialize (Hmono n). specialize (Hmono' n). lia.
    + intros n Hne Hn. apply Hedges.
      destruct (decide (dict_get cj n = dict_get ci n)) as [Heq|Hchanged];
        [|by right; left].
      left. apply Hothers; [done|]. rewrite Heq in Hn. exact Hn.
    + destruct (decide (dict_get cj name = dict_get ci name)) as [Heq|Hchanged].
      * intros d' [Hd' | ->%list_elem_of_singleton]%elem_of_app.
        -- intros c Hc. rewrite Heq in Hc. specialize (Hdone d' Hd' c Hc).
           specialize (Hmono' d'). lia.
        -- destruct Hname as [Hname|Hname].
           ++ intros c Hc. rewrite Heq, Hname in Hc. injection Hc as <-. lia.
           ++ exact (Hedges name (or_introl Hname) all_names d Hnames Hd).
      * intros d' Hd'.
        exact (Hedges name (or_intror (or_introl Hchanged)) all_names d' Hnames
                 (Hsub' d' Hd')).
    + destruct (decide (dict_get cj name = dict_get ci name)) as [Heq|Hchanged].
      * destruct Hname as [Hname|Hname]; [left; by rewrite Heq|].
        right. apply Hedges. by left.
      * right. apply Hedges. by right; left.
  - apply (IH (done_ ++ [d]) ci colors' Hsub); [done|done| |done].
    intros d' [Hd' | ->%list_elem_of_singleton]%elem_of_app; [by apply Hdone|].
    destruct Hname as [Hname|Hname].
    + intros c Hc. rewrite Hname in Hc. injection Hc as <-. lia.
    + exact (Hname all_names d Hnames Hd).
Qed.

Lemma _dfs_recoloured fuel downstream by_name name cur_color colors colors' :
  (color_of colors name ≤ cur_color)%Z →
  _dfs fuel downstream by_name name cur_color colors = Some (Ok colors') →
  recoloured downstream by_name name cur_color colors colors'.
Proof.
  revert name cur_color colors colors'.
  induction fuel as [|fuel IH]; intros name cur_color colors colors' Hpre; [done|].
  rewrite _dfs_unfold. unfold dict_getitem.
  destruct (dict_get downstream name) as [all_names|] eqn:Hnames; [|done].
  intros Hfold.
  assert (Hmono0 : ∀ n, (color_of colors n
                         ≤ color_of (dict_set colors name cur_color) n)%Z).
  { intros n. rewrite color_of_set. case_decide; [by subst|done]. }
  eapply (dfs_loop_colouring _ _ _ _ _ (dict_set colors name cur_color)
            all_names IH Hnames all_names [] _ colors') in Hfold
    as (Hmono & Hothers & Hdone & _).
  - split_and!.
    + intros n. specialize (Hmono n). specialize (Hmono0 n). lia.
    + specialize (Hmono name). rewrite color_of_set, decide_True in Hmono; done.
    + intros n Hn. destruct (decide (n = name)) as [->|Hne].
      * intros names d Hnames' Hd. rewrite Hnames in Hnames'.
        injection Hnames' as <-. by apply Hdone.
      * apply Hothers; [done|].
        destruct Hn as [Hn|[Hn|Hn]]; [|right|done].
        -- left. eapply edges_colored_mono; [|exact Hmono0|exact Hn].
           by apply dict_get_set_ne.
        -- by rewrite dict_get_set_ne.
  - done.
  - done.
  - intros n _ [?|?]; done.
  - by intros d ?%elem_of_nil.
  - left. apply dict_get_set_eq.
Qed.

(** X11. A call of [_dfs] that returns lowers no colour, leaves the name
    it starts from with at least the colour it was called with, and makes
    the downstream edges consistent for that name and for every name it
    recoloured, keeping them consistent where they were: a downstream
    name of a coloured name has at least that colour, and a strictly
    greater one when it is no key of the same definition. *)
Theorem dfs_colouring fuel downstream by_name name cur_color colors colors' :
  (color_of colors name ≤ cur_color)%Z →
  _dfs fuel downstream by_name name cur_color colors = Some (Ok colors') →
  (∀ n, (color_of colors n ≤ color_of colors' n)%Z)
  ∧ (cur_color ≤ color_of colors' name)%Z
  ∧ ∀ n, edges_colored downstream by_name colors n
         ∨ dict_get colors' n ≠ dict_get colors n ∨ n = name →
         ∀ c names d,
           dict_get colors' n = Some c →
           dict_get downstream n = Some names → d ∈ names →
           (if in_current_node by_name n d then c ≤ color_of colors' d
            else c < color_of colors' d)%Z.
Proof.
  intros Hpre Hdfs.
  destruct (_dfs_recoloured _ _ _ _ _ _ _ Hpre Hdfs) as (Hmono & Hname & Hedges).
  split_and!; [done..|].
  intros n Hn c names d Hc Hnames Hd.
  specialize (Hedges n Hn names d Hnames Hd c Hc). unfold color_step in Hedges.
  destruct (in_current_node by_name n d); lia.
Qed.

(** *** Invariants of the colouring *)

(** A property of the colouring that holds once the first name is
    coloured and that every later assignment [colors[name] = cur_color]
    keeps, holds when [_dfs] returns. *)
Lemma _dfs_invariant (Inv : dict string Z → Prop) (call : string → Z → Prop)
  fuel downstream by_name :
  (∀ name c colors, call name c → Inv colors → Inv (dict_set colors name c)) →
  (∀ name c names d,
     call name c → dict_get downstream name = Some names → d ∈ names →
     call d c ∧ call d (c + 1)%Z) →
  ∀ name cur_color colors colors',
    call name cur_color → Inv (dict_set colors name cur_color) →
    _dfs fuel downstream by_name name cur_color colors = Some (Ok colors') →
    Inv colors'.
Proof.
  intros Hset Hcall.
  induction fuel as [|fuel IH]; intros name cur_color colors colors' Hc Hinv; [done|].
  rewrite _dfs_unfold. unfold dict_getitem.
  destruct (dict_get downstream name) as [all_names|] eqn:Hnames; [|done].
  assert (Hloop : ∀ rest ci,
            (∀ d, d ∈ rest → d ∈ all_names) → Inv ci →
            foldl (dfs_step (_dfs fuel downstream by_name) by_name name cur_color)
              (Some (Ok ci)) rest = Some (Ok colors') →
            Inv colors').
  { induction rest as [|d rest IHrest]; intros ci Hsub Hci.
    - simpl. by intros [= <-].
    - cbn [foldl]. rewrite dfs_step_Ok.
      assert (Hd : d ∈ all_names) by (apply Hsub; by left).
      assert (Hsub' : ∀ d', d' ∈ rest → d' ∈ all_names).
      { intros d' ?. apply Hsub. by right. }
      case_decide; [|by apply IHrest].
      intros Hfold. pose proof Hfold as Hfold0.
      apply foldl_dfs_step_Ok in Hfold0 as [cj Hcj]. rewrite Hcj in Hfold.
      apply (IHrest cj Hsub'); [|done].
      destruct (Hcall _ _ _ _ Hc Hnames Hd) as [H0 H1].
      assert (Hnew : call d (cur_color + color_step by_name name d)%Z).
      { unfold color_step. by destruct (in_current_node by_name name d);
          [rewrite Z.add_0_r|]. }
      eapply IH; [exact Hnew| |exact Hcj]. by apply Hset. }
  by apply Hloop.
Qed.

(** A name that is neither the start of the call nor a downstream name
    keeps its entry. *)
Lemma _dfs_frame fuel downstream by_name name cur_color colors colors' n :
  n ≠ name → (∀ m names, dict_get downstream m = Some names → n ∉ names) →
  _dfs fuel downstream by_name name cur_color colors = Some (Ok colors') →
  dict_get colors' n = dict_get colors n.
Proof.
  intros Hne Hn.
  apply (_dfs_invariant (λ cx, dict_get cx n = dict_get colors n)
           (λ name' _, name' ≠ n)).
  - intros name' c cx Hname' Hcx. by rewrite dict_get_set_ne.
  - intros name' c names d _ Hnames Hd.
    assert (d ≠ n) by (intros ->; by eapply Hn). done.
  - done.
  - by rewrite dict_get_set_ne.
Qed.

(** A start name that is no downstream name ends with the colour of the
    call. *)
Lemma _dfs_start_color fuel downstream by_name name cur_color colors colors' :
  (∀ m names, dict_get downstream m = Some names → name ∉ names) →
  _dfs fuel downstream by_name name cur_color colors = Some (Ok colors') →
  dict_get colors' name = Some cur_color.
Proof.
  intros Hname.
  apply (_dfs_invariant (λ cx, dict_get cx name = Some cur_color)
           (λ name' c, name' = name → c = cur_color)).
  - intros name' c cx Hcall Hcx. rewrite dict_get_set.
    case_decide as Heq; [|done]. symmetry in Heq. by rewrite (Hcall Heq).
  - intros name' c names d _ Hnames Hd.
    assert (d ≠ name) by (intros ->; by eapply Hname). done.
  - done.
  - apply dict_get_set_eq.
Qed.

(** The loop over the roots stops at the first call that does not return
    a colouring. *)
Lemma color_from_roots_Ok fuel downstream by_name roots acc colors' :
  foldl (λ acc root_name,
           match acc with
           | Some (Ok colors) => _dfs fuel downstream by_name root_name 0%Z colors
           | stopped => stopped
           end) acc roots = Some (Ok colors') →
  ∃ colors, acc = Some (Ok colors).
Proof.
  revert acc. induction roots as [|r roots IH]; intros acc; simpl.
  - intros ->. by eexists.
  - intros [ci Hci]%IH. destruct acc as [[colors|e]|]; [by eexists|done|done].
Qed.

(** X12. When no root is a downstream name (and no root is listed twice)
    the colouring that the loop over the roots returns is consistent on
    every edge: a downstream name of a coloured name is coloured, with at
    least the same colour when it is a key of the same definition and
    with a strictly greater colour otherwise, so always with a strictly
    greater colour when no definition produces the coloured name; every
    root has colour 0. *)
Theorem color_from_roots_colouring fuel downstream by_name roots colors :
  NoDup roots →
  (∀ m names r, dict_get downstream m = Some names → r ∈ roots → r ∉ names) →
  color_from_roots fuel downstream by_name roots = Some (Ok colors) →
  (∀ r, r ∈ roots → dict_get colors r = Some 0%Z)
  ∧ (∀ name c names d,
       dict_get colors name = Some c →
       dict_get downstream name = Some names → d ∈ names →
       ∃ c', dict_get colors d = Some c'
             ∧ (if in_current_node by_name name d then c ≤ c' else c < c')%Z)
  ∧ ∀ name c names d,
      dict_get by_name name = None →
      dict_get colors name = Some c →
      dict_get downstream name = Some names → d ∈ names →
      ∃ c', dict_get colors d = Some c' ∧ (c < c')%Z.
Proof.
  intros Hnd Hroots Hcolors.
  pose (reached := λ (done_ : list string) (n : string),
          n ∈ done_ ∨ ∃ m names, dict_get downstream m = Some names ∧ n ∈ names).
  assert (Hloop : ∀ rest done_ ci,
            NoDup rest → (∀ r, r ∈ done_ ++ rest → r ∈ roots) →
            (∀ r, r ∈ rest → r ∉ done_) →
            (∀ n, is_Some (dict_get ci n) → reached done_ n) →
            (∀ n c, dict_get ci n = Some c → (0 ≤ c)%Z) →
            (∀ n, edges_colored downstream by_name ci n) →
            (∀ r, r ∈ done_ → dict_get ci r = Some 0%Z) →
            foldl (λ acc root_name,
                     match acc with
                     | Some (Ok colors) =>
                         _dfs fuel downstream by_name root_name 0%Z colors
                     | stopped => stopped
                     end) (Some (Ok ci)) rest = Some (Ok colors) →
            (∀ n c, dict_get colors n = Some c → (0 ≤ c)%Z)
            ∧ (∀ n, edges_colored downstream by_name colors n)
            ∧ (∀ r, r ∈ done_ ++ rest → dict_get colors r = Some 0%Z)).
  { induction rest as [|r rest IH];
      intros done_ ci Hnd' Hsub Hfresh Hreached Hnonneg Hedges Hdone.
    { simpl. intros [= <-]. by rewrite app_nil_r. }
    cbn [foldl]. intros Hfold. pose proof Hfold as Hfold0.
    apply color_from_roots_Ok in Hfold0 as [cj Hcj]. rewrite Hcj in Hfold.
    apply NoDup_cons in Hnd' as [Hr Hnd'].
    replace (done_ ++ r :: rest) with ((done_ ++ [r]) ++ rest) in *
      by (by rewrite <- app_assoc).
    assert (Hr_roots : r ∈ roots).
    { apply Hsub. rewrite !elem_of_app, list_elem_of_singleton. tauto. }
    assert (Hr_down : ∀ m names, dict_get downstream m = Some names → r ∉ names).
    { intros m names Hm. by eapply Hroots. }
    assert (Hr_none : dict_get ci r = None).
    { destruct (dict_get ci r) as [c|] eqn:Hc; [|done].
      destruct (Hreached r) as [Hin|(m & names & Hm & Hin)]; [by rewrite Hc| |].
      - destruct (Hfresh r); [by left|done].
      - by destruct (Hr_down m names). }
    destruct (_dfs_recoloured fuel downstream by_name r 0%Z ci cj)
      as (Hmono & Hr_color & Hedges'); [|done|].
    { unfold color_of. rewrite Hr_none. simpl. lia. }
    assert (Hreached' : ∀ n, is_Some (dict_get cj n) → reached (done_ ++ [r]) n).
    { revert Hcj.
      apply (_dfs_invariant
               (λ cx, ∀ n, is_Some (dict_get cx n) → reached (done_ ++ [r]) n)
               (λ name _, reached (done_ ++ [r]) name)).
      - intros name c colors0 Hname Hinv n. rewrite dict_get_set.
        case_decide; [by subst|by apply Hinv].
      - intros name c names d _ Hnames Hd.
        split; right; by exists name, names.
      - left. apply elem_of_app. right. by left.
      - intros n. rewrite dict_get_set. case_decide as Heq.
        + intros _. left. rewrite Heq. apply elem_of_app. right. by left.
        + intros [?|?]%Hreached; [left; apply elem_of_app; by left|by right]. }
    assert (Hnonneg' : ∀ n c, dict_get cj n = Some c → (0 ≤ c)%Z).
    { revert Hcj.
      apply (_dfs_invariant
               (λ cx, ∀ n c, dict_get cx n = Some c → (0 ≤ c)%Z)
               (λ _ c, (0 ≤ c)%Z)).
      - intros name c colors0 Hc Hinv n c'. rewrite dict_get_set.
        case_decide; [by intros [= <-]|by apply Hinv].
      - intros name c names d Hc _ _. lia.
      - done.
      - intros n c. rewrite dict_get_set.
        case_decide; [by intros [= <-]|by apply Hnonneg]. }
    apply (IH (done_ ++ [r]) cj); [done|done| |done|done| | |done].
    - intros r' Hr' [Hin | ->%list_elem_of_singleton]%elem_of_app; [|done].
      destruct (Hfresh r'); [by right|done].
    - intros n. apply Hedges'. by left.
    - intros r' [Hin | ->%list_elem_of_singleton]%elem_of_app.
      + assert (Hsame : dict_get cj r' = dict_get ci r').
        { eapply _dfs_frame; [| |exact Hcj].
          - intros ->. destruct (Hfresh r); [by left|done].
          - intros m names Hm. eapply Hroots; [done|].
            apply Hsub. rewrite !elem_of_app. tauto. }
        rewrite Hsame. by apply Hdone.
      + by eapply _dfs_start_color. }
  unfold color_from_roots in Hcolors.
  apply (Hloop roots [] []) in Hcolors as (Hnonneg & Hedges & Hzero);
    [|done|done|by intros r _ ?%elem_of_nil|by intros n [? [=]]|done
     |by intros n names d _ _ c [=]|by intros r ?%elem_of_nil].
  assert (Hedge : ∀ name c names d,
            dict_get colors name = Some c →
            dict_get downstream name = Some names → d ∈ names →
            ∃ c', dict_get colors d = Some c'
                  ∧ (if in_current_node by_name name d then c ≤ c'
                     else c < c')%Z).
  { intros name c names d Hc Hnames Hd.
    specialize (Hedges name names d Hnames Hd c Hc).
    specialize (Hnonneg name c Hc).
    unfold color_of, color_step in Hedges.
    destruct (dict_get colors d) as [c'|]; simpl in Hedges.
    - exists c'. split; [done|]. destruct (in_current_node by_name name d); lia.
    - destruct (in_current_node by_name name d); lia. }
  split_and!; [done..|].
  intros name c names d Hsource Hc Hnames Hd.
  destruct (Hedge name c names d Hc Hnames Hd) as (c' & Hc' & Hle).
  exists c'. split; [done|].
  unfold in_current_node in Hle. by rewrite Hsource in Hle.
Qed.

(** *** Termination *)

Lemma _dfs_returns (rank : string → nat) fuel downstream by_name
  name cur_color colors :
  (∀ n names d, dict_get downstream n = Some names → d ∈ names → d ≠ n →
                (rank d < rank n)%nat) →
  (∀ n names, dict_get downstream n = Some names → n ∈ names →
              in_current_node by_name n n = true) →
  (rank name < fuel)%nat →
  is_Some (_dfs fuel downstream by_name name cur_color colors).
Proof.
  intros Hrank Hself. revert name cur_color colors.
  induction fuel as [|fuel IH]; intros name cur_color colors Hfuel; [lia|].
  rewrite _dfs_unfold. unfold dict_getitem.
  destruct (dict_get downstream name) as [names|] eqn:Hnames; [|done].
  assert (Hloop : ∀ rest acc,
            (∀ d, d ∈ rest → d ∈ names) →
            match acc with
            | Some (Ok ci) => (cur_color ≤ color_of ci name)%Z
            | Some (Raise _) => True
            | None => False
            end →
            is_Some (foldl (dfs_step (_dfs fuel downstream by_name) by_name
                              name cur_color) acc rest)).
  { induction rest as [|d rest IHrest]; intros acc Hsub Hacc.
    - simpl. by destruct acc as [[ci|e]|].
    - cbn [foldl]. apply IHrest; [intros d' ?; apply Hsub; by right|].
      assert (Hd : d ∈ names) by (apply Hsub; by left).
      destruct acc as [[ci|e]|]; [|done|done].
      rewrite dfs_step_Ok. case_decide as Hlt; [|done].
      destruct (decide (d = name)) as [->|Hne].
      { unfold color_step in Hlt. rewrite (Hself _ _ Hnames Hd) in Hlt. lia. }
      destruct (IH d (cur_color + color_step by_name name d)%Z ci)
        as [[cj|e] Hcj].
      { specialize (Hrank _ _ _ Hnames Hd Hne). lia. }
      + rewrite Hcj.
        destruct (_dfs_recoloured _ _ _ _ _ _ _ (Z.lt_le_incl _ _ Hlt) Hcj)
          as (Hmono & _ & _).
        specialize (Hmono name). lia.
      + by rewrite Hcj. }
  apply Hloop; [done|]. rewrite color_of_set, decide_True by done. lia.
Qed.

Lemma color_from_roots_is_Some (rank : string → nat) fuel downstream by_name roots :
  (∀ n names d, dict_get downstream n = Some names → d ∈ names → d ≠ n →
                (rank d < rank n)%nat) →
  (∀ n names, dict_get downstream n = Some names → n ∈ names →
              in_current_node by_name n n = true) →
  (∀ r, r ∈ roots → (rank r < fuel)%nat) →
  is_Some (color_from_roots fuel downstream by_name roots).
Proof.
  intros Hrank Hself Hroots. unfold color_from_roots.
  assert (Hacc : is_Some (Some (Ok (@nil (string * Z))))) by done.
  revert Hacc. generalize (Some (Ok (@nil (string * Z)))).
  induction roots as [|r roots IH]; intros acc Hacc; [done|].
  cbn [foldl]. apply IH.
  - intros r' Hr'. apply Hroots. by right.
  - destruct acc as [[colors|e]|]; [|done|by destruct Hacc].
    eapply _dfs_returns; [exact Hrank|exact Hself|]. apply Hroots. by left.
Qed.

(** X13. On a downstream graph whose edges between different names
    strictly decrease a rank (a graph without cycles), where a name that
    is its own downstream name is a key of its own definition, the
    colouring from the roots ends: a recursion depth greater than the
    rank of every root is enough for the loop to return a colouring or to
    raise. *)
Theorem color_from_roots_returns (rank : string → nat) fuel downstream by_name roots :
  (∀ n names d, dict_get downstream n = Some names → d ∈ names → d ≠ n →
                (rank d < rank n)%nat) →
  (∀ n names, dict_get downstream n = Some names → n ∈ names →
              in_current_node by_name n n = true) →
  (∀ r, r ∈ roots → (rank r < fuel)%nat) →
  ∃ r, color_from_roots fuel downstream by_name roots = Some r.
Proof.
  intros Hrank Hself Hroots.
  destruct (color_from_roots_is_Some rank fuel downstream by_name roots)
    as [r Hr]; [done..|].
  by exists r.
Qed.

End ColouringProperties.
(** ** The cycle resolver: what it returns and when it gives up *)

Section CycleResolverProperties.
Context {PartitionsDefinition ResourceDefinition : Type}.
Context `{EqDecision PartitionsDefinition, EqDecision ResourceDefinition}.
Local Abbreviation AssetsDef := (@AssetsDefinition PartitionsDefinition ResourceDefinition).
Implicit Types (assets_defs : list AssetsDef).
Implicit Types (by_name : dict string AssetsDef) (colors : dict string Z).

(** A name of the index stands for a definition of the list and is the
    user string of one of its keys. *)
Lemma index_by_asset_name_elem assets_defs name (ad : AssetsDef) :
  (name, ad) ∈ index_by_asset_name assets_defs →
  ad ∈ assets_defs ∧ ∃ key, key ∈ keys ad ∧ name = to_user_string key.
Proof.
  unfold index_by_asset_name. revert name ad.
  apply (foldl_invariant
           (λ acc : dict string AssetsDef,
              ∀ name ad, (name, ad) ∈ acc →
                ad ∈ assets_defs ∧ ∃ key, key ∈ keys ad ∧ name = to_user_string key)).
  - by intros name ad ?%elem_of_nil.
  - intros acc ad0 Had0 Hacc.
    apply (foldl_invariant
             (λ acc : dict string AssetsDef,
                ∀ name ad, (name, ad) ∈ acc →
                  ad ∈ assets_defs
                  ∧ ∃ key, key ∈ keys ad ∧ name = to_user_string key)); [done|].
    intros acc' key Hkey Hacc' name ad [[= -> ->]|Hold]%dict_set_elem_pair.
    + split; [done|]. by exists key.
    + by apply Hacc'.
Qed.

(** The entries of the colour mapping: every definition in it is indexed
    under some name, and every key of a colour class is the key read back
    from a name that is indexed to the definition. *)
Lemma build_color_mapping_elem by_name colors (ad : AssetsDef)
  (color_mapping : dict Z (list AssetKey)) :
  (ad, color_mapping) ∈ build_color_mapping by_name colors →
  (∃ name, dict_get by_name name = Some ad)
  ∧ ∀ color asset_keys k,
      (color, asset_keys) ∈ color_mapping → k ∈ asset_keys →
      ∃ name, dict_get by_name name = Some ad ∧ k = from_user_string name.
Proof.
  unfold build_color_mapping. revert ad color_mapping.
  apply (foldl_invariant
           (λ acc : dict AssetsDef (dict Z (list AssetKey)),
              ∀ ad color_mapping, (ad, color_mapping) ∈ acc →
                (∃ name, dict_get by_name name = Some ad)
                ∧ ∀ color asset_keys k,
                    (color, asset_keys) ∈ color_mapping → k ∈ asset_keys →
                    ∃ name, dict_get by_name name = Some ad
                            ∧ k = from_user_string name)).
  - by intros ad cm ?%elem_of_nil.
  - intros acc [name color] _ Hacc.
    destruct (dict_get by_name name) as [ad0|] eqn:Hname; [|done].
    intros ad cm [[= -> ->]|Hold]%dict_set_elem_pair; [|by apply Hacc].
    split; [by exists name|].
    intros c ks k [[= -> ->]|Hold]%dict_set_elem_pair.
    + intros [->|Hk]%elem_of_set_add; [by exists name|].
      destruct (dict_get acc ad0) as [cm0|] eqn:Hcm0; simpl in Hk.
      * destruct (dict_get cm0 color) as [ks0|] eqn:Hks0; simpl in Hk;
          [|by apply elem_of_nil in Hk].
        apply dict_get_Some_elem in Hcm0, Hks0.
        by eapply (Hacc _ _ Hcm0).
      * by apply elem_of_nil in Hk.
    + destruct (dict_get acc ad0) as [cm0|] eqn:Hcm0; simpl in Hold;
        [|by apply elem_of_nil in Hold].
      apply dict_get_Some_elem in Hcm0. intros Hk.
      by eapply (Hacc _ _ Hcm0).
Qed.

(** X14. Whatever the cycle resolver returns is one of the given
    definitions or, for a definition that can be subset, its restriction
    to some of its keys (each read back from the user string of a key of
    that definition); a definition that cannot be subset is never
    split. *)
Theorem attempt_resolve_cycles_provenance fuel assets_defs resolved :
  _attempt_resolve_cycles fuel assets_defs = Some (Ok resolved) →
  ∀ ad', ad' ∈ resolved →
    ∃ ad, ad ∈ assets_defs
      ∧ (ad' = ad
         ∨ (can_subset ad = true
            ∧ ∃ selected,
                ad' = subset_for ad selected
                ∧ ∀ k, k ∈ selected →
                    ∃ key, key ∈ keys ad
                           ∧ k = from_user_string (to_user_string key))).
Proof.
  unfold _attempt_resolve_cycles.
  destruct (generate_asset_dep_graph assets_defs) as [[upstream downstream]|];
    [|done].
  destruct (toposort upstream) as [[|roots layers]|]; [done| |done].
  destruct (color_from_roots fuel downstream _ roots) as [[colors|]|];
    simpl; [|done|done].
  intros [= <-] ad' Hin. unfold split_by_color in Hin.
  apply elem_of_concat in Hin as (l & Hin & Hl).
  apply list_elem_of_fmap in Hl as ([ad cm] & -> & Hcm).
  destruct (build_color_mapping_elem _ _ _ _ Hcm) as [[name Hname] Hkeys].
  apply dict_get_Some_elem, index_by_asset_name_elem in Hname as [Had _].
  exists ad. split; [done|].
  case_decide as Hsplit.
  - left. by apply list_elem_of_singleton in Hin.
  - right. split.
    + destruct (can_subset ad); [done|]. destruct Hsplit. by right.
    + apply list_elem_of_fmap in Hin as (selected & -> & Hsel).
      exists selected. split; [done|]. intros k Hk.
      apply list_elem_of_fmap in Hsel as ([color ks] & -> & Hks).
      destruct (Hkeys _ _ _ Hks Hk) as (name' & Hname' & ->).
      apply dict_get_Some_elem, index_by_asset_name_elem in Hname'
        as [_ (key & Hkey & ->)].
      by exists key.
Qed.

(** The upstream table of the artifact-level graph is a dictionary. *)
Lemma generate_asset_dep_graph_NoDup assets_defs upstream downstream :
  generate_asset_dep_graph assets_defs = Ok (upstream, downstream) →
  NoDup upstream.*1.
Proof.
  unfold generate_asset_dep_graph. intros Hgraph.
  pose (P := λ graph : dict string (list string) * dict string (list string),
          NoDup graph.1.*1).
  change (P (upstream, downstream)).
  eapply foldM_invariant; [|clear Hgraph|exact Hgraph]; [constructor|].
  intros graph ad graph' _ Hgraph Hkeys. simpl in Hkeys. revert Hkeys.
  apply (foldM_invariant P); [exact Hgraph|].
  intros [up down] key graph2 _ Hup. unfold P in Hup |- *. simpl in Hup.
  intros (ups & _ & [= <-])%bind_Ok. simpl. by apply dict_set_NoDup.
Qed.

(** X15. When the artifact-level upstream graph has a dependency cycle
    through different names, the cycle resolver raises
    [CircularDependencyError] before it colours anything, whatever the
    recursion depth allowed. *)
Theorem attempt_resolve_cycles_circular fuel assets_defs upstream downstream :
  generate_asset_dep_graph assets_defs = Ok (upstream, downstream) →
  (∃ u, tc (upstream_of upstream) u u) →
  _attempt_resolve_cycles fuel assets_defs = Some (Raise CircularDependencyError).
Proof.
  intros Hgraph [u Hcycle]. unfold _attempt_resolve_cycles. rewrite Hgraph.
  pose proof (toposort_spec upstream (generate_asset_dep_graph_NoDup _ _ _ Hgraph))
    as Htopo.
  destruct (toposort upstream) as [layers|e].
  - destruct Htopo as (Hnd & _ & Hprec). exfalso.
    assert (Hlt : (index_of u (concat layers) < index_of u (concat layers))%nat);
      [|lia].
    apply (tc_decreases (upstream_of upstream)
             (λ x, index_of x (concat layers)) u u); [|done].
    intros x y (dep & Hin & Hy & Hne).
    apply precedes_index_of; [done|]. by eapply Hprec.
  - by destruct Htopo as [-> _].
Qed.

(** *** The artifact-level graph and termination *)

(** The artifact-level graph is filled asset by asset. *)
Lemma generate_asset_dep_graph_flat assets_defs :
  generate_asset_dep_graph assets_defs
  = foldM (λ '(upstream, downstream) (item : AssetsDef * AssetKey),
             let asset_name := to_user_string item.2 in
             upstream_asset_keys ← dict_getitem (asset_deps item.1) item.2;
             let upstream_names := to_user_string <$> upstream_asset_keys in
             Ok (dict_set upstream asset_name (foldl set_add [] upstream_names),
                 foldl (λ downstream upstream_name,
                          dict_set downstream upstream_name
                            (set_add (default [] (dict_get downstream upstream_name))
                               asset_name))
                       (dict_set downstream asset_name
                          (default [] (dict_get downstream asset_name)))
                       upstream_names))
          ([], []) (concat ((λ ad, pair ad <$> keys ad) <$> assets_defs)).
Proof.
  unfold generate_asset_dep_graph. generalize (@nil (string * list string), @nil (string * list string)).
  induction assets_defs as [|ad ads IH]; intros graph; [done|].
  simpl. rewrite foldM_app.
  assert (Hinner : ∀ (ks : list AssetKey) graph,
            foldM (λ '(upstream, downstream) asset_key,
                     let asset_name := to_user_string asset_key in
                     upstream_asset_keys ← dict_getitem (asset_deps ad) asset_key;
                     let upstream_names := to_user_string <$> upstream_asset_keys in
                     let upstream :=
                       dict_set upstream asset_name (foldl set_add [] upstream_names) in
                     let downstream :=
                       dict_set downstream asset_name
                         (default [] (dict_get downstream asset_name)) in
                     let downstream :=
                       foldl (λ downstream upstream_name,
                                dict_set downstream upstream_name
                                  (set_add (default [] (dict_get downstream upstream_name))
                                     asset_name))
                             downstream upstream_names in
                     Ok (upstream, downstream))
                  graph ks
            = foldM (λ '(upstream, downstream) (item : AssetsDef * AssetKey),
                       let asset_name := to_user_string item.2 in
                       upstream_asset_keys ← dict_getitem (asset_deps item.1) item.2;
                       let upstream_names := to_user_string <$> upstream_asset_keys in
                       Ok (dict_set upstream asset_name (foldl set_add [] upstream_names),
                           foldl (λ downstream upstream_name,
                                    dict_set downstream upstream_name
                                      (set_add (default [] (dict_get downstream upstream_name))
                                         asset_name))
                                 (dict_set downstream asset_name
                                    (default [] (dict_get downstream asset_name)))
                                 upstream_names))
                    graph (pair ad <$> ks)).
  { induction ks as [|k ks IHks]; intros [up down]; [done|].
    simpl. destruct (dict_getitem (asset_deps ad) k); simpl; [|done].
    apply IHks. }
  rewrite Hinner. destruct (foldM _ graph (pair ad <$> keys ad)); simpl; [|done].
  apply IH.
Qed.

Lemma elem_of_foldl_set_add {A : Type} `{EqDecision A} (l acc : list A) x :
  x ∈ foldl set_add acc l ↔ x ∈ acc ∨ x ∈ l.
Proof.
  revert acc. induction l as [|y l IH]; intros acc; simpl.
  - rewrite elem_of_nil. tauto.
  - rewrite IH, elem_of_set_add, elem_of_cons. tauto.
Qed.

(** The downstream names recorded while one asset is entered. *)
Lemma record_downstream_elem (asset_name : string) (upstream_names : list string)
  (downstream : dict string (list string)) n names d :
  dict_get (foldl (λ downstream upstream_name,
                     dict_set downstream upstream_name
                       (set_add (default [] (dict_get downstream upstream_name))
                          asset_name))
                  downstream upstream_names) n = Some names →
  d ∈ names →
  (d = asset_name ∧ n ∈ upstream_names)
  ∨ ∃ names0, dict_get downstream n = Some names0 ∧ d ∈ names0.
Proof.
  revert downstream. induction upstream_names as [|u us IH]; intros downstream; simpl.
  - intros Hn Hd. right. by exists names.
  - intros Hn Hd.
    destruct (IH _ Hn Hd) as [[-> Hin]|(names0 & Hn0 & Hd0)].
    + left. split; [done|by right].
    + rewrite dict_get_set in Hn0. case_decide as Heq.
      * injection Hn0 as <-. subst n.
        apply elem_of_set_add in Hd0 as [->|Hd0]; [left; split; [done|by left]|].
        right. destruct (dict_get downstream u) as [names1|]; simpl in Hd0.
        -- by exists names1.
        -- by apply elem_of_nil in Hd0.
      * right. by exists names0.
Qed.

(** When no name is produced twice, the downstream table is the inverse
    of the upstream table. *)
Lemma generate_asset_dep_graph_inverse assets_defs upstream downstream n names d :
  NoDup (to_user_string <$> concat (keys <$> assets_defs)) →
  generate_asset_dep_graph assets_defs = Ok (upstream, downstream) →
  dict_get downstream n = Some names → d ∈ names →
  ∃ dep, dict_get upstream d = Some dep ∧ n ∈ dep.
Proof.
  rewrite generate_asset_dep_graph_flat.
  assert (Hnames : to_user_string <$> concat (keys <$> assets_defs)
                   = (λ item : AssetsDef * AssetKey, to_user_string item.2)
                       <$> concat ((λ ad, pair ad <$> keys ad) <$> assets_defs)).
  { induction assets_defs as [|ad ads IH]; [done|].
    rewrite !fmap_cons. cbn [concat]. rewrite !fmap_app, IH. f_equal.
    by rewrite <- list_fmap_compose. }
  rewrite Hnames. clear Hnames.
  generalize (concat ((λ ad : AssetsDef, pair ad <$> keys ad) <$> assets_defs)).
  intros items Hnd Hgraph. revert n names d.
  assert (Hgen : ∀ items (up down : dict string (list string)),
            NoDup ((λ item : AssetsDef * AssetKey, to_user_string item.2) <$> items) →
            (∀ item, item ∈ items → to_user_string item.2 ∉ up.*1) →
            (∀ n names d, dict_get down n = Some names → d ∈ names →
                          ∃ dep, dict_get up d = Some dep ∧ n ∈ dep) →
            foldM (λ '(upstream, downstream) (item : AssetsDef * AssetKey),
                     let asset_name := to_user_string item.2 in
                     upstream_asset_keys ← dict_getitem (asset_deps item.1) item.2;
                     let upstream_names := to_user_string <$> upstream_asset_keys in
                     Ok (dict_set upstream asset_name (foldl set_add [] upstream_names),
                         foldl (λ downstream upstream_name,
                                  dict_set downstream upstream_name
                                    (set_add (default [] (dict_get downstream upstream_name))
                                       asset_name))
                               (dict_set downstream asset_name
                                  (default [] (dict_get downstream asset_name)))
                               upstream_names))
                  (up, down) items = Ok (upstream, downstream) →
            ∀ n names d, dict_get downstream n = Some names → d ∈ names →
                         ∃ dep, dict_get upstream d = Some dep ∧ n ∈ dep).
  { clear. induction items as [|[ad key] items IH]; intros up down Hnd Hfresh Hinv.
    { simpl. by intros [= <- <-]. }
    rewrite fmap_cons in Hnd. apply NoDup_cons in Hnd as [Hkey Hnd].
    simpl in Hkey |- *.
    destruct (dict_getitem (asset_deps ad) key) as [ups|]; simpl; [|done].
    assert (Hfresh_key : to_user_string key ∉ up.*1).
    { apply (Hfresh (ad, key)). by left. }
    apply IH; [done| |].
    - intros item Hitem. rewrite dict_set_elem_keys. intros [Heq|Hin].
      + apply Hkey. rewrite <- Heq.
        by apply (list_elem_of_fmap_2 (λ item : AssetsDef * AssetKey,
                                         to_user_string item.2)).
      + by apply (Hfresh item); [right|].
    - intros n names d Hn Hd.
      destruct (record_downstream_elem _ _ _ _ _ _ Hn Hd)
        as [[-> Hin]|(names0 & Hn0 & Hd0)].
      + exists (foldl set_add [] (to_user_string <$> ups)).
        split; [apply dict_get_set_eq|].
        apply elem_of_foldl_set_add. by right.
      + assert (Hold : ∃ names1, dict_get down n = Some names1 ∧ d ∈ names1).
        { rewrite dict_get_set in Hn0. case_decide; [subst n|by exists names0].
          injection Hn0 as <-.
          destruct (dict_get down (to_user_string key)) as [names1|];
            simpl in Hd0.
          - by exists names1.
          - by apply elem_of_nil in Hd0. }
        destruct Hold as (names1 & Hn1 & Hd1).
        destruct (Hinv _ _ _ Hn1 Hd1) as (dep & Hdep & Hin).
        exists dep. split; [|done]. rewrite dict_get_set_ne; [done|].
        intros ->. apply Hfresh_key. apply dict_get_is_Some. by rewrite Hdep. }
  apply (Hgen items [] []); [done| |by intros ??? [=]|done].
  intros item _. apply not_elem_of_nil.
Qed.

Lemma index_of_lt {A : Type} `{EqDecision A} (x : A) (l : list A) :
  x ∈ l → (index_of x l < length l)%nat.
Proof.
  induction l as [|y l IH]; [by intros ?%elem_of_nil|].
  simpl. case_decide; [lia|]. intros [->|Hin]%elem_of_cons; [done|].
  specialize (IH Hin). lia.
Qed.

(** X20. For definitions among which no asset name is produced twice and
    in which an asset that depends on itself is a key of its own
    definition, the cycle resolver ends: with enough recursion depth it
    returns or raises. *)
Theorem attempt_resolve_cycles_returns assets_defs upstream downstream :
  NoDup (to_user_string <$> concat (keys <$> assets_defs)) →
  generate_asset_dep_graph assets_defs = Ok (upstream, downstream) →
  (∀ n names, dict_get downstream n = Some names → n ∈ names →
              in_current_node (index_by_asset_name assets_defs) n n = true) →
  ∃ fuel r, _attempt_resolve_cycles fuel assets_defs = Some r.
Proof.
  intros Hnd Hgraph Hself. unfold _attempt_resolve_cycles. rewrite Hgraph.
  pose proof (toposort_spec upstream (generate_asset_dep_graph_NoDup _ _ _ Hgraph))
    as Htopo.
  destruct (toposort upstream) as [[|roots layers]|e];
    [by exists 0, (Raise IndexError)| |by exists 0, (Raise e)].
  destruct Htopo as (Hnd_order & Horder & Hprec).
  set (order := concat (roots :: layers)) in *.
  pose (rank := λ x : string, length order - index_of x order).
  destruct (color_from_roots_is_Some rank (S (length order)) downstream
              (index_by_asset_name assets_defs) roots) as [r Hr].
  - intros n names d Hn Hd Hne.
    destruct (generate_asset_dep_graph_inverse _ _ _ _ _ _ Hnd Hgraph Hn Hd)
      as (dep & Hdep%dict_get_Some_elem & Hin).
    assert (Hnd_prec : precedes order n d) by (by eapply Hprec).
    pose proof (precedes_index_of _ _ _ Hnd_order Hnd_prec) as Hlt.
    assert (Hd_order : d ∈ order).
    { apply Horder. left. apply list_elem_of_fmap. by exists (d, dep). }
    pose proof (index_of_lt _ _ Hd_order). unfold rank. lia.
  - done.
  - intros r _. unfold rank. lia.
  - exists (S (length order)). rewrite Hr. simpl. by eexists.
Qed.

End CycleResolverProperties.
(** ** Resources and the job arguments *)

Section dict_keys_facts.
Context {K V : Type} `{EqDecision K}.
Implicit Types (d : dict K V) (k : K).

Lemma dict_update_keys d d2 k :
  k ∈ (dict_update d d2).*1 ↔ k ∈ d.*1 ∨ k ∈ d2.*1.
Proof.
  revert d. induction d2 as [|[k0 v0] d2 IH]; intros d.
  - simpl. rewrite elem_of_nil. tauto.
  - rewrite dict_update_cons, IH, dict_set_elem_keys, fmap_cons, elem_of_cons.
    simpl. tauto.
Qed.

Lemma merge_dicts_keys d1 d2 k :
  k ∈ (merge_dicts d1 d2).*1 ↔ k ∈ d1.*1 ∨ k ∈ d2.*1.
Proof.
  unfold merge_dicts. rewrite !dict_update_keys. simpl. rewrite elem_of_nil. tauto.
Qed.

Lemma foldl_merge_dicts_keys (ds : list (dict K V)) d0 k :
  k ∈ (foldl merge_dicts d0 ds).*1 ↔ k ∈ d0.*1 ∨ ∃ d, d ∈ ds ∧ k ∈ d.*1.
Proof.
  revert d0. induction ds as [|d ds IH]; intros d0; simpl.
  - split; [by left|]. intros [?|(d & []%elem_of_nil & _)]. done.
  - rewrite IH, merge_dicts_keys. split.
    + intros [[?|?]|(d' & ? & ?)]; [by left| |].
      * right. exists d. split; [by left|done].
      * right. exists d'. split; [by right|done].
    + intros [?|(d' & [->|?]%elem_of_cons & ?)]; [by left; left|by left; right|].
      right. by exists d'.
Qed.

Lemma foldl_merge_dicts_NoDup (ds : list (dict K V)) d0 :
  NoDup d0.*1 → NoDup (foldl merge_dicts d0 ds).*1.
Proof.
  revert d0. induction ds as [|d ds IH]; intros d0 Hd0; [done|].
  simpl. apply IH, merge_dicts_NoDup.
Qed.

End dict_keys_facts.

Section ResourceProperties.
Context {PartitionsDefinition ResourceDefinition : Type}.
Context `{EqDecision PartitionsDefinition, EqDecision ResourceDefinition}.
Variable to_string : AssetKey → string.
Variable default_job_io_manager : ResourceDefinition.
Local Abbreviation AssetsDef := (@AssetsDefinition PartitionsDefinition ResourceDefinition).
Local Abbreviation Source := (@SourceAsset ResourceDefinition).
Implicit Types (assets : list AssetsDef) (source_assets : list Source).
Implicit Types (job_resource_defs : dict string ResourceDefinition).

Lemma get_all_resource_defs_Ok_keys assets source_assets job_resource_defs tbl :
  get_all_resource_defs assets source_assets job_resource_defs = Ok tbl →
  NoDup (dict_keys tbl)
  ∧ ∀ k, k ∈ dict_keys tbl
         ↔ k ∈ dict_keys job_resource_defs
           ∨ ∃ d, d ∈ all_assets_resource_defs assets source_assets
                  ∧ k ∈ dict_keys d.
Proof.
  unfold get_all_resource_defs. intros (u & _ & [= <-])%bind_Ok. split.
  - apply foldl_merge_dicts_NoDup, dict_update_NoDup. constructor.
  - intros k. unfold dict_keys.
    rewrite foldl_merge_dicts_keys, dict_update_keys. simpl.
    rewrite elem_of_nil. tauto.
Qed.

(** X16. The table [get_all_resource_defs] returns is a dictionary that
    binds exactly the keys that the job-level table or the table of some
    definition or source asset binds. *)
Theorem get_all_resource_defs_keys assets source_assets job_resource_defs tbl :
  get_all_resource_defs assets source_assets job_resource_defs = Ok tbl →
  NoDup (dict_keys tbl)
  ∧ ∀ k, k ∈ dict_keys tbl
         ↔ k ∈ dict_keys job_resource_defs
           ∨ (∃ ad, ad ∈ assets ∧ k ∈ dict_keys (resource_defs ad))
           ∨ ∃ s, s ∈ source_assets ∧ k ∈ dict_keys (source_resource_defs s).
Proof.
  intros [Hnd Hkeys]%get_all_resource_defs_Ok_keys. split; [done|].
  intros k. rewrite Hkeys. unfold all_assets_resource_defs. split.
  - intros [?|(d & [Hd|Hd]%elem_of_app & Hk)]; [by left| |].
    + apply list_elem_of_fmap in Hd as (ad & -> & Had). right; left. by exists ad.
    + apply list_elem_of_fmap in Hd as (s & -> & Hs). right; right. by exists s.
  - intros [?|[(ad & Had & Hk)|(s & Hs & Hk)]]; [by left| |].
    + right. exists (resource_defs ad). split; [|done].
      apply elem_of_app. left. by apply list_elem_of_fmap_2.
    + right. exists (source_resource_defs s). split; [|done].
      apply elem_of_app. right. by apply list_elem_of_fmap_2.
Qed.

Lemma ensure_requirements_satisfied_Ok
  (bindings : dict string ResourceDefinition) (requirements : list string) :
  ensure_requirements_satisfied bindings requirements = Ok tt
  ↔ ∀ k, k ∈ requirements → k ∈ dict_keys bindings.
Proof.
  unfold ensure_requirements_satisfied. rewrite for__Ok.
  split; intros Hall k Hk; specialize (Hall k Hk).
  - unfold dict_mem in Hall. case_bool_decide as Hsome; [|done].
    by apply dict_get_is_Some.
  - unfold dict_mem. rewrite bool_decide_eq_true_2; [done|].
    by apply dict_get_is_Some.
Qed.

(** X17. The requirement check passes exactly when the conflict check
    passes and every resource key that a definition or source asset
    requires is bound by the job-level table or by that same asset: a
    resource bound by another asset does not count. *)
Theorem check_resources_satisfy_requirements_spec assets source_assets
  job_resource_defs :
  check_resources_satisfy_requirements assets source_assets job_resource_defs
  = Ok tt
  ↔ _ensure_resources_dont_conflict assets source_assets job_resource_defs = Ok tt
    ∧ (∀ ad k, ad ∈ assets → k ∈ resource_requirements ad →
         k ∈ dict_keys job_resource_defs ∨ k ∈ dict_keys (resource_defs ad))
    ∧ (∀ s k, s ∈ source_assets → k ∈ source_resource_requirements s →
         k ∈ dict_keys job_resource_defs
         ∨ k ∈ dict_keys (source_resource_defs s)).
Proof.
  unfold check_resources_satisfy_requirements. rewrite bind_Ok. split.
  - intros ([] & Hensure & Hloop). split; [done|].
    pose proof (proj1 (for__Ok _ _) Hloop) as Hall. split.
    + intros ad k Had Hk.
      specialize (Hall (resource_defs ad, resource_requirements ad)).
      simpl in Hall. apply merge_dicts_keys.
      apply (proj1 (ensure_requirements_satisfied_Ok _ _) (Hall ltac:(
        apply elem_of_app; left;
        by apply (list_elem_of_fmap_2
                    (λ a : AssetsDef, (resource_defs a, resource_requirements a)))))).
      done.
    + intros s k Hs Hk.
      specialize (Hall (source_resource_defs s, source_resource_requirements s)).
      simpl in Hall. apply merge_dicts_keys.
      apply (proj1 (ensure_requirements_satisfied_Ok _ _) (Hall ltac:(
        apply elem_of_app; right;
        by apply (list_elem_of_fmap_2
                    (λ s : Source,
                       (source_resource_defs s, source_resource_requirements s)))))).
      done.
  - intros (Hensure & Hassets & Hsources). exists tt. split; [done|].
    apply for__Ok. intros [d reqs] [Hin|Hin]%elem_of_app.
    + apply list_elem_of_fmap in Hin as (ad & [= -> ->] & Had).
      apply ensure_requirements_satisfied_Ok. intros k Hk.
      apply merge_dicts_keys. by apply Hassets.
    + apply list_elem_of_fmap in Hin as (s & [= -> ->] & Hs).
      apply ensure_requirements_satisfied_Ok. intros k Hk.
      apply merge_dicts_keys. by apply Hsources.
Qed.

(** X22. The conflict check passes exactly when the definitions and
    source assets agree on every key they bind and the job-level table
    agrees with them on every key other than [io_manager] that it binds
    too. *)
Theorem ensure_resources_dont_conflict_passes assets source_assets
  job_resource_defs :
  let bindings := concat (all_assets_resource_defs assets source_assets) in
  _ensure_resources_dont_conflict assets source_assets job_resource_defs = Ok tt
  ↔ (∀ k r1 r2, (k, r1) ∈ bindings → (k, r2) ∈ bindings → r1 = r2)
    ∧ (∀ k r r', k ≠ "io_manager" → (k, r) ∈ job_resource_defs →
                 (k, r') ∈ bindings → r = r').
Proof.
  intros bindings. unfold _ensure_resources_dont_conflict.
  rewrite collect_resource_defs_flat. fold bindings.
  pose proof (record_resource_defs_spec bindings [] (NoDup_nil_2)) as Hspec.
  destruct (foldM record_resource_def [] bindings) as [tbl|e]; simpl.
  - destruct Hspec as [Hnd Hin].
    assert (Hin' : ∀ k r, (k, r) ∈ tbl ↔ (k, r) ∈ bindings).
    { intros k r. rewrite Hin, elem_of_nil. tauto. }
    assert (Hagree : ∀ k r1 r2, (k, r1) ∈ bindings → (k, r2) ∈ bindings → r1 = r2).
    { intros k r1 r2 H1 H2.
      apply Hin', (dict_elem_get _ _ _ Hnd) in H1, H2. congruence. }
    rewrite for__Ok. split.
    + intros Hjob. split; [done|]. intros k r r' Hk Hr Hr'.
      specialize (Hjob (k, r) Hr). simpl in Hjob.
      apply Hin', (dict_elem_get _ _ _ Hnd) in Hr'.
      destruct (decide (k ≠ "io_manager"
                        ∧ is_Some (dict_get tbl k)
                        ∧ dict_get tbl k ≠ Some r)) as [|Hno]; [done|].
      destruct (decide (r = r')) as [|Hne]; [done|].
      destruct Hno. rewrite Hr'. split_and!; [done|by eexists|congruence].
    + intros [_ Hjob] [k r] Hr. simpl.
      rewrite decide_False; [done|]. intros (Hk & [r' Hr'] & Hne).
      apply Hne. rewrite Hr'. f_equal. symmetry. apply (Hjob k r r' Hk Hr).
      by apply Hin', dict_get_Some_elem.
  - destruct Hspec as (k & r1 & r2 & _ & H1 & H2 & Hne).
    split; [done|]. intros [Hagree _]. destruct Hne. by apply (Hagree k).
Qed.

(** X18. The arguments of a job that [build_assets_job] builds bind
    [io_manager] and every key of the resource table given to it; the
    partitioning is the one given explicitly when there is one, without
    consulting the definitions, and the unified one otherwise. *)
Theorem build_assets_job_arguments fuel assets source_assets job_resource_defs
  (partitions_def_arg : option PartitionsDefinition) job :
  build_assets_job to_string default_job_io_manager fuel assets source_assets
    job_resource_defs partitions_def_arg = Some (Ok job) →
  is_Some (dict_get (job_resource_defs_arg job) "io_manager")
  ∧ (∀ k, k ∈ dict_keys job_resource_defs →
          k ∈ dict_keys (job_resource_defs_arg job))
  ∧ match partitions_def_arg with
    | Some p => job_partitions_def job = Some p
    | None =>
        build_job_partitions_from_assets to_string assets
        = Ok (job_partitions_def job)
    end.
Proof.
  unfold build_assets_job.
  destruct (match partitions_def_arg with
            | Some p => Ok (Some p)
            | None => build_job_partitions_from_assets to_string assets
            end) as [partitions|] eqn:Hpart; [|done].
  assert (Hfinish : ∀ assets' built,
            ('(deps, assets_defs_by_node_handle, asset_keys_by_input_handle) ← built;
             all_resource_defs ←
               get_all_resource_defs assets' source_assets
                 (with_default_io_manager default_job_io_manager job_resource_defs);
             Ok {| job_node_defs := node_def_name <$> assets';
                   job_dependencies := deps;
                   job_assets_defs_by_node_handle := assets_defs_by_node_handle;
                   job_asset_keys_by_input_handle := asset_keys_by_input_handle;
                   job_resource_defs_arg := all_resource_defs;
                   job_partitions_def := partitions |}) = Ok job →
            job_partitions_def job = partitions
            ∧ ∀ k, k ∈ dict_keys (with_default_io_manager default_job_io_manager
                                    job_resource_defs) →
                   k ∈ dict_keys (job_resource_defs_arg job)).
  { intros assets' built ([[deps bh] bi] & _ & (tbl & Htbl & [= <-])%bind_Ok)%bind_Ok.
    simpl. split; [done|]. intros k Hk.
    apply get_all_resource_defs_Ok_keys in Htbl as [_ Hkeys].
    apply Hkeys. by left. }
  assert (Hconclude : job_partitions_def job = partitions
            ∧ (∀ k, k ∈ dict_keys (with_default_io_manager default_job_io_manager
                                     job_resource_defs) →
                    k ∈ dict_keys (job_resource_defs_arg job)) →
            is_Some (dict_get (job_resource_defs_arg job) "io_manager")
            ∧ (∀ k, k ∈ dict_keys job_resource_defs →
                    k ∈ dict_keys (job_resource_defs_arg job))
            ∧ match partitions_def_arg with
              | Some p => job_partitions_def job = Some p
              | None =>
                  build_job_partitions_from_assets to_string assets
                  = Ok (job_partitions_def job)
              end).
  { intros [Hp Hkeys]. split_and!.
    - apply dict_get_is_Some, Hkeys. unfold with_default_io_manager.
      apply merge_dicts_keys. left. by left.
    - intros k Hk. apply Hkeys. unfold with_default_io_manager.
      apply merge_dicts_keys. by right.
    - rewrite Hp. destruct partitions_def_arg; [by injection Hpart as <-|done]. }
  destruct (build_node_deps to_string assets source_assets)
    as [[[deps bh] bi]|]; [|done].
  destruct (_has_cycles deps) as [[|]|]; [| |done].
  - destruct (_attempt_resolve_cycles fuel assets) as [[assets'|]|];
      simpl; [|done|done].
    intros [= Hjob]. by eapply Hconclude, Hfinish.
  - intros [= Hjob]. by eapply Hconclude, (Hfinish assets (Ok (deps, bh, bi))).
Qed.

End ResourceProperties.
(** ** The further properties on the example inputs *)

Section MoreInstances.
Import Examples Cases.

Local Ltac elem_cases H :=
  repeat (apply elem_of_cons in H as [H|H]); [..|by apply elem_of_nil in H].

Local Ltac elem_solve :=
  repeat first [apply list_elem_of_here | apply list_elem_of_further].

Local Ltac no_dup :=
  repeat (apply NoDup_cons; split;
          [rewrite ?not_elem_of_cons; split_and?;
           try apply not_elem_of_nil; by intros [=]|]);
  apply NoDup_nil_2.

Lemma resolve_assets_def_deps_shape_witness :
  ∃ res, resolve_assets_def_deps to_string [orders; report] [] = Ok res
         ∧ res.*1 = [orders; report].
Proof.
  eexists. split; [vm_compute; reflexivity|].
  refine (proj1 (resolve_assets_def_deps_shape to_string [orders; report] [] _ _)).
  vm_compute. reflexivity.
Defined.

Lemma resolve_assets_def_deps_errors_witness :
  ∃ tbl (before : list Asset) ad after inputs_before input_name key
    inputs_after owner,
    build_asset_keys_by_group_and_name [orders; orphan; report] [] = Ok tbl
    ∧ [orders; orphan; report] = before ++ ad :: after
    ∧ keys_by_input_name ad
      = inputs_before ++ (input_name, key) :: inputs_after
    ∧ unresolvable (remove_dups (dict_values tbl)) tbl ad key
    ∧ head (keys ad) = Some owner
    ∧ DagsterInvalidDefinitionError
        (unresolved_input_msg (to_string ["nowhere"]) (to_string ["orphan"]))
      = DagsterInvalidDefinitionError
          (unresolved_input_msg (to_string key) (to_string owner)).
Proof.
  destruct (resolve_assets_def_deps_errors to_string [orders; orphan; report] []
              (DagsterInvalidDefinitionError
                 (unresolved_input_msg (to_string ["nowhere"])
                    (to_string ["orphan"]))))
    as [[? _]|[[? _]|Herr]]; [vm_compute; reflexivity|done..|].
  destruct Herr as (tbl & before & ad & after & inputs_before & n & key
                    & inputs_after & Htbl & Hdefs & Hinputs & _ & _ & Hcase).
  destruct Hcase as [[_ ?]|(_ & Hun & [[_ ?]|(owner & Howner & Herr)])];
    [done..|].
  exists tbl, before, ad, after, inputs_before, n, key, inputs_after, owner.
  by split_and!.
Defined.

Lemma source_assets_take_precedence_witness :
  ∃ name (before : list Source) s' after,
    last (source_key raw) = Some name
    ∧ [raw; landing_raw] = before ++ s' :: after
    ∧ source_group_name s' = source_group_name raw
    ∧ last (source_key s') = Some name
    ∧ (∀ s'', s'' ∈ after →
         ¬ (source_group_name s'' = source_group_name raw
            ∧ last (source_key s'') = Some name))
    ∧ dict_get [(("default", "raw"), ["landing"; "raw"])]
        (source_group_name raw, name)
      = Some (source_key s').
Proof.
  apply (source_assets_take_precedence [staged_raw] [raw; landing_raw]
           [(("default", "raw"), ["landing"; "raw"])] raw).
  - vm_compute. reflexivity.
  - apply list_elem_of_here.
Defined.

Lemma build_node_deps_nodes_witness :
  dict_keys summary_deps
  = (λ item, node_key_of item.1 item.2) <$> summary_handles.
Proof.
  apply (build_node_deps_nodes to_string [orders; summary] [raw]
           summary_deps summary_handles summary_inputs).
  vm_compute. reflexivity.
Defined.

Lemma build_node_deps_no_dangling_edge_witness :
  ∃ node output_name (ad : Asset),
    DependencyDefinition "orders" "warehouse/orders"
    = DependencyDefinition node output_name
    ∧ node ∈ dict_keys summary_handles
    ∧ ad ∈ [orders; summary]
    ∧ output_name ∈ dict_keys (keys_by_output_name ad).
Proof.
  apply (build_node_deps_no_dangling_edge to_string [orders; summary] [raw]
           summary_deps summary_handles summary_inputs eq_refl
           (NodeName "summary")
           [("orders", DependencyDefinition "orders" "warehouse/orders")]
           "orders").
  - apply list_elem_of_here.
  - apply list_elem_of_here.
Defined.

Lemma build_node_deps_input_handles_witness :
  is_Some (dict_get summary_inputs ("summary", "raw"))
  ↔ ∃ ad, ("summary", ad) ∈ summary_handles
          ∧ "raw" ∈ dict_keys (keys_by_input_name ad).
Proof.
  apply (build_node_deps_input_handles to_string [orders; summary] [raw]
           summary_deps summary_handles summary_inputs).
  vm_compute. reflexivity.
Defined.

Lemma build_node_deps_distinct_names_witness :
  summary_handles
  = (λ ad, (node_def_name ad, ad))
      <$> sorted (list_compare AssetKey_compare) sort_key [orders; summary].
Proof.
  apply (build_node_deps_distinct_names to_string [orders; summary] [raw]
           summary_deps summary_handles summary_inputs).
  - vm_compute. no_dup.
  - vm_compute. reflexivity.
Defined.

Lemma build_node_deps_has_cycles_answers_witness :
  _has_cycles summary_deps = Ok true ∨ _has_cycles summary_deps = Ok false.
Proof.
  apply (build_node_deps_has_cycles_answers to_string [orders; summary] [raw]
           summary_deps summary_handles summary_inputs).
  vm_compute. reflexivity.
Defined.

Lemma has_cycles_unexpected_dependency_witness :
  _has_cycles fan_in = Raise (CheckError unexpected_dependency_msg).
Proof.
  apply (has_cycles_unexpected_dependency fan_in).
  exists (NodeName "y"), [("p", MultiDependencyDefinition [("x", "result")])],
    "p", [("x", "result")].
  split; [apply list_elem_of_further|]; apply list_elem_of_here.
Defined.

Lemma dfs_colouring_witness :
  (0 ≤ color_of [("a1", 0%Z); ("b1", 1%Z)] "a1")%Z.
Proof.
  apply (dfs_colouring 2 cross_downstream cross_by_name "a1" 0%Z []
           [("a1", 0%Z); ("b1", 1%Z)]).
  - unfold color_of. simpl. lia.
  - vm_compute. reflexivity.
Defined.

Lemma color_from_roots_colouring_witness :
  dict_get [("a1", 0%Z); ("b1", 1%Z); ("b2", 0%Z); ("a2", 1%Z)] "b2" = Some 0%Z.
Proof.
  apply (color_from_roots_colouring 2 cross_downstream cross_by_name ["a1"; "b2"]
           [("a1", 0%Z); ("b1", 1%Z); ("b2", 0%Z); ("a2", 1%Z)]).
  - no_dup.
  - intros m names r Hm%dict_get_Some_elem Hr Hin.
    elem_cases Hm; injection Hm as -> ->; elem_cases Hr; subst r;
      elem_cases Hin; discriminate Hin.
  - vm_compute. reflexivity.
  - apply list_elem_of_further, list_elem_of_here.
Defined.

Lemma color_from_roots_returns_witness :
  ∃ r, color_from_roots 2 cross_downstream cross_by_name ["a1"; "b2"] = Some r.
Proof.
  apply (color_from_roots_returns cross_rank).
  - intros n names d Hn%dict_get_Some_elem Hd _.
    elem_cases Hn; injection Hn as -> ->; elem_cases Hd; subst d;
      vm_compute; lia.
  - intros n names Hn%dict_get_Some_elem Hd.
    elem_cases Hn; injection Hn as -> ->; elem_cases Hd; discriminate Hd.
  - intros r Hr. elem_cases Hr; subst r; vm_compute; lia.
Defined.

Lemma attempt_resolve_cycles_provenance_witness :
  ∃ resolved : list Asset,
    _attempt_resolve_cycles 2 [cross_A; cross_B] = Some (Ok resolved)
    ∧ ∀ ad', ad' ∈ resolved →
        ∃ ad, ad ∈ [cross_A; cross_B]
          ∧ (ad' = ad
             ∨ (can_subset ad = true
                ∧ ∃ selected,
                    ad' = subset_for ad selected
                    ∧ ∀ k, k ∈ selected →
                        ∃ key, key ∈ keys ad
                               ∧ k = from_user_string (to_user_string key))).
Proof.
  eexists. split; [vm_compute; reflexivity|].
  apply (attempt_resolve_cycles_provenance 2 [cross_A; cross_B]).
  vm_compute. reflexivity.
Defined.

Lemma attempt_resolve_cycles_circular_witness :
  _attempt_resolve_cycles 0 [ping; pong] = Some (Raise CircularDependencyError).
Proof.
  apply (attempt_resolve_cycles_circular 0 [ping; pong]
           [("ping", ["pong"]); ("pong", ["ping"])]
           [("ping", ["pong"]); ("pong", ["ping"])]).
  - vm_compute. reflexivity.
  - exists "ping". apply (tc_l _ _ "pong").
    + exists ["pong"]. split_and!; [apply list_elem_of_here..|done].
    + apply tc_once. exists ["ping"].
      split_and!; [apply list_elem_of_further|..|done]; apply list_elem_of_here.
Defined.

Lemma get_all_resource_defs_keys_witness :
  NoDup (dict_keys [("io_manager", 0); ("db", 1)]).
Proof.
  apply (get_all_resource_defs_keys [with_resources [("db", 1)] orders] []
           [("io_manager", 0)] [("io_manager", 0); ("db", 1)]).
  vm_compute. reflexivity.
Defined.

Lemma build_assets_job_arguments_witness :
  ∃ job,
    build_assets_job to_string 0 0 [orders; report] [] [("db", 3)] None
    = Some (Ok job)
    ∧ is_Some (dict_get (job_resource_defs_arg job) "io_manager").
Proof.
  eexists. split; [vm_compute; reflexivity|].
  apply (build_assets_job_arguments to_string 0 0 [orders; report] []
           [("db", 3)] None).
  vm_compute. reflexivity.
Defined.

Lemma attempt_resolve_cycles_returns_witness :
  ∃ fuel (r : result (list Asset)),
    _attempt_resolve_cycles fuel [cross_A; cross_B] = Some r.
Proof.
  apply (attempt_resolve_cycles_returns [cross_A; cross_B]
           [("a1", []); ("a2", ["b2"]); ("b1", ["a1"]); ("b2", [])]
           cross_downstream).
  - vm_compute. no_dup.
  - vm_compute. reflexivity.
  - intros n names Hn%dict_get_Some_elem Hd.
    elem_cases Hn; injection Hn as -> ->; elem_cases Hd; discriminate Hd.
Defined.

Lemma build_job_partitions_from_assets_order_witness :
  build_job_partitions_from_assets to_string
    [report; with_partitions "daily" orders]
  = Ok (Some "daily").
Proof.
  apply (build_job_partitions_from_assets_order to_string
           [with_partitions "daily" orders; report]).
  - apply Permutation_swap.
  - vm_compute. reflexivity.
Defined.

Lemma build_node_deps_edges_witness :
  [("c", consumer_y); ("a", first_a); ("a_2", second_a)]
  = zip (node_aliases (sorted (list_compare AssetKey_compare) sort_key
                         [first_a; second_a; consumer_y]))
        (sorted (list_compare AssetKey_compare) sort_key
           [first_a; second_a; consumer_y]).
Proof.
  refine (proj1 (build_node_deps_edges to_string [first_a; second_a; consumer_y] []
                   [(NodeName "c", [("y", DependencyDefinition "a_2" "y")]);
                    (NodeName "a", []); (NodeInvocation "a" "a_2", [])]
                   [("c", consumer_y); ("a", first_a); ("a_2", second_a)]
                   [(("c", "y"), ["y"])] _ _)).
  - vm_compute. no_dup.
  - vm_compute. reflexivity.
Defined.

End MoreInstances.
(** * The graph and the order of supply and of iteration *)

(** ** Dictionaries that answer alike *)

Section dict_equiv_facts.
Context {K V : Type} `{EqDecision K}.
Implicit Types (d : dict K V).

Lemma dict_equiv_set d d' k v :
  dict_equiv d d' → dict_equiv (dict_set d k v) (dict_set d' k v).
Proof. intros Hd k'. rewrite !dict_get_set. by destruct (decide (k' = k)). Qed.

(** Writes under different keys commute. *)
Lemma dict_equiv_set_swap d d' k1 v1 k2 v2 :
  k1 ≠ k2 → dict_equiv d d' →
  dict_equiv (dict_set (dict_set d k1 v1) k2 v2)
             (dict_set (dict_set d' k2 v2) k1 v1).
Proof.
  intros Hne Hd k. rewrite !dict_get_set.
  repeat case_decide; subst; done.
Qed.

Lemma dict_equiv_values d d' v :
  NoDup d.*1 → dict_equiv d d' → v ∈ d.*2 → v ∈ d'.*2.
Proof.
  intros Hnd Hd ([k v'] & -> & Hin)%list_elem_of_fmap. simpl.
  apply (dict_elem_get _ _ _ Hnd) in Hin. rewrite Hd in Hin.
  apply dict_get_Some_elem in Hin. apply list_elem_of_fmap. by exists (k, v').
Qed.

End dict_equiv_facts.

(** ** Loops over related lists *)

(** Two loops whose bodies keep a relation between their states, run over
    lists of related items: when the first ends, so does the second, in a
    related state. *)
Lemma foldM_Forall2 {A A' S S' : Type} (R : S → S' → Prop) (Q : A → A' → Prop)
  (f : S → A → result S) (f' : S' → A' → result S')
  (l : list A) (l' : list A') :
  Forall2 Q l l' →
  (∀ s s' x x' s1, x ∈ l → Q x x' → R s s' → f s x = Ok s1 →
                   ∃ s1', f' s' x' = Ok s1' ∧ R s1 s1') →
  ∀ s s' s1, R s s' → foldM f s l = Ok s1 →
             ∃ s1', foldM f' s' l' = Ok s1' ∧ R s1 s1'.
Proof.
  induction 1 as [|x x' l l' Hx Hl IH]; intros Hstep s s' s1 Hs; simpl.
  - intros [= <-]. by exists s'.
  - intros (s2 & Hf & Hrest)%bind_Ok.
    destruct (Hstep s s' x x' s2) as (s2' & Hf' & Hs2); [by left|done..|].
    rewrite Hf'. simpl. eapply IH; [|exact Hs2|exact Hrest].
    intros t t' y y' t1 Hy. apply Hstep. by right.
Qed.

Lemma foldM_respects {A S S' : Type} (R : S → S' → Prop)
  (f : S → A → result S) (f' : S' → A → result S') (l : list A) :
  (∀ s s' x s1, x ∈ l → R s s' → f s x = Ok s1 →
                ∃ s1', f' s' x = Ok s1' ∧ R s1 s1') →
  ∀ s s' s1, R s s' → foldM f s l = Ok s1 →
             ∃ s1', foldM f' s' l = Ok s1' ∧ R s1 s1'.
Proof.
  intros Hstep. apply (foldM_Forall2 R eq).
  - clear. induction l; by constructor.
  - intros s s' x x' s1 Hx <-. by apply Hstep.
Qed.

Lemma mapM_result_total {A B : Type} (f : A → result B) (l : list A) :
  (∀ x, x ∈ l → ∃ y, f x = Ok y) → ∃ res, mapM f l = Ok res.
Proof.
  induction l as [|x l IH]; intros Hall; simpl; [by eexists|].
  destruct (Hall x) as [y Hy]; [by left|]. rewrite Hy. simpl.
  destruct IH as [res Hres]; [intros x' Hx'; apply Hall; by right|].
  rewrite Hres. simpl. by eexists.
Qed.

(** Sorting lists of related items with equal keys. *)
Lemma sorted_insert_Forall2 {A B : Type} (cmp : B → B → comparison)
  (key : A → B) (R : A → A → Prop) x y l k :
  (∀ x y, R x y → key x = key y) → R x y → Forall2 R l k →
  Forall2 R (sorted_insert cmp key x l) (sorted_insert cmp key y k).
Proof.
  intros Hkey Hxy. induction 1 as [|x0 y0 l k H0 Hl IH]; simpl.
  - by repeat constructor.
  - rewrite <- (Hkey _ _ H0), <- (Hkey _ _ Hxy).
    destruct (cmp (key x0) (key x)); by repeat constructor.
Qed.

Lemma sorted_Forall2 {A B : Type} (cmp : B → B → comparison)
  (key : A → B) (R : A → A → Prop) l k :
  (∀ x y, R x y → key x = key y) → Forall2 R l k →
  Forall2 R (sorted cmp key l) (sorted cmp key k).
Proof.
  intros Hkey. induction 1 as [|x y l k Hxy Hl IH]; [constructor|].
  unfold sorted in *. simpl. by apply sorted_insert_Forall2.
Qed.

Section KeyOrder.
Context {PartitionsDefinition ResourceDefinition : Type}.
Context `{EqDecision PartitionsDefinition, EqDecision ResourceDefinition}.
Variable to_string : AssetKey → string.
Local Abbreviation AssetsDef := (@AssetsDefinition PartitionsDefinition ResourceDefinition).
Local Abbreviation Source := (@SourceAsset ResourceDefinition).
Implicit Types (assets_defs : list AssetsDef) (source_assets : list Source).
Implicit Types (ad : AssetsDef) (tbl : dict (string * string) AssetKey).
Implicit Types (handles : dict NodeHandle AssetsDef).

(** ** The relation between the two inputs *)

Lemma same_up_to_key_order_sym ad ad' :
  same_up_to_key_order ad ad' → same_up_to_key_order ad' ad.
Proof.
  intros (ko & Hperm & ->). exists (keys ad). split; [done|]. by destruct ad.
Qed.

Lemma same_up_to_key_order_keys ad ad' :
  same_up_to_key_order ad ad' → keys ad ≡ₚ keys ad'.
Proof. by intros (ko & Hperm & ->). Qed.

Lemma same_up_to_key_order_places ad ad' :
  same_up_to_key_order ad ad' →
  distinct_lookup_places ad → distinct_lookup_places ad'.
Proof.
  intros (ko & Hperm & ->). unfold distinct_lookup_places. simpl.
  change (lookup_place (with_key_order ko ad)) with (lookup_place ad).
  by rewrite Hperm.
Qed.

Lemma same_definitions_sym assets_defs assets_defs' :
  same_definitions assets_defs assets_defs' →
  same_definitions assets_defs' assets_defs.
Proof.
  intros (supplied & Hperm & Hsame).
  assert (Hflip : Forall2 (flip same_up_to_key_order) supplied assets_defs').
  { eapply Forall2_impl; [exact Hsame|].
    intros ad ad'. apply same_up_to_key_order_sym. }
  symmetry in Hperm.
  destruct (Permutation_Forall2 Hperm Hflip) as (supplied' & Hperm' & Hsame').
  exists supplied'. split; [done|]. by apply Forall2_flip.
Qed.

Lemma same_definitions_keys assets_defs assets_defs' :
  Forall2 same_up_to_key_order assets_defs assets_defs' →
  concat (keys <$> assets_defs) ≡ₚ concat (keys <$> assets_defs').
Proof.
  induction 1 as [|ad ad' l l' Had Hl IH]; [done|].
  rewrite !fmap_cons. simpl.
  by rewrite IH, (same_up_to_key_order_keys _ _ Had).
Qed.

Lemma same_definitions_unique_producers assets_defs assets_defs' :
  same_definitions assets_defs assets_defs' →
  unique_producers assets_defs → unique_producers assets_defs'.
Proof.
  intros (supplied & Hperm & Hsame) [Hne Hnd]. split.
  - intros ad' Had'.
    destruct (Forall2_elem_r _ _ _ _ Hsame Had') as (ad & Had & Hrel).
    apply same_up_to_key_order_keys in Hrel. intros Hnil.
    rewrite Hnil in Hrel. apply Permutation_nil_r in Hrel.
    apply (Hne ad); [by rewrite Hperm|done].
  - by rewrite <- (same_definitions_keys _ _ Hsame), <- Hperm.
Qed.

Lemma same_definitions_places assets_defs assets_defs' :
  same_definitions assets_defs assets_defs' →
  (∀ ad, ad ∈ assets_defs → distinct_lookup_places ad) →
  ∀ ad', ad' ∈ assets_defs' → distinct_lookup_places ad'.
Proof.
  intros (supplied & Hperm & Hsame) Hplaces ad' Had'.
  destruct (Forall2_elem_r _ _ _ _ Hsame Had') as (ad & Had & Hrel).
  eapply same_up_to_key_order_places; [exact Hrel|].
  apply Hplaces. by rewrite Hperm.
Qed.

(** ** Sorting and naming *)

Lemma sort_key_key_order ad ad' :
  same_up_to_key_order ad ad' → sort_key ad = sort_key ad'.
Proof.
  intros (ko & Hperm & ->). unfold sort_key. simpl.
  apply (sorted_Permutation_eq AssetKey_compare id); [done|].
  by intros x y _ _ ?.
Qed.

Lemma dict_set_same_units handles handles' (alias : NodeHandle) ad ad' :
  same_units handles handles' → same_up_to_key_order ad ad' →
  same_units (dict_set handles alias ad) (dict_set handles' alias ad').
Proof.
  unfold same_units. intros Hhs Had.
  induction Hhs as [|[h a] [h' a'] hs hs' [Hh Ha] Hhs IH]; simpl.
  - by repeat constructor.
  - simpl in Hh. subst h'. destruct (decide (alias = h)); by constructor.
Qed.

(** The naming loop gives related lists of definitions the same
    identifiers and the same producing nodes. *)
Lemma naming_key_order assets_defs assets_defs'
  (collisions : dict string nat) handles handles'
  (producers : dict AssetKey (string * string)) :
  Forall2 same_up_to_key_order assets_defs assets_defs' →
  same_units handles handles' →
  ∃ collisions1 handles1 handles1' producers1,
    foldl naming_step (collisions, handles, producers) assets_defs
    = (collisions1, handles1, producers1)
    ∧ foldl naming_step (collisions, handles', producers) assets_defs'
      = (collisions1, handles1', producers1)
    ∧ same_units handles1 handles1'.
Proof.
  intros Hdefs. revert collisions handles handles' producers.
  induction Hdefs as [|ad ad' l l' Had Hl IH]; intros c hs hs' ps Hhs; simpl.
  - by exists c, hs, hs', ps.
  - pose proof Had as (ko & Hperm & Heq). rewrite Heq. simpl. rewrite <- Heq.
    destruct (assign_node_alias c (node_def_name ad)) as [c1 alias].
    apply IH. by apply dict_set_same_units.
Qed.

(** ** The lookup table *)

(** The body of the loop over the output keys of a definition. *)
Local Abbreviation table_step ad :=
  (λ tbl (key : AssetKey),
     group ← dict_getitem (group_names_by_key ad) key;
     name ← path_last key;
     Ok (dict_set tbl (group, name) key)).

Lemma table_step_Ok ad tbl key tbl' :
  table_step ad tbl key = Ok tbl'
  ↔ ∃ group name,
      lookup_place ad key = (Some group, Some name)
      ∧ tbl' = dict_set tbl (group, name) key.
Proof.
  unfold dict_getitem, path_last, lookup_place.
  destruct (dict_get (group_names_by_key ad) key) as [g|]; simpl;
    [destruct (last key) as [n|]; simpl|]; split; try naive_solver.
Qed.

Lemma table_step_equiv ad tbl1 tbl2 key tbl1' :
  dict_equiv tbl1 tbl2 → table_step ad tbl1 key = Ok tbl1' →
  ∃ tbl2', table_step ad tbl2 key = Ok tbl2' ∧ dict_equiv tbl1' tbl2'.
Proof.
  intros Heq (g & n & Hplace & ->)%table_step_Ok.
  exists (dict_set tbl2 (g, n) key). split; [|by apply dict_equiv_set].
  apply table_step_Ok. by exists g, n.
Qed.

(** With pairwise distinct places, the order in which the output keys of
    a definition are entered does not matter. *)
Lemma table_keys_Permutation ad (ks ks' : list AssetKey) :
  ks ≡ₚ ks' → NoDup (lookup_place ad <$> ks) →
  ∀ tbl1 tbl2 tbl1',
    dict_equiv tbl1 tbl2 → foldM (table_step ad) tbl1 ks = Ok tbl1' →
    ∃ tbl2', foldM (table_step ad) tbl2 ks' = Ok tbl2' ∧ dict_equiv tbl1' tbl2'.
Proof.
  induction 1 as [|x l l' Hperm IH|x y l|l l' l'' H1 IH1 H2 IH2];
    intros Hnd tbl1 tbl2 tbl1' Heq.
  - simpl. intros [= <-]. by exists tbl2.
  - rewrite fmap_cons in Hnd. apply NoDup_cons in Hnd as [_ Hnd].
    cbn [foldM]. intros (t & Hstep & Hrest)%bind_Ok.
    destruct (table_step_equiv _ _ _ _ _ Heq Hstep) as (t' & Hstep' & Heq').
    destruct (IH Hnd _ _ _ Heq' Hrest) as (tbl2' & Hrest' & ?).
    exists tbl2'. split; [|done]. apply bind_Ok. by exists t'.
  - rewrite !fmap_cons in Hnd.
    apply NoDup_cons in Hnd as [Hne%not_elem_of_cons _]. destruct Hne as [Hne _].
    cbn [foldM]. intros (t1 & Hy & (t2 & Hx & Hrest)%bind_Ok)%bind_Ok.
    apply table_step_Ok in Hy as (gy & ny & Hpy & ->).
    apply table_step_Ok in Hx as (gx & nx & Hpx & ->).
    assert (Hplaces : (gy, ny) ≠ (gx, nx)).
    { intros [= -> ->]. apply Hne. by rewrite Hpy, Hpx. }
    destruct (foldM_respects dict_equiv (table_step ad) (table_step ad) l
                (λ s s' k s1 _, table_step_equiv ad s s' k s1)
                _ (dict_set (dict_set tbl2 (gx, nx) x) (gy, ny) y) _
                (dict_equiv_set_swap _ _ _ _ _ _ Hplaces Heq) Hrest)
      as (tbl2' & Hrest' & ?).
    exists tbl2'. split; [|done].
    apply bind_Ok. exists (dict_set tbl2 (gx, nx) x).
    split; [apply table_step_Ok; by exists gx, nx|].
    apply bind_Ok. exists (dict_set (dict_set tbl2 (gx, nx) x) (gy, ny) y).
    split; [apply table_step_Ok; by exists gy, ny|done].
  - intros Hfold.
    destruct (IH1 Hnd _ _ _ Heq Hfold) as (t & Ht & Heq1).
    assert (Hnd' : NoDup (lookup_place ad <$> l')) by (by rewrite <- H1).
    destruct (IH2 Hnd' tbl2 tbl2 t (λ _, eq_refl) Ht) as (t' & Ht' & Heq2).
    exists t'. split; [done|]. intros k. by rewrite Heq1, Heq2.
Qed.

Lemma lookup_table_NoDup assets_defs source_assets tbl :
  build_asset_keys_by_group_and_name assets_defs source_assets = Ok tbl →
  NoDup tbl.*1.
Proof.
  unfold build_asset_keys_by_group_and_name.
  intros (tbl1 & Hdefs & Hsrcs)%bind_Ok.
  pose (P := λ tbl : dict (string * string) AssetKey, NoDup tbl.*1).
  change (P tbl). eapply foldM_invariant; [| |exact Hsrcs].
  - change (P tbl1). eapply foldM_invariant; [| |exact Hdefs].
    + constructor.
    + intros t ad t' Had Ht Hstep. change (P t').
      eapply foldM_invariant; [exact Ht| |exact Hstep].
      intros t1 key t2 Hkey Ht1 (g & n & _ & ->)%table_step_Ok.
      by apply dict_set_NoDup.
  - intros t src t' Hsrc Ht Hset.
    apply bind_Ok in Hset as (name0 & Hlast & [= <-]).
    by apply dict_set_NoDup.
Qed.

(** The lookup tables of related lists of definitions answer alike. *)
Lemma lookup_table_key_order assets_defs assets_defs' source_assets tbl :
  Forall2 same_up_to_key_order assets_defs assets_defs' →
  (∀ ad, ad ∈ assets_defs → distinct_lookup_places ad) →
  build_asset_keys_by_group_and_name assets_defs source_assets = Ok tbl →
  ∃ tbl',
    build_asset_keys_by_group_and_name assets_defs' source_assets = Ok tbl'
    ∧ dict_equiv tbl tbl'.
Proof.
  intros Hdefs Hplaces. unfold build_asset_keys_by_group_and_name.
  intros (tbl1 & Hloop & Hsrcs)%bind_Ok.
  destruct (foldM_Forall2 dict_equiv same_up_to_key_order
              (λ tbl ad, foldM (table_step ad) tbl (keys ad))
              (λ tbl ad, foldM (table_step ad) tbl (keys ad))
              assets_defs assets_defs' Hdefs) with (s := @nil (string * string * AssetKey))
    (s' := @nil (string * string * AssetKey)) (s1 := tbl1)
    as (tbl1' & Hloop' & Heq1); [|done|exact Hloop|].
  { intros t t' ad ad' t1 Hin (ko & Hperm & ->) Heq Hfold.
    exact (table_keys_Permutation ad (keys ad) ko Hperm (Hplaces ad Hin)
             t t' t1 Heq Hfold). }
  eapply foldM_respects in Hsrcs as (tbl' & Hsrcs' & Heq'); [|clear Hsrcs|exact Heq1].
  - exists tbl'. split; [|exact Heq']. apply bind_Ok. exists tbl1'. split; [exact Hloop'|exact Hsrcs'].
  - intros t t' src t1 _ Heq (name & Hname & [= <-])%bind_Ok.
    eexists. split; [apply bind_Ok; exists name; split; [exact Hname|reflexivity]|].
    by apply dict_equiv_set.
Qed.

(** ** Resolution *)

Lemma resolve_input_equiv tbl tbl' (asset_keys asset_keys' : list AssetKey)
  ad ad' group key k :
  dict_equiv tbl tbl' → (∀ k, k ∈ asset_keys ↔ k ∈ asset_keys') →
  resolve_input to_string tbl asset_keys ad group key = Ok k →
  resolve_input to_string tbl' asset_keys' ad' group key = Ok k.
Proof.
  intros Htbl Hkeys. unfold resolve_input.
  intros (name & Hname & Hk)%bind_Ok. rewrite Hname. simpl.
  rewrite (bool_decide_ext _ _ (Hkeys key)) in Hk.
  destruct (bool_decide (key ∈ asset_keys')); [done|].
  destruct group as [g|]; [|by apply raise_unresolved_not_Ok in Hk].
  rewrite <- Htbl.
  destruct (dict_get tbl (g, name)); [done|by apply raise_unresolved_not_Ok in Hk].
Qed.

(** The resolved inputs of a definition do not depend on the order of
    its key set. *)
Lemma resolve_assets_def_key_order tbl tbl' (asset_keys asset_keys' : list AssetKey)
  ad ad' r :
  dict_equiv tbl tbl' → (∀ k, k ∈ asset_keys ↔ k ∈ asset_keys') →
  same_up_to_key_order ad ad' →
  resolve_assets_def to_string tbl asset_keys ad = Ok r →
  r.1 = ad ∧ resolve_assets_def to_string tbl' asset_keys' ad' = Ok (ad', r.2).
Proof.
  intros Htbl Hkeys (ko & Hperm & ->). unfold resolve_assets_def.
  intros (dk & Hfold & [= <-])%bind_Ok. split; [done|].
  apply bind_Ok. exists dk. split; [|done].
  change (group_of (with_key_order ko ad)) with (group_of ad).
  change (keys_by_input_name (with_key_order ko ad)) with (keys_by_input_name ad).
  eapply (foldM_respects eq) in Hfold as (dk' & Hfold' & <-);
    [exact Hfold'|clear Hfold|reflexivity].
  intros s s' [n key] s1 _ <- (k & Hk & [= <-])%bind_Ok.
  exists (dict_set s n k). split; [|done].
  apply bind_Ok. exists k. split; [|done].
  by eapply resolve_input_equiv.
Qed.

Lemma lookup_table_asset_keys tbl tbl' k :
  NoDup tbl.*1 → NoDup tbl'.*1 → dict_equiv tbl tbl' →
  k ∈ remove_dups (dict_values tbl) ↔ k ∈ remove_dups (dict_values tbl').
Proof.
  intros Hnd Hnd' Heq. rewrite !elem_of_remove_dups. unfold dict_values. split.
  - by apply dict_equiv_values.
  - apply dict_equiv_values; [done|]. intros q. by rewrite Heq.
Qed.

(** What the index of the resolved inputs holds for a definition. *)
Lemma index_by_assets_def_id_resolved assets_defs source_assets tbl resolved ad dep_keys :
  build_asset_keys_by_group_and_name assets_defs source_assets = Ok tbl →
  resolve_assets_def_deps to_string assets_defs source_assets = Ok resolved →
  dict_get (index_by_assets_def_id resolved) ad = Some dep_keys
  ↔ ad ∈ assets_defs
    ∧ resolve_assets_def to_string tbl (remove_dups (dict_values tbl)) ad
      = Ok (ad, dep_keys).
Proof.
  intros Htbl Hres. pose proof Hres as Hfst%resolve_assets_def_deps_fst.
  unfold resolve_assets_def_deps in Hres. rewrite Htbl in Hres. simpl in Hres.
  apply mapM_result_Ok in Hres.
  assert (Hread : ∀ dk, dict_get (index_by_assets_def_id resolved) ad = Some dk →
            resolve_assets_def to_string tbl (remove_dups (dict_values tbl)) ad
            = Ok (ad, dk)).
  { intros dk Hin%index_by_assets_def_id_elem.
    destruct (Forall2_elem_r _ _ _ _ Hres Hin) as (ad0 & Had0 & Hr).
    pose proof Hr as Heq. unfold resolve_assets_def in Heq.
    apply bind_Ok in Heq as (dk0 & _ & [= -> _]). done. }
  split.
  - intros Hget. split; [|by apply Hread].
    apply index_by_assets_def_id_elem in Hget. rewrite <- Hfst.
    apply list_elem_of_fmap. by exists (ad, dep_keys).
  - intros [Had Hr].
    destruct (index_by_assets_def_id_keys resolved ad) as [dk Hdk];
      [by rewrite Hfst|].
    rewrite Hdk. apply Hread in Hdk. congruence.
Qed.

(** The resolver on related lists of definitions: when it resolves the
    inputs of the first list, it resolves those of the second, and the
    indexes of the resolved inputs agree on related definitions. *)
Lemma resolve_assets_def_deps_key_order assets_defs assets_defs' source_assets
  resolved :
  Forall2 same_up_to_key_order assets_defs assets_defs' →
  (∀ ad, ad ∈ assets_defs → distinct_lookup_places ad) →
  resolve_assets_def_deps to_string assets_defs source_assets = Ok resolved →
  ∃ resolved',
    resolve_assets_def_deps to_string assets_defs' source_assets = Ok resolved'
    ∧ ∀ ad ad' dep_keys,
        same_up_to_key_order ad ad' → ad' ∈ assets_defs' →
        dict_get (index_by_assets_def_id resolved) ad = Some dep_keys →
        dict_get (index_by_assets_def_id resolved') ad' = Some dep_keys.
Proof.
  intros Hdefs Hplaces Hres.
  pose proof Hres as Hres0. unfold resolve_assets_def_deps in Hres0.
  apply bind_Ok in Hres0 as (tbl & Htbl & Hmap). apply mapM_result_Ok in Hmap.
  destruct (lookup_table_key_order _ _ _ _ Hdefs Hplaces Htbl)
    as (tbl' & Htbl' & Heq).
  assert (Hkeys : ∀ k, k ∈ remove_dups (dict_values tbl)
                       ↔ k ∈ remove_dups (dict_values tbl')).
  { intros k. apply lookup_table_asset_keys; [| |done];
      by eapply lookup_table_NoDup. }
  assert (Hall : ∃ resolved',
            resolve_assets_def_deps to_string assets_defs' source_assets
            = Ok resolved').
  { unfold resolve_assets_def_deps. rewrite Htbl'. simpl.
    apply mapM_result_total. intros ad' Had'.
    destruct (Forall2_elem_r _ _ _ _ Hdefs Had') as (ad & Had & Hrel).
    destruct (Forall2_elem_l _ _ _ _ Hmap Had) as (r & _ & Hr).
    destruct (resolve_assets_def_key_order _ _ _ _ _ _ _ Heq Hkeys Hrel Hr)
      as [_ Hr'].
    by eexists. }
  destruct Hall as [resolved' Hres']. exists resolved'. split; [done|].
  intros ad ad' dk Hrel Had' Hget.
  apply (index_by_assets_def_id_resolved _ _ _ _ _ _ Htbl Hres) in Hget
    as [Had Hr].
  apply (index_by_assets_def_id_resolved _ _ _ _ _ _ Htbl' Hres').
  split; [done|].
  by destruct (resolve_assets_def_key_order _ _ _ _ _ _ _ Heq Hkeys Hrel Hr).
Qed.

(** ** The connecting loop *)

Lemma node_key_of_key_order (h : NodeHandle) ad ad' :
  same_up_to_key_order ad ad' → node_key_of h ad' = node_key_of h ad.
Proof. by intros (ko & _ & ->). Qed.

Lemma connect_nodes_key_order (producers : dict AssetKey (string * string))
  (by_id by_id' : dict AssetsDef (dict string AssetKey)) handles handles' st st1 :
  same_units handles handles' →
  (∀ h ad ad' dep_keys,
     (h, ad') ∈ handles' → same_up_to_key_order ad ad' →
     dict_get by_id ad = Some dep_keys → dict_get by_id' ad' = Some dep_keys) →
  foldM (connect_node producers by_id) st handles = Ok st1 →
  foldM (connect_node producers by_id') st handles' = Ok st1.
Proof.
  unfold same_units. intros Hhs. revert st.
  induction Hhs as [|[h ad] [h' ad'] hs hs' [Hh Had] Hhs IH]; intros st Hid;
    [done|].
  simpl in Hh, Had. subst h'. cbn [foldM].
  intros (st2 & Hstep & Hrest)%bind_Ok. apply bind_Ok. exists st2. split.
  - destruct st as [deps ih]. unfold connect_node in *.
    rewrite (node_key_of_key_order _ _ _ Had).
    apply bind_Ok in Hstep as (dep_keys & Hget & Hinner).
    apply bind_Ok. exists dep_keys. split; [|done].
    unfold dict_getitem in *.
    destruct (dict_get by_id ad) as [dk|] eqn:Hdk; [|done].
    injection Hget as ->.
    by rewrite (Hid h ad ad' dep_keys (list_elem_of_here _ _) Had Hdk).
  - apply IH; [|done]. intros h0 a a' dk Hin. apply (Hid h0). by right.
Qed.

(** ** The assembled graph *)

(** When the graph of the first input is assembled, so is the graph of
    the second, and it is the same graph. *)
Lemma build_node_deps_key_order assets_defs assets_defs' source_assets
  deps handles ih :
  same_definitions assets_defs assets_defs' →
  unique_producers assets_defs →
  (∀ ad, ad ∈ assets_defs → distinct_lookup_places ad) →
  build_node_deps to_string assets_defs source_assets = Ok (deps, handles, ih) →
  ∃ handles',
    build_node_deps to_string assets_defs' source_assets
    = Ok (deps, handles', ih)
    ∧ same_units handles handles'.
Proof.
  intros (supplied & Hperm & Hsame) Huniq Hplaces Hbuild.
  apply build_node_deps_Ok in Hbuild as (Hhandles & resolved & Hres & Hconn).
  set (sorted_defs := sorted (list_compare AssetKey_compare) sort_key assets_defs) in *.
  set (sorted_defs' := sorted (list_compare AssetKey_compare) sort_key assets_defs').
  assert (Hsorted : Forall2 same_up_to_key_order sorted_defs sorted_defs').
  { unfold sorted_defs. rewrite (sorted_defs_Permutation _ _ Hperm Huniq).
    apply sorted_Forall2; [apply sort_key_key_order|done]. }
  assert (Hplaces' : ∀ ad, ad ∈ sorted_defs → distinct_lookup_places ad).
  { intros ad Had. apply Hplaces. unfold sorted_defs in Had.
    by rewrite sorted_Permutation in Had. }
  destruct (naming_key_order sorted_defs sorted_defs' [] [] [] [] Hsorted)
    as (c1 & hs & hs' & ps & Hnames & Hnames' & Hunits); [constructor|].
  fold (name_nodes sorted_defs) in Hnames.
  fold (name_nodes sorted_defs') in Hnames'.
  rewrite Hnames in Hhandles, Hconn. simpl in Hhandles, Hconn. subst handles.
  destruct (resolve_assets_def_deps_key_order _ _ _ _ Hsorted Hplaces' Hres)
    as (resolved' & Hres' & Hidx).
  exists hs'. split; [|done].
  unfold build_node_deps. fold sorted_defs'. rewrite Hnames', Hres'. simpl.
  unfold connect_nodes in *.
  rewrite (connect_nodes_key_order _ _ (index_by_assets_def_id resolved')
             _ _ _ _ Hunits) with (2 := Hconn); [done|].
  intros h ad ad' dk Hin Hrel. apply Hidx; [done|].
  pose proof (name_nodes_invariant sorted_defs') as Hinv.
  rewrite Hnames' in Hinv. destruct Hinv as [_ Hhs].
  by apply (Hhs h ad').
Qed.

(** C8, as amended.  Two invocations receive the same set of definitions
    (each with an output key, no key produced twice), supplied in any
    order, each definition's key set iterated in any order, and the same
    source assets.  When no definition has two output keys with the same
    group and final path segment, the invocations end alike: if one
    returns a graph, the other returns the same dependency dictionary and
    the same input handle map, and a handle map with the same identifiers
    in the same order for the same definitions; if one raises, so does the
    other. *)
Theorem build_node_deps_deterministic assets_defs assets_defs' source_assets :
  same_definitions assets_defs assets_defs' →
  unique_producers assets_defs →
  (∀ ad, ad ∈ assets_defs → distinct_lookup_places ad) →
  match build_node_deps to_string assets_defs source_assets with
  | Ok (deps, handles, ih) =>
      ∃ handles',
        build_node_deps to_string assets_defs' source_assets
        = Ok (deps, handles', ih)
        ∧ same_units handles handles'
  | Raise _ =>
      ∃ e, build_node_deps to_string assets_defs' source_assets = Raise e
  end.
Proof.
  intros Hsame Huniq Hplaces.
  destruct (build_node_deps to_string assets_defs source_assets)
    as [[[deps handles] ih]|e] eqn:Hbuild.
  - by eapply build_node_deps_key_order.
  - destruct (build_node_deps to_string assets_defs' source_assets)
      as [[[deps' handles'] ih']|e'] eqn:Hbuild'; [|by exists e'].
    eapply build_node_deps_key_order in Hbuild' as (handles0 & Hok & _).
    + rewrite Hbuild in Hok. discriminate Hok.
    + by apply same_definitions_sym.
    + by eapply same_definitions_unique_producers.
    + by eapply same_definitions_places.
Qed.

End KeyOrder.
(** ** Determinism on the example inputs *)

Section DeterminismInstances.
Import Examples.

Local Ltac elem_cases H :=
  repeat (apply elem_of_cons in H as [H|H]); [..|by apply elem_of_nil in H].

Local Ltac no_dup :=
  repeat (apply NoDup_cons; split;
          [rewrite ?not_elem_of_cons; split_and?;
           try apply not_elem_of_nil; by intros [=]|]);
  apply NoDup_nil_2.

(** C8, the claim as stated fails: the two outputs of [both_x] share group
    and final segment, and the input of [consumer_x] resolves through the
    lookup table to the one entered last.  Two invocations on the same two
    definitions, with no key produced twice, that iterate the key set of
    [both_x] in different orders return different edges and different
    input handle maps. *)
Lemma iteration_order_decides_edge :
  same_definitions [both_x; consumer_x]
    [with_key_order [["b"; "x"]; ["a"; "x"]] both_x; consumer_x]
  ∧ unique_producers [both_x; consumer_x]
  ∧ ∃ deps handles ih deps' handles' ih',
      build_node_deps to_string [both_x; consumer_x] []
      = Ok (deps, handles, ih)
      ∧ build_node_deps to_string
          [with_key_order [["b"; "x"]; ["a"; "x"]] both_x; consumer_x] []
        = Ok (deps', handles', ih')
      ∧ dict_get deps (NodeName "consumer_x")
        = Some [("x", DependencyDefinition "both_x" "b/x")]
      ∧ dict_get deps' (NodeName "consumer_x")
        = Some [("x", DependencyDefinition "both_x" "a/x")]
      ∧ dict_get ih ("consumer_x", "x") = Some ["b"; "x"]
      ∧ dict_get ih' ("consumer_x", "x") = Some ["a"; "x"].
Proof.
  split_and!.
  - exists [both_x; consumer_x]. split; [done|].
    constructor; [|constructor; [|constructor]].
    + exists [["b"; "x"]; ["a"; "x"]]. split; [apply Permutation_swap|done].
    + exists [["c"]]. by split.
  - split.
    + intros ad Had. elem_cases Had; by subst ad.
    + vm_compute. no_dup.
  - eexists _, _, _, _, _, _. split_and!; vm_compute; reflexivity.
Qed.

Lemma build_node_deps_deterministic_witness :
  ∃ deps (handles : dict NodeHandle Asset) ih handles',
    build_node_deps to_string [cross_A; cross_B] [] = Ok (deps, handles, ih)
    ∧ build_node_deps to_string
        [with_key_order [b2; b1] cross_B; with_key_order [a2; a1] cross_A] []
      = Ok (deps, handles', ih)
    ∧ same_units handles handles'.
Proof.
  pose proof (build_node_deps_deterministic to_string
                ([cross_A; cross_B] : list Asset)
                [with_key_order [b2; b1] cross_B; with_key_order [a2; a1] cross_A]
                []) as Hdet.
  destruct (build_node_deps to_string ([cross_A; cross_B] : list Asset) [])
    as [[[deps handles] ih]|e] eqn:Hbuild; [|vm_compute in Hbuild; discriminate].
  destruct Hdet as (handles' & Hbuild' & Hunits).
  - exists [cross_B; cross_A]. split; [apply Permutation_swap|].
    constructor; [|constructor; [|constructor]].
    + exists [b2; b1]. split; [apply Permutation_swap|done].
    + exists [a2; a1]. split; [apply Permutation_swap|done].
  - split.
    + intros ad Had. elem_cases Had; by subst ad.
    + vm_compute. no_dup.
  - intros ad Had. elem_cases Had; subst ad; vm_compute; no_dup.
  - by exists deps, handles, ih, handles'.
Defined.

End DeterminismInstances.
